(** * task-property-sync: the extraction, condition and aggregation engine

    A shallow embedding of [taskParser.ts], [operations.ts], the pure part
    of [processor.ts], the folder list of the settings tab and
    [frontmatterWriter.ts], followed by the properties of the specification
    that were checked against it and by further properties of the code.

    JavaScript strings are sequences of UTF-16 code units and none of the
    regular expressions of [taskParser.ts] carries the [u] flag, so matching,
    trimming, comparison and sorting all work on code units.  The embedding
    keeps that view: a string is a list of code units. *)

From Stdlib Require Import Ascii String DecimalString DecimalNat.
From Stdlib Require Import PrimFloat FloatOps SpecFloat Uint63.
From Stdlib Require Import NArith ZArith Bool Arith Lia List Permutation Sorted.
Import ListNotations.

(* ================================================================== *)
(** * Part I: the embedding *)
(* ================================================================== *)

(** ** JavaScript strings *)

Module JsString.

(** A code unit is a number below 65536; a string is a list of code units. *)
Abbreviation code_unit := N (only parsing).
Abbreviation jsstring := (list N) (only parsing).

(** UTF-8 bytes (the encoding of a Rocq string literal) to code points. *)
Fixpoint code_points (bs : list N) : list N :=
  match bs with
  | [] => []
  | b0 :: r0 =>
      if (b0 <? 0x80)%N then b0 :: code_points r0
      else match r0 with
      | [] => [b0]
      | b1 :: r1 =>
          if (b0 <? 0xE0)%N
          then ((b0 - 0xC0) * 0x40 + (b1 - 0x80))%N :: code_points r1
          else match r1 with
          | [] => [b0; b1]
          | b2 :: r2 =>
              if (b0 <? 0xF0)%N
              then ((b0 - 0xE0) * 0x1000 + (b1 - 0x80) * 0x40
                    + (b2 - 0x80))%N :: code_points r2
              else match r2 with
              | [] => [b0; b1; b2]
              | b3 :: r3 =>
                  ((b0 - 0xF0) * 0x40000 + (b1 - 0x80) * 0x1000
                   + (b2 - 0x80) * 0x40 + (b3 - 0x80))%N :: code_points r3
              end
          end
      end
  end.

(** A code point as one code unit, or as a surrogate pair. *)
Definition utf16 (cp : N) : jsstring :=
  if (cp <? 0x10000)%N then [cp]
  else [(0xD800 + (cp - 0x10000) / 0x400)%N;
        (0xDC00 + (cp - 0x10000) mod 0x400)%N].

(** The JavaScript string denoted by a source literal. *)
Definition js (s : string) : jsstring :=
  flat_map utf16 (code_points (map N_of_ascii (list_ascii_of_string s))).
Arguments js s%_string.

(** [a === b] on strings. *)
Fixpoint str_eqb (a b : jsstring) : bool :=
  match a, b with
  | [], [] => true
  | x :: a', y :: b' => (x =? y)%N && str_eqb a' b'
  | _, _ => false
  end.

(** [a < b] on strings: lexicographic on code units, a proper prefix is
    smaller. *)
Fixpoint str_ltb (a b : jsstring) : bool :=
  match a, b with
  | _, [] => false
  | [], _ :: _ => true
  | x :: a', y :: b' =>
      if (x <? y)%N then true
      else if (x =? y)%N then str_ltb a' b' else false
  end.

Definition str_leb (a b : jsstring) : bool := negb (str_ltb b a).

(** [\s], which is also the set [String.prototype.trim] strips:
    WhiteSpace and LineTerminator. *)
Definition is_space (c : code_unit) : bool :=
  ((0x09 <=? c) && (c <=? 0x0D) || (c =? 0x20) || (c =? 0xA0)
   || (c =? 0x1680) || (0x2000 <=? c) && (c <=? 0x200A)
   || (c =? 0x2028) || (c =? 0x2029) || (c =? 0x202F) || (c =? 0x205F)
   || (c =? 0x3000) || (c =? 0xFEFF))%N.

(** LineTerminator, which [.] refuses. *)
Definition is_line_terminator (c : code_unit) : bool :=
  ((c =? 0x0A) || (c =? 0x0D) || (c =? 0x2028) || (c =? 0x2029))%N.

(** [\d] *)
Definition is_digit (c : code_unit) : bool :=
  ((0x30 <=? c) && (c <=? 0x39))%N.

Fixpoint takeWhile (p : code_unit -> bool) (s : jsstring) : jsstring :=
  match s with
  | x :: s' => if p x then x :: takeWhile p s' else []
  | [] => []
  end.

Fixpoint dropWhile (p : code_unit -> bool) (s : jsstring) : jsstring :=
  match s with
  | x :: s' => if p x then dropWhile p s' else s
  | [] => []
  end.

Definition trimStart (s : jsstring) : jsstring := dropWhile is_space s.
Definition trimEnd (s : jsstring) : jsstring :=
  rev (dropWhile is_space (rev s)).
(** [s.trim()] *)
Definition trim (s : jsstring) : jsstring := trimEnd (trimStart s).

Fixpoint startsWith (s p : jsstring) : bool :=
  match p, s with
  | [], _ => true
  | y :: p', x :: s' => (x =? y)%N && startsWith s' p'
  | _ :: _, [] => false
  end.

(** [s.includes(sub)] *)
Fixpoint includes (s sub : jsstring) : bool :=
  startsWith s sub ||
  match s with
  | [] => false
  | _ :: s' => includes s' sub
  end.

(** [parts.join(sep)] *)
Fixpoint join (sep : jsstring) (parts : list jsstring) : jsstring :=
  match parts with
  | [] => []
  | [p] => p
  | p :: ps => p ++ sep ++ join sep ps
  end.

(** [content.split("\n")]: the line being read and the rest. *)
Fixpoint split_lines (cur : jsstring) (s : jsstring) : list jsstring :=
  match s with
  | [] => [rev cur]
  | x :: s' =>
      if (x =? 0x0A)%N then rev cur :: split_lines [] s'
      else split_lines (x :: cur) s'
  end.

(** [String(n)] for an array length or a count. *)
Definition String_of_nat (n : nat) : jsstring :=
  map N_of_ascii
      (list_ascii_of_string (NilEmpty.string_of_uint (Nat.to_uint n))).

(** Insertion into a list sorted by code units. *)
Fixpoint insert_sorted (v : jsstring) (l : list jsstring) : list jsstring :=
  match l with
  | [] => [v]
  | w :: l' => if str_ltb v w then v :: l else w :: insert_sorted v l'
  end.

(** [values.sort()] with the default comparator: ascending by code units.
    The order is total and equal keys are equal strings, so every sorting
    algorithm produces this list. *)
Fixpoint sort (l : list jsstring) : list jsstring :=
  match l with
  | [] => []
  | v :: l' => insert_sorted v (sort l')
  end.

End JsString.
Import JsString.

(** ** The regular-expression fragment of [taskParser.ts] *)

Module Regex.

Definition cls := code_unit -> bool.

(** A pattern is a sequence of atoms: one code unit of a class, or a greedy
    repetition of a class. *)
Inductive atom : Type :=
| Chr (c : cls)
| Star (c : cls).

Definition matched : Type := (list jsstring * jsstring)%type.

(** Greedy [c*] followed by the continuation [k]: the longest repetition is
    tried first and given back one code unit at a time while [k] fails. *)
Fixpoint star_greedy (c : cls) (k : jsstring -> option matched)
         (s : jsstring) : option (jsstring * matched) :=
  let stop := option_map (fun r => ([], r)) (k s) in
  match s with
  | x :: s' =>
      if c x then
        match star_greedy c k s' with
        | Some (w, r) => Some (x :: w, r)
        | None => stop
        end
      else stop
  | [] => stop
  end.

(** Match the atoms at the start of [s]: the text each atom consumed, and
    what is left. *)
Fixpoint match_seq (re : list atom) (s : jsstring) : option matched :=
  match re with
  | [] => Some ([], s)
  | Chr c :: re' =>
      match s with
      | x :: s' =>
          if c x then
            option_map (fun '(chs, rest) => ([x] :: chs, rest))
                       (match_seq re' s')
          else None
      | [] => None
      end
  | Star c :: re' =>
      option_map (fun '(w, (chs, rest)) => (w :: chs, rest))
                 (star_greedy c (match_seq re') s)
  end.

(** The leftmost match: the text before it, the text of each atom, the text
    after it. *)
Fixpoint search (re : list atom) (s : jsstring)
  : option (jsstring * list jsstring * jsstring) :=
  match match_seq re s with
  | Some (chs, rest) => Some ([], chs, rest)
  | None =>
      match s with
      | [] => None
      | x :: s' =>
          option_map (fun '(pre, chs, rest) => (x :: pre, chs, rest))
                     (search re s')
      end
  end.

(** A pattern: whether it starts with [^], its atoms, and its capture
    groups, each a range of atoms (first atom, number of atoms). *)
Record regex : Type := {
  anchored : bool;
  atoms : list atom;
  groups : list (nat * nat)
}.

(** The match of a pattern without the [g] flag: the only position tried for
    an anchored pattern is the start of the text. *)
Definition find (r : regex) (text : jsstring)
  : option (jsstring * list jsstring * jsstring) :=
  if anchored r then
    match match_seq (atoms r) text with
    | Some (chs, rest) => Some ([], chs, rest)
    | None => None
    end
  else search (atoms r) text.

Definition capture (chs : list jsstring) (g : nat * nat) : jsstring :=
  concat (firstn (snd g) (skipn (fst g) chs)).

(** [text.match(regex)] for a pattern without the [g] flag: the captures
    [m[1]], [m[2]], ... *)
Definition exec (r : regex) (text : jsstring) : option (list jsstring) :=
  match find r text with
  | Some (_, chs, _) => Some (map (capture chs) (groups r))
  | None => None
  end.

(** [regex.test(text)] *)
Definition test (r : regex) (text : jsstring) : bool :=
  match find r text with Some _ => true | None => false end.

(** [text.replace(regex, empty)] for a pattern without the [g] flag: the
    first match is cut out. *)
Definition replace_first (r : regex) (text : jsstring) : jsstring :=
  match find r text with
  | Some (pre, _, rest) => pre ++ rest
  | None => text
  end.

(** [text.replace(/\s+/g, " ")] *)
Fixpoint collapse_spaces (in_run : bool) (s : jsstring) : jsstring :=
  match s with
  | [] => []
  | x :: s' =>
      if is_space x
      then if in_run then collapse_spaces true s'
           else 0x20%N :: collapse_spaces true s'
      else x :: collapse_spaces false s'
  end.

Definition only (c : code_unit) : cls := N.eqb c.
Definition lit (s : jsstring) : list atom := map (fun c => Chr (only c)) s.
Definition any_of (l : list code_unit) : cls :=
  fun c => existsb (N.eqb c) l.
Definition none_of (l : list code_unit) : cls :=
  fun c => negb (any_of l c).
(** [.] *)
Definition dot : cls := fun c => negb (is_line_terminator c).

End Regex.
Import Regex.

(** ** [taskParser.ts] *)

Module TaskParser.

Record ParsedTask : Type := {
  line : jsstring;
  lineNumber : nat;
  isDone : bool;
  description : jsstring;
  dueDate : option jsstring;
  scheduledDate : option jsstring;
  startDate : option jsstring;
  createdDate : option jsstring;
  doneDate : option jsstring;
  recurrence : option jsstring;
  priority : option jsstring;
  status : jsstring
}.

(** Source pattern: ^ ( \s* [-*] \s* \[ (.) \] ) \s* ( .* ),
    written here with blanks between its parts. *)
Definition TASK_CHECKBOX_REGEX : regex :=
  {| anchored := true;
     atoms := [Star is_space; Chr (any_of [0x2D; 0x2A]%N); Star is_space;
               Chr (only 0x5B%N); Chr dot; Chr (only 0x5D%N);
               Star is_space; Star dot];
     groups := [(0, 6); (4, 1); (7, 1)] |}.

(** The group ( \d{4}-\d{2}-\d{2} ). *)
Definition date_atoms : list atom :=
  [Chr is_digit; Chr is_digit; Chr is_digit; Chr is_digit; Chr (only 0x2D%N);
   Chr is_digit; Chr is_digit; Chr (only 0x2D%N);
   Chr is_digit; Chr is_digit].

(** glyph \s* ( \d{4}-\d{2}-\d{2} ) *)
Definition date_regex (glyph : jsstring) : regex :=
  {| anchored := false;
     atoms := lit glyph ++ Star is_space :: date_atoms;
     groups := [(S (length glyph), 10)] |}.

Definition DUE_GLYPH : jsstring := Eval vm_compute in js "📅".
Definition SCHEDULED_GLYPH : jsstring := Eval vm_compute in js "⏳".
Definition START_GLYPH : jsstring := Eval vm_compute in js "🛫".
Definition CREATED_GLYPH : jsstring := Eval vm_compute in js "➕".
Definition DONE_GLYPH : jsstring := Eval vm_compute in js "✅".
Definition RECURRENCE_GLYPH : jsstring := Eval vm_compute in js "🔁".
Definition HIGHEST_GLYPH : jsstring := Eval vm_compute in js "🔺".
Definition HIGH_GLYPH : jsstring := Eval vm_compute in js "⏫".
Definition MEDIUM_GLYPH : jsstring := Eval vm_compute in js "🔼".
Definition LOW_GLYPH : jsstring := Eval vm_compute in js "🔽".
Definition LOWEST_GLYPH : jsstring := Eval vm_compute in js "⏬".

Definition DUE_DATE_REGEX : regex := date_regex DUE_GLYPH.
Definition SCHEDULED_DATE_REGEX : regex := date_regex SCHEDULED_GLYPH.
Definition START_DATE_REGEX : regex := date_regex START_GLYPH.
Definition CREATED_DATE_REGEX : regex := date_regex CREATED_GLYPH.
Definition DONE_DATE_REGEX : regex := date_regex DONE_GLYPH.

(** The code units of the class [^📅⏳🛫➕✅⏫🔼🔽⏬🆔]: without the [u] flag
    each half of a surrogate pair is a member of its own. *)
Definition RECURRENCE_STOP : list code_unit :=
  Eval vm_compute in js "📅⏳🛫➕✅⏫🔼🔽⏬🆔".

(** 🔁 \s* ( [^📅⏳🛫➕✅⏫🔼🔽⏬🆔]* ) *)
Definition RECURRENCE_REGEX : regex :=
  {| anchored := false;
     atoms := lit RECURRENCE_GLYPH
                ++ [Star is_space; Star (none_of RECURRENCE_STOP)];
     groups := [(3, 1)] |}.

Definition glyph_regex (glyph : jsstring) : regex :=
  {| anchored := false; atoms := lit glyph; groups := [] |}.

Definition PRIORITY_HIGHEST_REGEX : regex := glyph_regex HIGHEST_GLYPH.
Definition PRIORITY_HIGH_REGEX : regex := glyph_regex HIGH_GLYPH.
Definition PRIORITY_MEDIUM_REGEX : regex := glyph_regex MEDIUM_GLYPH.
Definition PRIORITY_LOW_REGEX : regex := glyph_regex LOW_GLYPH.
Definition PRIORITY_LOWEST_REGEX : regex := glyph_regex LOWEST_GLYPH.

(** [match ? match[1] : null] *)
Definition extractMatch (text : jsstring) (r : regex) : option jsstring :=
  match exec r text with
  | Some m => Some (nth 0 m [])
  | None => None
  end.

Definition extractPriority (text : jsstring) : option jsstring :=
  if test PRIORITY_HIGHEST_REGEX text then Some (js "highest")
  else if test PRIORITY_HIGH_REGEX text then Some (js "high")
  else if test PRIORITY_MEDIUM_REGEX text then Some (js "medium")
  else if test PRIORITY_LOW_REGEX text then Some (js "low")
  else if test PRIORITY_LOWEST_REGEX text then Some (js "lowest")
  else None.

(** The eleven marker patterns in the order [extractDescription] applies
    them. *)
Definition MARKER_REGEXES : list regex :=
  [DUE_DATE_REGEX; SCHEDULED_DATE_REGEX; START_DATE_REGEX;
   CREATED_DATE_REGEX; DONE_DATE_REGEX; RECURRENCE_REGEX;
   PRIORITY_HIGHEST_REGEX; PRIORITY_HIGH_REGEX; PRIORITY_MEDIUM_REGEX;
   PRIORITY_LOW_REGEX; PRIORITY_LOWEST_REGEX].

Definition extractDescription (taskContent : jsstring) : jsstring :=
  trim (collapse_spaces false
          (fold_left (fun text r => replace_first r text)
                     MARKER_REGEXES taskContent)).

(** [match[3].trim()] of a line the checkbox pattern accepts. *)
Definition taskContent (line : jsstring) : option jsstring :=
  match exec TASK_CHECKBOX_REGEX line with
  | Some m => Some (trim (nth 2 m []))
  | None => None
  end.

Definition parseTaskLine (line : jsstring) (lineNumber : nat)
  : option ParsedTask :=
  match exec TASK_CHECKBOX_REGEX line with
  | None => None
  | Some m =>
      let statusChar := nth 1 m [] in
      let taskContent := trim (nth 2 m []) in
      let isDone :=
        str_eqb statusChar (js "x") || str_eqb statusChar (js "X") in
      let dueDate := extractMatch taskContent DUE_DATE_REGEX in
      let scheduledDate := extractMatch taskContent SCHEDULED_DATE_REGEX in
      let startDate := extractMatch taskContent START_DATE_REGEX in
      let createdDate := extractMatch taskContent CREATED_DATE_REGEX in
      let doneDate := extractMatch taskContent DONE_DATE_REGEX in
      let recurrence := extractMatch taskContent RECURRENCE_REGEX in
      let priority := extractPriority taskContent in
      let description := extractDescription taskContent in
      Some {| line := line;
              lineNumber := lineNumber;
              isDone := isDone;
              description := description;
              dueDate := dueDate;
              scheduledDate := scheduledDate;
              startDate := startDate;
              createdDate := createdDate;
              doneDate := doneDate;
              recurrence :=
                match recurrence with
                | Some ((_ :: _) as r) => Some (trim r)
                | _ => None
                end;
              priority := priority;
              status := statusChar |}
  end.

Fixpoint parse_lines (lines : list jsstring) (i : nat) : list ParsedTask :=
  match lines with
  | [] => []
  | l :: ls =>
      match parseTaskLine l i with
      | Some task => task :: parse_lines ls (S i)
      | None => parse_lines ls (S i)
      end
  end.

Definition parseTasks (content : jsstring) : list ParsedTask :=
  parse_lines (split_lines [] content) 0.

Definition getTaskPropertyValue (task : ParsedTask) (property : jsstring)
  : option jsstring :=
  if str_eqb property (js "due_date") then dueDate task
  else if str_eqb property (js "scheduled_date") then scheduledDate task
  else if str_eqb property (js "start_date") then startDate task
  else if str_eqb property (js "created_date") then createdDate task
  else if str_eqb property (js "done_date") then doneDate task
  else if str_eqb property (js "recurrence") then recurrence task
  else if str_eqb property (js "priority") then priority task
  else if str_eqb property (js "status") then Some (status task)
  else if str_eqb property (js "description") then Some (description task)
  else None.

End TaskParser.
Import TaskParser.

(** ** [operations.ts] *)

Module Operations.

Record Condition : Type := {
  cond_id : jsstring;
  property : jsstring;
  operator : jsstring;
  value : jsstring
}.

Inductive ConditionLogic : Type := AND | OR.

Definition evaluateCondition (task : ParsedTask) (condition : Condition)
  : bool :=
  let taskValue := getTaskPropertyValue task (property condition) in
  let condValue := value condition in
  let op := operator condition in
  if str_eqb op (js "equals") then
    match taskValue with Some v => str_eqb v condValue | None => false end
  else if str_eqb op (js "not_equals") then
    match taskValue with
    | Some v => negb (str_eqb v condValue)
    | None => true
    end
  else if str_eqb op (js "contains") then
    match taskValue with Some v => includes v condValue | None => false end
  else if str_eqb op (js "not_contains") then
    match taskValue with
    | Some v => negb (includes v condValue)
    | None => true
    end
  else if str_eqb op (js "is_empty") then
    match taskValue with Some v => str_eqb v [] | None => true end
  else if str_eqb op (js "is_not_empty") then
    match taskValue with Some v => negb (str_eqb v []) | None => false end
  else if str_eqb op (js "greater_than") then
    match taskValue with Some v => str_ltb condValue v | None => false end
  else if str_eqb op (js "less_than") then
    match taskValue with Some v => str_ltb v condValue | None => false end
  else if str_eqb op (js "greater_or_equal") then
    match taskValue with Some v => str_leb condValue v | None => false end
  else if str_eqb op (js "less_or_equal") then
    match taskValue with Some v => str_leb v condValue | None => false end
  else true.

Definition filterTasksByConditions (tasks : list ParsedTask)
           (conditions : list Condition) (logic : ConditionLogic)
  : list ParsedTask :=
  match conditions with
  | [] => tasks
  | _ :: _ =>
      filter (fun task =>
                match logic with
                | AND => forallb (evaluateCondition task) conditions
                | OR => existsb (evaluateCondition task) conditions
                end) tasks
  end.

Fixpoint getPropertyValues (tasks : list ParsedTask) (property : jsstring)
  : list jsstring :=
  match tasks with
  | [] => []
  | task :: rest =>
      match getTaskPropertyValue task property with
      | Some ((_ :: _) as v) => v :: getPropertyValues rest property
      | _ => getPropertyValues rest property
      end
  end.

Definition computeMin (tasks : list ParsedTask) (property : jsstring)
  : option jsstring :=
  match getPropertyValues tasks property with
  | [] => None
  | values => Some (nth 0 (sort values) [])
  end.

Definition computeMax (tasks : list ParsedTask) (property : jsstring)
  : option jsstring :=
  match getPropertyValues tasks property with
  | [] => None
  | values => Some (nth (length values - 1) (sort values) [])
  end.

Definition computeCount (tasks : list ParsedTask) (property : jsstring)
  : jsstring :=
  String_of_nat (length (getPropertyValues tasks property)).

(** [Math.round(x)] for a finite double: the integer floor(x + 1/2), taken
    on the exact value of [x]. *)
Definition Math_round (x : float) : Z :=
  match Prim2SF x with
  | S754_finite sign m e =>
      let v := if sign then Z.neg m else Z.pos m in
      if (0 <=? e)%Z then (v * 2 ^ e)%Z
      else Z.shiftr (v + 2 ^ (- e - 1)) (- e)
  | _ => 0%Z
  end.

Definition Number_of_nat (n : nat) : float :=
  PrimFloat.of_uint63 (Uint63.of_Z (Z.of_nat n)).

Definition computePercentageDone (tasks : list ParsedTask) : jsstring :=
  match tasks with
  | [] => js "0"
  | _ :: _ =>
      let doneCount := length (filter isDone tasks) in
      let percentage :=
        Math_round (PrimFloat.mul
                      (PrimFloat.div (Number_of_nat doneCount)
                                     (Number_of_nat (length tasks)))
                      (Number_of_nat 100)) in
      String_of_nat (Z.to_nat percentage)
  end.

Definition computeList (tasks : list ParsedTask) (property : jsstring)
  : option jsstring :=
  match getPropertyValues tasks property with
  | [] => None
  | values => Some (join (js ", ") values)
  end.

Fixpoint computeFirst (tasks : list ParsedTask) (property : jsstring)
  : option jsstring :=
  match tasks with
  | [] => None
  | task :: rest =>
      match getTaskPropertyValue task property with
      | Some ((_ :: _) as v) => Some v
      | _ => computeFirst rest property
      end
  end.

(** The loop of [computeLast] visits [tasks] from the last index down. *)
Definition computeLast (tasks : list ParsedTask) (property : jsstring)
  : option jsstring :=
  computeFirst (rev tasks) property.

Definition executeOperation (tasks : list ParsedTask)
           (taskProperty operation : jsstring) : option jsstring :=
  match tasks with
  | [] => None
  | _ :: _ =>
      if str_eqb operation (js "min") then computeMin tasks taskProperty
      else if str_eqb operation (js "max") then computeMax tasks taskProperty
      else if str_eqb operation (js "count")
      then Some (computeCount tasks taskProperty)
      else if str_eqb operation (js "count_all")
      then Some (String_of_nat (length tasks))
      else if str_eqb operation (js "count_done")
      then Some (String_of_nat (length (filter isDone tasks)))
      else if str_eqb operation (js "count_open")
      then Some (String_of_nat
                   (length (filter (fun t => negb (isDone t)) tasks)))
      else if str_eqb operation (js "percentage_done")
      then Some (computePercentageDone tasks)
      else if str_eqb operation (js "list")
      then computeList tasks taskProperty
      else if str_eqb operation (js "first")
      then computeFirst tasks taskProperty
      else if str_eqb operation (js "last")
      then computeLast tasks taskProperty
      else None
  end.

End Operations.
Import Operations.

(** ** [processor.ts]: the updates a processing pass collects *)

Module Processor.

Record DirectMapping : Type := {
  dm_id : jsstring;
  dm_taskProperty : jsstring;
  dm_frontmatterKey : jsstring;
  dm_overwriteExisting : bool;
  dm_enabled : bool
}.

Record OperationMapping : Type := {
  om_id : jsstring;
  om_taskProperty : jsstring;
  om_operation : jsstring;
  om_frontmatterKey : jsstring;
  om_overwriteExisting : bool;
  om_enabled : bool;
  om_conditions : option (list Condition);
  om_conditionLogic : option ConditionLogic
}.

Record TaskPropertyPluginSettings : Type := {
  directMappings : list DirectMapping;
  operationMappings : list OperationMapping
}.

Record Update : Type := {
  key : jsstring;
  upd_value : jsstring;
  overwriteExisting : bool
}.

(** The loop of [processDirectMapping] with its [break]. *)
Fixpoint direct_loop (mapping : DirectMapping) (tasks : list ParsedTask)
  : list Update :=
  match tasks with
  | [] => []
  | task :: rest =>
      match getTaskPropertyValue task (dm_taskProperty mapping) with
      | Some ((_ :: _) as v) =>
          [{| key := dm_frontmatterKey mapping;
              upd_value := v;
              overwriteExisting := dm_overwriteExisting mapping |}]
      | _ => direct_loop mapping rest
      end
  end.

Definition processDirectMapping (mapping : DirectMapping)
           (tasks : list ParsedTask) : list Update :=
  direct_loop mapping tasks.

Definition is_count_operation (operation : jsstring) : bool :=
  str_eqb operation (js "count_all")
  || str_eqb operation (js "count_done")
  || str_eqb operation (js "count_open")
  || str_eqb operation (js "percentage_done").

Definition hasCountOps (settings : TaskPropertyPluginSettings) : bool :=
  existsb (fun m => om_enabled m && is_count_operation (om_operation m))
          (operationMappings settings).

Definition processOperationMapping (mapping : OperationMapping)
           (tasks : list ParsedTask) : list Update :=
  let filteredTasks :=
    filterTasksByConditions
      tasks
      (match om_conditions mapping with Some c => c | None => [] end)
      (match om_conditionLogic mapping with Some l => l | None => AND end) in
  match executeOperation filteredTasks (om_taskProperty mapping)
                         (om_operation mapping) with
  | Some result =>
      [{| key := om_frontmatterKey mapping;
          upd_value := result;
          overwriteExisting := om_overwriteExisting mapping |}]
  | None => []
  end.

(** The [updates] array of [processFile] for the text of a Markdown file
    outside the excluded folders: what is handed to the frontmatter writer
    (nothing is written when it is empty). *)
Definition collectUpdates (settings : TaskPropertyPluginSettings)
           (tasks : list ParsedTask) : list Update :=
  flat_map (fun m => processDirectMapping m tasks)
           (filter dm_enabled (directMappings settings))
  ++ flat_map (fun m => processOperationMapping m tasks)
              (filter om_enabled (operationMappings settings)).

Definition processFile (settings : TaskPropertyPluginSettings)
           (content : jsstring) : list Update :=
  let tasks := parseTasks content in
  if (length tasks =? 0) && negb (hasCountOps settings) then []
  else collectUpdates settings tasks.

End Processor.
Import Processor.

(** ** The fixed vocabularies and the readings the properties use *)

Module Vocabulary.

(** [TASK_PROPERTIES], [OPERATIONS] and [CONDITION_OPERATORS] of the settings
    tab: the members of the union types of [types.ts]. *)
Definition TASK_PROPERTIES : list jsstring :=
  [js "due_date"; js "scheduled_date"; js "start_date"; js "created_date";
   js "done_date"; js "recurrence"; js "priority"; js "status";
   js "description"].

Definition OPERATIONS : list jsstring :=
  [js "min"; js "max"; js "count"; js "count_all"; js "count_done";
   js "count_open"; js "percentage_done"; js "list"; js "first"; js "last"].

Definition CONDITION_OPERATORS : list jsstring :=
  [js "equals"; js "not_equals"; js "contains"; js "not_contains";
   js "is_empty"; js "is_not_empty"; js "greater_than"; js "less_than";
   js "greater_or_equal"; js "less_or_equal"].

(** The integer a numeric string denotes. *)
Definition decimal_value (s : jsstring) : option nat :=
  option_map Nat.of_uint
    (NilEmpty.uint_of_string (string_of_list_ascii (map ascii_of_N s))).

(** [g] occurs somewhere in [s]. *)
Definition occurs (g s : jsstring) : Prop :=
  exists pre post, s = pre ++ g ++ post.

(** The first occurrence of a literal: no match of it starts earlier. *)
Definition first_at (g pre s : jsstring) : Prop :=
  forall p q, s = p ++ q -> length p < length pre ->
              match_seq (lit g) q = None.

(** A task whose property is unset or empty: the loops skip it. *)
Definition no_value (property : jsstring) (task : ParsedTask) : Prop :=
  getTaskPropertyValue task property = None
  \/ getTaskPropertyValue task property = Some [].

(** The sentence of the specification on misconfiguration, read on the three
    places a name is looked up: the accessor, the aggregation, and an
    operation mapping filtered by one condition. *)
Definition misconfiguration_is_absent : Prop :=
  (forall task p, ~ In p TASK_PROPERTIES -> getTaskPropertyValue task p = None)
  /\ (forall tasks p op,
         ~ In op OPERATIONS -> executeOperation tasks p op = None)
  /\ (forall tasks c logic p op,
         ~ In (operator c) CONDITION_OPERATORS ->
         executeOperation (filterTasksByConditions tasks [c] logic) p op
         = None).

End Vocabulary.
Import Vocabulary.

(** ** Lines as a checkbox, a lead text and markers with their text *)

Module Lines.

(** The eleven marker glyphs of the parser. *)
Definition MARKER_GLYPHS : list jsstring :=
  [DUE_GLYPH; SCHEDULED_GLYPH; START_GLYPH; CREATED_GLYPH; DONE_GLYPH;
   RECURRENCE_GLYPH; HIGHEST_GLYPH; HIGH_GLYPH; MEDIUM_GLYPH; LOW_GLYPH;
   LOWEST_GLYPH].

(** The code units of the glyphs and of the class of the recurrence
    pattern. *)
Definition MARKER_UNITS : list code_unit :=
  concat MARKER_GLYPHS ++ RECURRENCE_STOP.
Definition marker_unit : cls := any_of MARKER_UNITS.

(** The code units a glyph starts with. *)
Definition glyph_start : cls :=
  any_of (map (fun g => hd 0%N g) MARKER_GLYPHS).

(** What follows a text: the end of the line, or the glyph of a marker. *)
Definition glyph_or_end (s : jsstring) : Prop :=
  match s with [] => True | x :: _ => glyph_start x = true end.

(** Text that holds no marker glyph and stays on its line. *)
Definition plain (s : jsstring) : Prop :=
  (forall g, In g MARKER_GLYPHS -> ~ occurs g s) /\ forallb dot s = true.

(** A glyph together with the text that follows it, up to the next glyph. *)
Record marker : Type := { glyph : jsstring; text : jsstring }.

Definition render (m : marker) : jsstring := glyph m ++ text m.

Definition well_formed (m : marker) : Prop :=
  In (glyph m) MARKER_GLYPHS /\ plain (text m).

(** What follows the checkbox: a lead text, then the markers. *)
Definition body (lead : jsstring) (ms : list marker) : jsstring :=
  lead ++ concat (map render ms).

(** The checkbox of a task line: indentation, a bullet, a bracketed status
    character. *)
Definition checkbox (head : jsstring) : Prop :=
  exists indent bullet gap st,
    head = indent ++ bullet :: gap ++ [0x5B; st; 0x5D]%N
    /\ forallb is_space indent = true
    /\ (bullet = 0x2D \/ bullet = 0x2A)%N
    /\ forallb is_space gap = true
    /\ is_line_terminator st = false.

(** The date fields, the recurrence and the priority of two records agree. *)
Definition same_extraction (t t' : ParsedTask) : Prop :=
  dueDate t = dueDate t'
  /\ scheduledDate t = scheduledDate t'
  /\ startDate t = startDate t'
  /\ createdDate t = createdDate t'
  /\ doneDate t = doneDate t'
  /\ recurrence t = recurrence t'
  /\ priority t = priority t'.

(** Order independence over the lines whose markers satisfy [P]: a
    permutation of the markers, each kept with its text, parses to the same
    extracted fields. *)
Definition order_independent (P : list marker -> Prop) : Prop :=
  forall (head lead : jsstring) (ms ms' : list marker) (n : nat),
    checkbox head -> plain lead -> Forall well_formed ms -> P ms ->
    Permutation ms ms' ->
    exists t t',
      parseTaskLine (head ++ body lead ms) n = Some t
      /\ parseTaskLine (head ++ body lead ms') n = Some t'
      /\ same_extraction t t'.

(** A run of single code units against a run of classes. *)
Fixpoint match_classes (cs : list cls) (u : jsstring) : bool :=
  match cs, u with
  | [], _ => true
  | c :: cs', x :: u' => c x && match_classes cs' u'
  | _ :: _, [] => false
  end.

Definition DATE_CLASSES : list cls :=
  [is_digit; is_digit; is_digit; is_digit; only 0x2D%N;
   is_digit; is_digit; only 0x2D%N; is_digit; is_digit].

(** The date a marker text starts with, after optional whitespace. *)
Definition date_capture (v : jsstring) : option jsstring :=
  let u := dropWhile is_space v in
  if match_classes DATE_CLASSES u then Some (firstn 10 u) else None.

(** The recurrence a marker text gives: after optional whitespace, the text
    up to the first code unit of the recurrence class, trimmed. *)
Definition recurrence_value (v : jsstring) : option jsstring :=
  match takeWhile (none_of RECURRENCE_STOP) (dropWhile is_space v) with
  | [] => None
  | r => Some (trim r)
  end.

(** The text of the first marker that carries [g]. *)
Fixpoint find_text (g : jsstring) (ms : list marker) : option jsstring :=
  match ms with
  | [] => None
  | m :: ms' => if str_eqb (glyph m) g then Some (text m) else find_text g ms'
  end.

(** The first marker carrying [g] on which the rest [re] of a pattern
    matches: the text the atoms of [re] consumed. *)
Fixpoint scan (g : jsstring) (re : list atom) (ms : list marker)
  : option (list jsstring) :=
  match ms with
  | [] => None
  | m :: ms' =>
      if str_eqb (glyph m) g then
        match match_seq re (text m ++ concat (map render ms')) with
        | Some (chs, _) => Some chs
        | None => scan g re ms'
        end
      else scan g re ms'
  end.

(** The date of the first marker carrying [g] whose text starts with one. *)
Fixpoint first_date (g : jsstring) (ms : list marker) : option jsstring :=
  match ms with
  | [] => None
  | m :: ms' =>
      if str_eqb (glyph m) g then
        match date_capture (text m) with
        | Some d => Some d
        | None => first_date g ms'
        end
      else first_date g ms'
  end.

(** The group of a date pattern, from the atoms after the glyph. *)
Definition date_group (chs : list jsstring) : jsstring :=
  concat (firstn 10 (skipn 1 chs)).

(** Whether a marker carries [g], and the priority the glyphs that are there
    give. *)
Definition has_glyph (g : jsstring) (ms : list marker) : bool :=
  match find_text g ms with Some _ => true | None => false end.

Definition lookup_priority (ms : list marker) : option jsstring :=
  if has_glyph HIGHEST_GLYPH ms then Some (js "highest")
  else if has_glyph HIGH_GLYPH ms then Some (js "high")
  else if has_glyph MEDIUM_GLYPH ms then Some (js "medium")
  else if has_glyph LOW_GLYPH ms then Some (js "low")
  else if has_glyph LOWEST_GLYPH ms then Some (js "lowest")
  else None.

(** A class that refuses whitespace. *)
Definition rejects_space (c : cls) : Prop :=
  forall x, is_space x = true -> c x = false.

(** Patterns on which whitespace after the text changes nothing: single code
    units that are not whitespace, and whitespace runs followed by one. *)
Fixpoint ws_rigid (re : list atom) : Prop :=
  match re with
  | [] => True
  | Chr c :: re' => rejects_space c /\ ws_rigid re'
  | Star c :: re' =>
      c = is_space
      /\ match re' with Chr _ :: _ => ws_rigid re' | _ => False end
  end.

(** The recurrence field as [parseTaskLine] derives it from the content. *)
Definition recurrence_field (content : jsstring) : option jsstring :=
  match extractMatch content RECURRENCE_REGEX with
  | Some ((_ :: _) as r) => Some (trim r)
  | _ => None
  end.

(** The glyphs that carry a value: the five date glyphs and the recurrence
    glyph.  The other five only say a priority by being there. *)
Definition VALUE_GLYPHS : list jsstring :=
  [DUE_GLYPH; SCHEDULED_GLYPH; START_GLYPH; CREATED_GLYPH; DONE_GLYPH;
   RECURRENCE_GLYPH].

Definition carries_value (m : marker) : bool :=
  existsb (str_eqb (glyph m)) VALUE_GLYPHS.

(** The end of the line, or a line terminator (the carriage return of a file
    with Windows line ends) and whatever follows it. *)
Definition line_end (tail : jsstring) : Prop :=
  match tail with [] => True | x :: _ => is_line_terminator x = true end.

(** The glyph of the id field of the Tasks plugin: the class of the
    recurrence pattern lists it, and no pattern of the parser reads it. *)
Definition ID_GLYPH : jsstring := Eval vm_compute in js "🆔".

(** The marker glyphs other than the recurrence glyph. *)
Definition OTHER_GLYPHS : list jsstring :=
  [DUE_GLYPH; SCHEDULED_GLYPH; START_GLYPH; CREATED_GLYPH; DONE_GLYPH;
   HIGHEST_GLYPH; HIGH_GLYPH; MEDIUM_GLYPH; LOW_GLYPH; LOWEST_GLYPH].

(** What follows a text is nothing, or starts with a glyph of [stops]. *)
Definition glyph_follows (stops : list jsstring) (rest : jsstring) : Prop :=
  rest = [] \/ exists g r, In g stops /\ rest = g ++ r.

(** [cap] is the text up to the next glyph of [stops] or to the end: no
    glyph of [stops] occurs in it, and one follows it or nothing does. *)
Definition up_to_next (stops : list jsstring) (cap rest : jsstring) : Prop :=
  (forall g, In g stops -> ~ occurs g cap) /\ glyph_follows stops rest.

(** The sentence of the specification on the recurrence: the field is the
    text between the first recurrence glyph and the next other marker glyph
    (or the end of the content), trimmed, and it is absent when that is
    empty. *)
Definition recurrence_up_to_marker : Prop :=
  forall (line : jsstring) (n : nat) (task : ParsedTask)
         (content pre cap rest : jsstring),
    parseTaskLine line n = Some task ->
    taskContent line = Some content ->
    content = pre ++ RECURRENCE_GLYPH ++ cap ++ rest ->
    first_at RECURRENCE_GLYPH pre content ->
    up_to_next OTHER_GLYPHS cap rest ->
    recurrence task = match trim cap with [] => None | r => Some r end.

End Lines.
Import Lines.

(** ** Sample data *)

Module Samples.

(** A task to evaluate on: the line [- [ ] Buy milk]. *)
Definition sample_task : ParsedTask :=
  {| line := js "- [ ] Buy milk"; lineNumber := 0; isDone := false;
     description := js "Buy milk"; dueDate := None; scheduledDate := None;
     startDate := None; createdDate := None; doneDate := None;
     recurrence := None; priority := None; status := js " " |}.

Definition sample_condition : Condition :=
  {| cond_id := js "c1"; property := js "status";
     operator := js "matches"; value := js "x" |}.

(** The scenario of the specification: priority over an unmarked task, a
    high one and a low one. *)
Definition priority_mapping : DirectMapping :=
  {| dm_id := js "d1"; dm_taskProperty := js "priority";
     dm_frontmatterKey := js "prio"; dm_overwriteExisting := true;
     dm_enabled := true |}.

Definition priority_tasks : list ParsedTask :=
  Eval vm_compute in parseTasks (js "- [ ] plain
- [ ] urgent ⏫
- [ ] later 🔽").

(** Low stands left of high. *)
Definition low_then_high_line : jsstring := js "- [ ] call 🔽 back ⏫".
Definition low_then_high_content : jsstring :=
  Eval vm_compute in
    match taskContent low_then_high_line with Some c => c | None => [] end.
Definition low_then_high_task : ParsedTask :=
  Eval vm_compute in
    match parseTaskLine low_then_high_line 0 with
    | Some t => t
    | None => sample_task
    end.

(** A recurrence followed by a due date. *)
Definition weekly_line : jsstring := js "- [ ] 🔁 every week 📅 2025-05-01".
Definition weekly_content : jsstring :=
  Eval vm_compute in
    match taskContent weekly_line with Some c => c | None => [] end.
Definition weekly_task : ParsedTask :=
  Eval vm_compute in
    match parseTaskLine weekly_line 0 with
    | Some t => t
    | None => sample_task
    end.

(** A recurrence followed by an id, then a due date. *)
Definition id_line : jsstring :=
  js "- [ ] 🔁 every week 🆔 abc123 📅 2025-05-01".
Definition id_content : jsstring :=
  Eval vm_compute in
    match taskContent id_line with Some c => c | None => [] end.
Definition id_task : ParsedTask :=
  Eval vm_compute in
    match parseTaskLine id_line 0 with
    | Some t => t
    | None => sample_task
    end.

(** A task whose high-priority glyph is written twice. *)
Definition repeated_glyph_line : jsstring := js "- [ ] Pay rent ⏫ today ⏫".

(** A recurrence, then a done date, then more task text. *)
Definition text_after_date_line : jsstring :=
  js "- [ ] 🔁 every week ✅ 2025-01-01 call mom".

(** Two due dates on one line, and the same line with the two swapped. *)
Definition two_due_dates : list marker :=
  [{| glyph := DUE_GLYPH; text := js " 2025-01-01 " |};
   {| glyph := DUE_GLYPH; text := js " 2025-02-02" |}].
Definition two_due_dates_swapped : list marker :=
  [{| glyph := DUE_GLYPH; text := js " 2025-02-02" |};
   {| glyph := DUE_GLYPH; text := js " 2025-01-01 " |}].

(** The high-priority glyph written twice among a recurrence and a due
    date, and a rearrangement. *)
Definition repeated_priority : list marker :=
  [{| glyph := HIGH_GLYPH; text := js " soon " |};
   {| glyph := RECURRENCE_GLYPH; text := js " every week 🎉 party " |};
   {| glyph := DUE_GLYPH; text := js " 2025-05-01 " |};
   {| glyph := HIGH_GLYPH; text := [] |}].
Definition repeated_priority_rearranged : list marker :=
  [{| glyph := DUE_GLYPH; text := js " 2025-05-01 " |};
   {| glyph := HIGH_GLYPH; text := [] |};
   {| glyph := HIGH_GLYPH; text := js " soon " |};
   {| glyph := RECURRENCE_GLYPH; text := js " every week 🎉 party " |}].

(** The round-trip document of the specification and its rule. *)
Definition round_trip_document : jsstring :=
  js "- [ ] Draft ⏳ 2025-04-10
- [x] Research ⏳ 2025-03-28 ✅ 2025-03-28
- [-] Old ⏳ 2025-03-01".

Definition round_trip_settings : TaskPropertyPluginSettings :=
  {| directMappings := [];
     operationMappings :=
       [{| om_id := js "o1"; om_taskProperty := js "scheduled_date";
           om_operation := js "min"; om_frontmatterKey := js "next";
           om_overwriteExisting := true; om_enabled := true;
           om_conditions :=
             Some [{| cond_id := js "c1"; property := js "status";
                      operator := js "not_equals"; value := js "x" |};
                   {| cond_id := js "c2"; property := js "status";
                      operator := js "not_equals"; value := js "-" |}];
           om_conditionLogic := Some AND |}] |}.

(** Eight tasks, three of them done. *)
Definition eight_tasks : list ParsedTask :=
  Eval vm_compute in parseTasks (js "- [x] a
- [ ] b
- [x] c
- [ ] d
* [X] e
- [/] f
- [-] g
- [ ] h").

End Samples.
Import Samples.

(** ** [processor.ts] and the settings tab: excluded folders *)

Module Folders.

(** [s.endsWith(p)] *)
Definition endsWith (s p : jsstring) : bool := startsWith (rev s) (rev p).

(** [folder.endsWith("/") ? folder : folder + "/"] *)
Definition normalizedFolder (folder : jsstring) : jsstring :=
  if endsWith folder (js "/") then folder else folder ++ js "/".

(** [isExcluded], on the path of the file. *)
Fixpoint isExcluded (excludedFolders : list jsstring) (filePath : jsstring)
  : bool :=
  match excludedFolders with
  | [] => false
  | folder :: rest =>
      if startsWith filePath (normalizedFolder folder) then true
      else isExcluded rest filePath
  end.

(** The text area of the settings tab shows the folders joined by line
    feeds. *)
Definition showExcludedFolders (excludedFolders : list jsstring) : jsstring :=
  join [0x0A%N] excludedFolders.

(** Its [onChange] handler: split at line feeds, trim each line, drop the
    empty ones. *)
Definition parseExcludedFolders (value : jsstring) : list jsstring :=
  filter (fun f => 0 <? length f) (map trim (split_lines [] value)).

End Folders.
Import Folders.

(** ** [frontmatterWriter.ts] *)

Module FrontmatterWriter.

Section Host.

(** JavaScript numbers belong to the host: their type, [===] on them, and the
    built-ins [parseInt(s, 10)] and [parseFloat(s)]. *)
Variable number : Type.
Variable number_eq : number -> number -> bool.
Variable parseInt10 : jsstring -> number.
Variable parseFloat : jsstring -> number.

(** What a frontmatter key may hold: nothing, [null], a string, a number, or
    any other value (a boolean, a list, an object), told apart by
    identity. *)
Inductive fm_value : Type :=
| Undefined
| Null
| Str (s : jsstring)
| Num (x : number)
| Other (id : nat).

(** The value of an update that is not [null]: a string or a number. *)
Inductive primitive : Type :=
| Text (s : jsstring)
| Number (x : number).

Record FrontmatterUpdate : Type := {
  fu_key : jsstring;
  fu_value : option primitive;
  fu_overwriteExisting : bool
}.

(** [a === b] *)
Definition strict_eq (a b : fm_value) : bool :=
  match a, b with
  | Undefined, Undefined => true
  | Null, Null => true
  | Str s, Str t => str_eqb s t
  | Num x, Num y => number_eq x y
  | Other i, Other j => Nat.eqb i j
  | _, _ => false
  end.

(** The test of the pattern [^\d+$]. *)
Definition is_integer_text (s : jsstring) : bool :=
  match s with
  | [] => false
  | _ :: _ => forallb is_digit s
  end.

(** The test of the pattern [^\d+(\.\d+)?$]. *)
Definition is_decimal_text (s : jsstring) : bool :=
  match takeWhile is_digit s, dropWhile is_digit s with
  | [], _ => false
  | _ :: _, [] => true
  | _ :: _, x :: fraction =>
      (x =? 0x2E)%N
      && match fraction with
         | [] => false
         | _ :: _ => forallb is_digit fraction
         end
  end.

Definition coerceValue (value : primitive) : fm_value :=
  match value with
  | Number x => Num x
  | Text s =>
      if is_integer_text s then Num (parseInt10 s)
      else if is_decimal_text s then Num (parseFloat s)
      else Str s
  end.

(** The frontmatter object, by what reading a key gives (own or inherited
    property). *)
Definition frontmatter : Type := jsstring -> fm_value.

(** [frontmatter[key] = v] for a string or a number [v]: the key becomes an
    own property, except [__proto__], whose setter ignores such values. *)
Definition assign (fm : frontmatter) (key : jsstring) (v : fm_value)
  : frontmatter :=
  fun k =>
    if str_eqb key (js "__proto__") then fm k
    else if str_eqb k key then v else fm k.

(** [existingValue !== undefined && existingValue !== null
    && existingValue !== (the empty string)] *)
Definition has_content (v : fm_value) : bool :=
  match v with
  | Undefined | Null | Str [] => false
  | _ => true
  end.

(** One turn of the loop of [updateFrontmatterProperties], on the object and
    the [updated] flag. *)
Definition apply_update (state : frontmatter * bool) (update : FrontmatterUpdate)
  : frontmatter * bool :=
  let (fm, updated) := state in
  match fu_value update with
  | None => (fm, updated)
  | Some value =>
      let existingValue := fm (fu_key update) in
      if negb (fu_overwriteExisting update) && has_content existingValue
      then (fm, updated)
      else
        let newValue := coerceValue value in
        if negb (strict_eq (fm (fu_key update)) newValue)
        then (assign fm (fu_key update) newValue, true)
        else (fm, updated)
  end.

(** The object the callback leaves and the flag the function returns. *)
Definition updateFrontmatterProperties (fm : frontmatter)
           (updates : list FrontmatterUpdate) : frontmatter * bool :=
  fold_left apply_update updates (fm, false).

Definition updateFrontmatterProperty (fm : frontmatter) (key : jsstring)
           (value : option primitive) (overwriteExisting : bool)
  : frontmatter * bool :=
  match value with
  | None => (fm, false)
  | Some v =>
      let existingValue := fm key in
      if negb overwriteExisting && has_content existingValue
      then (fm, false)
      else
        let newValue := coerceValue v in
        if negb (strict_eq (fm key) newValue)
        then (assign fm key newValue, true)
        else (fm, false)
  end.

(** The updates [processFile] collects, as the writer receives them. *)
Definition of_update (u : Update) : FrontmatterUpdate :=
  {| fu_key := key u;
     fu_value := Some (Text (upd_value u));
     fu_overwriteExisting := overwriteExisting u |}.

End Host.

Arguments Undefined {number}.
Arguments Null {number}.
Arguments Str {number} s.
Arguments Num {number} x.
Arguments Other {number} id.
Arguments Text {number} s.
Arguments Number {number} x.
Arguments Build_FrontmatterUpdate {number} fu_key fu_value fu_overwriteExisting.
Arguments fu_key {number} f.
Arguments fu_value {number} f.
Arguments fu_overwriteExisting {number} f.
Arguments strict_eq {number} number_eq a b.
Arguments coerceValue {number} parseInt10 parseFloat value.
Arguments assign {number} fm key v _.
Arguments has_content {number} v.
Arguments apply_update {number} number_eq parseInt10 parseFloat state update.
Arguments updateFrontmatterProperties {number} number_eq parseInt10 parseFloat
  fm updates.
Arguments updateFrontmatterProperty {number} number_eq parseInt10 parseFloat
  fm key value overwriteExisting.
Arguments of_update {number} u.

End FrontmatterWriter.
Import FrontmatterWriter.

(** ** Shapes the further properties speak of *)

Module Shapes.

(** [l] with some elements left out, the others in their order. *)
Inductive subseq {A : Type} : list A -> list A -> Prop :=
| subseq_nil : subseq [] []
| subseq_keep : forall x l l', subseq l l' -> subseq (x :: l) (x :: l')
| subseq_drop : forall x l l', subseq l l' -> subseq l (x :: l').

(** Every whitespace code unit is a blank, and what follows it, if anything
    does, is not whitespace. *)
Fixpoint collapsed (s : jsstring) : bool :=
  match s with
  | [] => true
  | x :: s' =>
      (if is_space x
       then (x =? 0x20)%N
            && match s' with [] => true | y :: _ => negb (is_space y) end
       else true)
      && collapsed s'
  end.

(** Four digits, a dash, two digits, a dash, two digits. *)
Definition date_shaped (d : jsstring) : Prop :=
  length d = 10 /\ match_classes DATE_CLASSES d = true.

(** Ascending by code units. *)
Definition ascending (l : list jsstring) : Prop :=
  StronglySorted (fun a b => str_leb a b = true) l.

(** The day a date names, as the number yyyymmdd. *)
Definition digit_value (c : code_unit) : N := (c - 0x30)%N.

Definition date_number (d : jsstring) : N :=
  match d with
  | [y1; y2; y3; y4; _; m1; m2; _; d1; d2] =>
      (digit_value y1 * 10000000 + digit_value y2 * 1000000
       + digit_value y3 * 100000 + digit_value y4 * 10000
       + digit_value m1 * 1000 + digit_value m2 * 100
       + digit_value d1 * 10 + digit_value d2)%N
  | _ => 0%N
  end.

End Shapes.
Import Shapes.

(** ** Further sample data *)

Module Cases.

(** A task line of a file with Windows line ends: an indented asterisk
    bullet, a done task, and what follows its checkbox. *)
Definition shipping_rest : jsstring :=
  Eval vm_compute in js " Ship it ⏫ 📅 2025-06-01 " ++ [0x0D%N].
Definition shipping_line : jsstring :=
  Eval vm_compute in js "  * [X]" ++ shipping_rest.
Definition shipping_content : jsstring :=
  Eval vm_compute in
    match taskContent shipping_line with Some c => c | None => [] end.
Definition shipping_task : ParsedTask :=
  Eval vm_compute in
    match parseTaskLine shipping_line 3 with
    | Some t => t
    | None => sample_task
    end.

(** A recurrence with blanks around it, then a due date. *)
Definition watering_line : jsstring :=
  js "- [ ] Water plants 🔁   every week   📅 2025-06-01".
Definition watering_content : jsstring :=
  Eval vm_compute in
    match taskContent watering_line with Some c => c | None => [] end.
Definition watering_task : ParsedTask :=
  Eval vm_compute in
    match parseTaskLine watering_line 0 with
    | Some t => t
    | None => sample_task
    end.

(** A content without markers, with runs of whitespace. *)
Definition shopping_content : jsstring :=
  Eval vm_compute in js "Buy   milk" ++ [0x09%N] ++ js " and eggs".

(** Four tasks, three of them with a due date. *)
Definition dated_tasks : list ParsedTask :=
  Eval vm_compute in parseTasks (js "- [ ] a 📅 2025-03-02
- [x] b 📅 2025-01-15
- [ ] c
- [ ] d 📅 2025-02-10").

(** A note without tasks, and settings that count. *)
Definition plain_note : jsstring := js "Minutes
- no checkbox here
[ ] nor here".

Definition counting_settings : TaskPropertyPluginSettings :=
  {| directMappings :=
       [{| dm_id := js "d1"; dm_taskProperty := js "due_date";
           dm_frontmatterKey := js "due"; dm_overwriteExisting := false;
           dm_enabled := true |}];
     operationMappings :=
       [{| om_id := js "o1"; om_taskProperty := js "status";
           om_operation := js "count_all"; om_frontmatterKey := js "tasks";
           om_overwriteExisting := true; om_enabled := true;
           om_conditions := None; om_conditionLogic := None |}] |}.

(** A host for the examples: numbers are integers, and both parsers read
    the decimal digits of a string. *)
Definition sample_parse (s : jsstring) : Z :=
  match decimal_value s with Some n => Z.of_nat n | None => 0%Z end.

(** A frontmatter that holds a status and nothing else. *)
Definition sample_frontmatter : frontmatter Z :=
  fun k => if str_eqb k (js "status") then Str (js "active") else Undefined.

Definition sample_updates : list (FrontmatterUpdate Z) :=
  [{| fu_key := js "status"; fu_value := Some (Text (js "done"));
      fu_overwriteExisting := false |};
   {| fu_key := js "tasks"; fu_value := Some (Text (js "12"));
      fu_overwriteExisting := true |}].

End Cases.
Import Cases.

(* ================================================================== *)
(** * Part II: properties *)
(* ================================================================== *)

(** ** Strings *)

Lemma str_eqb_eq (a b : jsstring) : str_eqb a b = true <-> a = b.
Proof.
  revert b; induction a as [|x a IH]; intros [|y b]; simpl;
    try (split; [discriminate | discriminate]); try tauto.
  rewrite andb_true_iff, N.eqb_eq, IH.
  split; [intros [-> ->]; reflexivity | intros H; inversion H; auto].
Qed.

Lemma str_eqb_refl (a : jsstring) : str_eqb a a = true.
Proof. apply str_eqb_eq; reflexivity. Qed.

Lemma str_eqb_neq (a b : jsstring) : str_eqb a b = false <-> a <> b.
Proof.
  rewrite <- str_eqb_eq. destruct (str_eqb a b); split; congruence.
Qed.

Lemma not_in_cons (a b : jsstring) (l : list jsstring) :
  ~ In a (b :: l) -> str_eqb a b = false /\ ~ In a l.
Proof.
  intros H; split.
  - apply str_eqb_neq. intros ->. apply H. left; reflexivity.
  - intros Hin. apply H. right; exact Hin.
Qed.

(** Names compared with names: decided by evaluation. *)
Ltac eval_names :=
  repeat match goal with
    | |- context [str_eqb (js ?a) (js ?b)] =>
        let v := eval vm_compute in (str_eqb (js a) (js b)) in
        change (str_eqb (js a) (js b)) with v
    end.

(** A name outside a vocabulary differs from each of its members. *)
Ltac outside H :=
  repeat (let E := fresh "E" in
          apply not_in_cons in H; destruct H as [E H]; rewrite ?E).

(** ** The numeric strings of the counting operations *)

Lemma decimal_value_String_of_nat (n : nat) :
  decimal_value (String_of_nat n) = Some n.
Proof.
  unfold decimal_value, String_of_nat.
  rewrite map_map.
  rewrite (map_ext _ (fun a => a)) by (intros a; apply ascii_N_embedding).
  rewrite map_id, string_of_list_ascii_of_string, NilEmpty.usu.
  simpl. now rewrite DecimalNat.Unsigned.of_to.
Qed.

Lemma filter_partition_length (A : Type) (f : A -> bool) (l : list A) :
  length (filter f l) + length (filter (fun x => negb (f x)) l) = length l.
Proof.
  induction l as [|x l IH]; simpl; [reflexivity|].
  destruct (f x); simpl; lia.
Qed.

(** C9: filtering with an empty condition sequence, under either
    combination mode, returns the task sequence unchanged. *)
Theorem filter_no_conditions_identity :
  forall (tasks : list ParsedTask) (logic : ConditionLogic),
    filterTasksByConditions tasks [] logic = tasks.
Proof. intros tasks logic. reflexivity. Qed.

(** C1: on an empty task list [executeOperation] returns no result for every
    operation, the four counting operations included, so a file without tasks
    gets no update from an enabled [count_all] mapping although [processFile]
    goes on for it. *)
Theorem empty_input_is_absent_even_for_counts :
  (forall p op, executeOperation [] p op = None)
  /\ (forall key ow,
        let m := {| om_id := js "m1"; om_taskProperty := js "status";
                    om_operation := js "count_all"; om_frontmatterKey := key;
                    om_overwriteExisting := ow; om_enabled := true;
                    om_conditions := Some []; om_conditionLogic := Some AND |} in
        let settings := {| directMappings := []; operationMappings := [m] |} in
        hasCountOps settings = true
        /\ processFile settings (js "Notes without any task") = []).
Proof.
  split; [reflexivity|].
  intros key ow m settings. split; vm_compute; reflexivity.
Qed.

(** C5: [not_equals] holds exactly when the value is absent or differs from
    the literal; [equals] holds exactly when the value is present and is the
    literal. *)
Theorem not_equals_and_equals_semantics :
  forall (task : ParsedTask) (cid p literal : jsstring),
    (evaluateCondition task {| cond_id := cid; property := p;
                               operator := js "not_equals";
                               value := literal |} = true
     <-> getTaskPropertyValue task p = None
         \/ exists v, getTaskPropertyValue task p = Some v /\ v <> literal)
    /\ (evaluateCondition task {| cond_id := cid; property := p;
                                  operator := js "equals";
                                  value := literal |} = true
        <-> getTaskPropertyValue task p = Some literal).
Proof.
  intros task cid p literal.
  unfold evaluateCondition; cbn [operator property value]. eval_names. cbv iota.
  destruct (getTaskPropertyValue task p) as [v|]; split.
  - rewrite negb_true_iff, str_eqb_neq. split.
    + intros H; right; exists v; auto.
    + intros [H|(w & H & Hne)]; [discriminate | congruence].
  - rewrite str_eqb_eq. split; congruence.
  - split; [auto | reflexivity].
  - split; discriminate.
Qed.

(** ** Names outside the vocabularies *)

(** C2, as stated, fails: a condition whose operator is unknown evaluates to
    [true], the task passes the filter and the operation mapping produces a
    result. *)
Lemma unknown_operator_is_not_absent : ~ misconfiguration_is_absent.
Proof.
  intros (_ & _ & H).
  specialize (H [sample_task] sample_condition AND (js "status")
                (js "count_all")).
  assert (Hop : ~ In (operator sample_condition) CONDITION_OPERATORS).
  { vm_compute. intros Hin.
    repeat (destruct Hin as [Hin|Hin]; [discriminate Hin|]). exact Hin. }
  specialize (H Hop). vm_compute in H. discriminate H.
Qed.

(** C2, amended: an unknown property name makes the accessor return absent,
    an unknown operation name makes the aggregation return absent, and an
    unknown operator makes the condition evaluate to [true] on every task;
    all three are total functions, nothing is raised. *)
Theorem unknown_names_outcome :
  forall (task : ParsedTask) (tasks : list ParsedTask) (p : jsstring)
         (c : Condition),
    (~ In p TASK_PROPERTIES -> getTaskPropertyValue task p = None)
    /\ (forall op, ~ In op OPERATIONS -> executeOperation tasks p op = None)
    /\ (~ In (operator c) CONDITION_OPERATORS ->
        evaluateCondition task c = true).
Proof.
  intros task tasks p c. split; [|split].
  - intros H. unfold getTaskPropertyValue, TASK_PROPERTIES in *.
    outside H. reflexivity.
  - intros op H. unfold executeOperation, OPERATIONS in *.
    destruct tasks; [reflexivity|]. outside H. reflexivity.
  - intros H. unfold evaluateCondition, CONDITION_OPERATORS in *.
    outside H. reflexivity.
Qed.

Lemma unknown_names_outcome_witness :
  getTaskPropertyValue sample_task (js "assignee") = None
  /\ executeOperation [sample_task] (js "assignee") (js "median") = None
  /\ evaluateCondition sample_task sample_condition = true.
Proof.
  destruct (unknown_names_outcome sample_task [sample_task] (js "assignee")
              sample_condition) as (H1 & H2 & H3).
  split; [|split].
  - apply H1. vm_compute. intros Hin.
    repeat (destruct Hin as [Hin|Hin]; [discriminate Hin|]). exact Hin.
  - apply H2. vm_compute. intros Hin.
    repeat (destruct Hin as [Hin|Hin]; [discriminate Hin|]). exact Hin.
  - apply H3. vm_compute. intros Hin.
    repeat (destruct Hin as [Hin|Hin]; [discriminate Hin|]). exact Hin.
Defined.

(** ** Direct mappings *)

Lemma direct_loop_at_most_one (m : DirectMapping) (tasks : list ParsedTask) :
  length (direct_loop m tasks) <= 1.
Proof.
  induction tasks as [|t tasks IH]; simpl; [lia|].
  destruct (getTaskPropertyValue t (dm_taskProperty m)) as [[|x v]|];
    simpl; lia.
Qed.

Lemma direct_loop_skip (m : DirectMapping) (pre rest : list ParsedTask) :
  Forall (no_value (dm_taskProperty m)) pre ->
  direct_loop m (pre ++ rest) = direct_loop m rest.
Proof.
  induction 1 as [|t pre [Ht|Ht] _ IH]; simpl; [reflexivity| |];
    rewrite Ht; exact IH.
Qed.

(** C6: a direct mapping yields at most one update; it carries the value of
    the first task, in order, whose source property is neither absent nor
    empty, and there is no update when no task has such a value. *)
Theorem direct_mapping_first_match :
  forall (m : DirectMapping) (tasks : list ParsedTask),
    length (processDirectMapping m tasks) <= 1
    /\ (forall pre t post v,
           tasks = pre ++ t :: post ->
           Forall (no_value (dm_taskProperty m)) pre ->
           getTaskPropertyValue t (dm_taskProperty m) = Some v ->
           v <> [] ->
           processDirectMapping m tasks
           = [{| key := dm_frontmatterKey m; upd_value := v;
                 overwriteExisting := dm_overwriteExisting m |}])
    /\ (Forall (no_value (dm_taskProperty m)) tasks ->
        processDirectMapping m tasks = []).
Proof.
  intros m tasks. unfold processDirectMapping. split; [|split].
  - apply direct_loop_at_most_one.
  - intros pre t post v -> Hpre Ht Hv.
    rewrite direct_loop_skip by exact Hpre. simpl. rewrite Ht.
    destruct v; [contradiction Hv; reflexivity | reflexivity].
  - intros Hall. rewrite <- (app_nil_r tasks).
    rewrite direct_loop_skip by exact Hall. reflexivity.
Qed.

Lemma direct_mapping_first_match_witness :
  length priority_tasks = 3
  /\ processDirectMapping priority_mapping priority_tasks
     = [{| key := js "prio"; upd_value := js "high";
           overwriteExisting := true |}]
  /\ processDirectMapping priority_mapping (firstn 1 priority_tasks) = [].
Proof.
  split; [reflexivity|]. split.
  - destruct (direct_mapping_first_match priority_mapping priority_tasks)
      as (_ & H & _).
    apply (H (firstn 1 priority_tasks) (nth 1 priority_tasks sample_task)
             (skipn 2 priority_tasks) (js "high")).
    + reflexivity.
    + repeat constructor.
    + reflexivity.
    + discriminate.
  - destruct (direct_mapping_first_match priority_mapping
                (firstn 1 priority_tasks)) as (_ & _ & H).
    apply H. repeat constructor.
Defined.

(** ** Counting *)

Lemma filter_partition_perm (A : Type) (f : A -> bool) (l : list A) :
  Permutation (filter f l ++ filter (fun x => negb (f x)) l) l.
Proof.
  induction l as [|x l IH]; simpl; [constructor|].
  destruct (f x); simpl.
  - now constructor.
  - apply Permutation_sym, Permutation_cons_app, Permutation_sym, IH.
Qed.

Lemma filter_perm (A : Type) (f : A -> bool) (l l' : list A) :
  Permutation l l' -> Permutation (filter f l) (filter f l').
Proof.
  induction 1 as [|x l l' _ IH|x y l|l l' l'' _ IH1 _ IH2]; simpl.
  - constructor.
  - destruct (f x); [now constructor | exact IH].
  - destruct (f x), (f y); try apply Permutation_refl. apply perm_swap.
  - exact (perm_trans IH1 IH2).
Qed.

(** C10: on a non-empty task list [count_done] returns the decimal numeral of
    the number of tasks that are done, [count_open] that of the number of
    tasks that are not, and [count_all] that of the number of tasks.  The
    done tasks and the open tasks together are the tasks, each of them once,
    so the first two numbers add up to the third, and so do the results read
    as integers. *)
Theorem count_done_plus_open_is_all :
  forall (tasks : list ParsedTask) (p : jsstring),
    tasks <> [] ->
    let done := filter isDone tasks in
    let open := filter (fun t => negb (isDone t)) tasks in
    exists d o a : jsstring,
      executeOperation tasks p (js "count_done") = Some d
      /\ executeOperation tasks p (js "count_open") = Some o
      /\ executeOperation tasks p (js "count_all") = Some a
      /\ d = String_of_nat (length done)
      /\ o = String_of_nat (length open)
      /\ a = String_of_nat (length tasks)
      /\ decimal_value d = Some (length done)
      /\ decimal_value o = Some (length open)
      /\ decimal_value a = Some (length tasks)
      /\ Permutation (done ++ open) tasks
      /\ length done + length open = length tasks.
Proof.
  intros tasks p Hne done open.
  destruct tasks as [|t tasks]; [contradiction Hne; reflexivity|].
  unfold executeOperation. eval_names. cbv iota.
  do 3 eexists. do 6 (split; [reflexivity|]).
  rewrite !decimal_value_String_of_nat. do 3 (split; [reflexivity|]).
  split.
  - apply filter_partition_perm.
  - apply filter_partition_length.
Qed.

Lemma count_done_plus_open_is_all_witness :
  exists d o a : jsstring,
    executeOperation eight_tasks (js "status") (js "count_done") = Some d
    /\ executeOperation eight_tasks (js "status") (js "count_open") = Some o
    /\ executeOperation eight_tasks (js "status") (js "count_all") = Some a
    /\ d = String_of_nat (length (filter isDone eight_tasks))
    /\ o = String_of_nat
             (length (filter (fun t => negb (isDone t)) eight_tasks))
    /\ a = String_of_nat (length eight_tasks)
    /\ decimal_value d = Some (length (filter isDone eight_tasks))
    /\ decimal_value o
       = Some (length (filter (fun t => negb (isDone t)) eight_tasks))
    /\ decimal_value a = Some (length eight_tasks)
    /\ Permutation
         (filter isDone eight_tasks
            ++ filter (fun t => negb (isDone t)) eight_tasks)
         eight_tasks
    /\ length (filter isDone eight_tasks)
       + length (filter (fun t => negb (isDone t)) eight_tasks)
       = length eight_tasks.
Proof.
  apply (count_done_plus_open_is_all eight_tasks (js "status")).
  discriminate.
Defined.

(** ** The matcher *)

Section Matcher.

Variable c : cls.

Lemma take_drop_while (s : jsstring) :
  takeWhile c s ++ dropWhile c s = s.
Proof.
  induction s as [|x s IH]; simpl; [reflexivity|].
  destruct (c x); simpl; [now rewrite IH | reflexivity].
Qed.

Lemma takeWhile_all (s : jsstring) : forallb c (takeWhile c s) = true.
Proof.
  induction s as [|x s IH]; simpl; [reflexivity|].
  destruct (c x) eqn:E; simpl; [now rewrite E | reflexivity].
Qed.

Lemma dropWhile_head (s : jsstring) :
  match dropWhile c s with [] => True | x :: _ => c x = false end.
Proof.
  induction s as [|x s IH]; simpl; [exact I|].
  destruct (c x) eqn:E; [exact IH | exact E].
Qed.

Lemma takeWhile_app_all (w s : jsstring) :
  forallb c w = true -> takeWhile c (w ++ s) = w ++ takeWhile c s.
Proof.
  induction w as [|x w IH]; simpl; [reflexivity|].
  intros H; apply andb_true_iff in H as [-> H]. now rewrite IH.
Qed.

Lemma dropWhile_app_all (w s : jsstring) :
  forallb c w = true -> dropWhile c (w ++ s) = dropWhile c s.
Proof.
  induction w as [|x w IH]; simpl; [reflexivity|].
  intros H; apply andb_true_iff in H as [-> H]. now rewrite IH.
Qed.

Lemma takeWhile_stop (x : code_unit) (s : jsstring) :
  c x = false -> takeWhile c (x :: s) = [].
Proof. intros H; simpl; now rewrite H. Qed.

Lemma dropWhile_stop (x : code_unit) (s : jsstring) :
  c x = false -> dropWhile c (x :: s) = x :: s.
Proof. intros H; simpl; now rewrite H. Qed.

Variable k : jsstring -> option matched.

(** The greedy repetition takes the longest run whenever the rest of the
    pattern matches after it. *)
Lemma star_greedy_longest (s : jsstring) (r : matched) :
  k (dropWhile c s) = Some r ->
  star_greedy c k s = Some (takeWhile c s, r).
Proof.
  induction s as [|x s IH]; simpl; intros H.
  - now rewrite H.
  - destruct (c x).
    + now rewrite (IH H).
    + now rewrite H.
Qed.

(** When the rest of the pattern cannot start with a code unit of the class,
    giving back never helps. *)
Lemma star_greedy_disjoint (s : jsstring) :
  (forall x s', c x = true -> k (x :: s') = None) ->
  star_greedy c k s
  = option_map (fun r => (takeWhile c s, r)) (k (dropWhile c s)).
Proof.
  intros Hk. induction s as [|x s IH]; simpl.
  - destruct (k []); reflexivity.
  - destruct (c x) eqn:E.
    + rewrite IH. destruct (k (dropWhile c s)); simpl; [reflexivity|].
      now rewrite (Hk x s E).
    + destruct (k (x :: s)); reflexivity.
Qed.

Lemma star_greedy_inv (s w : jsstring) (r : matched) :
  star_greedy c k s = Some (w, r) ->
  forallb c w = true /\ exists s', s = w ++ s' /\ k s' = Some r.
Proof.
  revert w; induction s as [|x s IH]; simpl; intros w H.
  - destruct (k []) eqn:E; simpl in H; inversion H; subst.
    split; [reflexivity|]. exists []; auto.
  - assert (Hstop : option_map (fun r0 : matched => ([], r0)) (k (x :: s))
                    = Some (w, r) ->
                    forallb c w = true
                    /\ exists s', x :: s = w ++ s' /\ k s' = Some r).
    { destruct (k (x :: s)) eqn:E; simpl; intros H'; inversion H'; subst.
      split; [reflexivity|]. exists (x :: s); auto. }
    destruct (c x) eqn:E; [|exact (Hstop H)].
    destruct (star_greedy c k s) as [[w' r']|] eqn:Es; [|exact (Hstop H)].
    inversion H; subst. destruct (IH w' eq_refl) as (Hw & s' & -> & Hk).
    split; [simpl; now rewrite E, Hw|]. exists s'; auto.
Qed.

End Matcher.

(** What the atoms consumed, put together, is the matched text. *)
Lemma match_seq_concat (re : list atom) :
  forall s chs rest,
    match_seq re s = Some (chs, rest) -> s = concat chs ++ rest.
Proof.
  induction re as [|[c|c] re IH]; simpl; intros s chs rest H.
  - inversion H; reflexivity.
  - destruct s as [|x s]; [discriminate|].
    destruct (c x); [|discriminate].
    destruct (match_seq re s) as [[chs' rest']|] eqn:E; simpl in H;
      inversion H; subst.
    simpl. now rewrite <- (IH _ _ _ E).
  - destruct (star_greedy c (match_seq re) s) as [[w [chs' rest']]|] eqn:E;
      simpl in H; inversion H; subst.
    apply star_greedy_inv in E as (_ & s' & -> & Hk).
    simpl. rewrite <- app_assoc. now rewrite <- (IH _ _ _ Hk).
Qed.

(** A pattern that starts with a literal. *)
Lemma match_seq_lit_app (g : jsstring) (re : list atom) (t : jsstring) :
  match_seq (lit g ++ re) (g ++ t)
  = option_map (fun '(chs, rest) => (map (fun x => [x]) g ++ chs, rest))
               (match_seq re t).
Proof.
  induction g as [|x g IH]; simpl.
  - destruct (match_seq re t) as [[chs rest]|]; reflexivity.
  - unfold only at 1. rewrite N.eqb_refl, IH.
    destruct (match_seq re t) as [[chs rest]|]; reflexivity.
Qed.

Lemma match_seq_lit_app_inv (g : jsstring) (re : list atom) :
  forall s r, match_seq (lit g ++ re) s = Some r -> exists t, s = g ++ t.
Proof.
  induction g as [|x g IH]; simpl; intros s r H.
  - exists s; reflexivity.
  - destruct s as [|y s]; [discriminate|].
    unfold only at 1 in H. destruct (N.eqb_spec x y) as [->|]; [|discriminate].
    destruct (match_seq (lit g ++ re) s) as [r'|] eqn:E; [|discriminate].
    destruct (IH _ _ E) as (t & ->). exists t; reflexivity.
Qed.

(** The search returns the leftmost position at which the pattern matches. *)
Lemma search_inv (re : list atom) :
  forall s pre chs rest,
    search re s = Some (pre, chs, rest) ->
    exists m, s = pre ++ m /\ match_seq re m = Some (chs, rest)
              /\ forall p q, s = p ++ q -> length p < length pre ->
                             match_seq re q = None.
Proof.
  induction s as [|x s IH]; simpl; intros pre chs rest H.
  - destruct (match_seq re []) as [[chs' rest']|] eqn:E; [|discriminate].
    inversion H; subst. exists []; repeat split; auto. simpl; lia.
  - destruct (match_seq re (x :: s)) as [[chs' rest']|] eqn:E.
    + inversion H; subst. exists (x :: s); repeat split; auto. simpl; lia.
    + destruct (search re s) as [[[pre' chs'] rest']|] eqn:Es;
        simpl in H; inversion H; subst.
      destruct (IH _ _ _ eq_refl) as (m & -> & Hm & Hleft).
      exists m; repeat split; auto.
      intros [|y p] q Hpq Hlen; simpl in *.
      * now subst q.
      * inversion Hpq; subst. apply (Hleft p q); [assumption | lia].
Qed.

Lemma search_found (re : list atom) (m : jsstring) (r : matched) :
  match_seq re m = Some r ->
  forall pre,
    (forall p q, pre = p ++ q -> q <> [] -> match_seq re (q ++ m) = None) ->
    search re (pre ++ m) = Some (pre, fst r, snd r).
Proof.
  intros Hm. induction pre as [|x pre IH]; intros Hleft.
  - simpl. destruct m; simpl in *; rewrite Hm; destruct r; reflexivity.
  - assert (H0 : match_seq re ((x :: pre) ++ m) = None)
      by (apply (Hleft [] (x :: pre)); [reflexivity | discriminate]).
    simpl in *. rewrite H0.
    rewrite IH; [reflexivity|].
    intros p q -> Hq. apply (Hleft (x :: p) q); [reflexivity | assumption].
Qed.

Lemma search_none (re : list atom) :
  forall s, (forall p q, s = p ++ q -> match_seq re q = None) ->
            search re s = None.
Proof.
  induction s as [|x s IH]; intros H; simpl.
  - now rewrite (H [] [] eq_refl).
  - rewrite (H [] (x :: s) eq_refl), IH; [reflexivity|].
    intros p q ->. apply (H (x :: p) q); reflexivity.
Qed.

(** A text either holds an occurrence of a literal or does not; the first
    occurrence has none before it. *)
Lemma search_lit_spec (g : jsstring) (s : jsstring) :
  match search (lit g) s with
  | Some (pre, _, rest) => s = pre ++ g ++ rest
  | None => ~ occurs g s
  end.
Proof.
  destruct (search (lit g) s) as [[[pre chs] rest]|] eqn:E.
  - apply search_inv in E as (m & -> & Hm & _).
    rewrite <- (app_nil_r (lit g)) in Hm.
    destruct (match_seq_lit_app_inv _ _ _ _ Hm) as (t & ->).
    rewrite match_seq_lit_app in Hm. simpl in Hm. inversion Hm; reflexivity.
  - intros (pre & post & ->).
    assert (Hm : match_seq (lit g) (g ++ post)
                 = Some (map (fun x => [x]) g ++ [], post)).
    { rewrite <- (app_nil_r (lit g)). now rewrite match_seq_lit_app. }
    clear -E Hm. induction pre as [|x pre IH]; simpl in E.
    + destruct (g ++ post); simpl in *; rewrite Hm in E; discriminate.
    + destruct (match_seq (lit g) (x :: pre ++ g ++ post)) as [[? ?]|];
        [discriminate|].
      destruct (search (lit g) (pre ++ g ++ post)) as [[[? ?] ?]|];
        [discriminate | auto].
Qed.

Lemma test_glyph_occurs (g s : jsstring) :
  test (glyph_regex g) s = true <-> occurs g s.
Proof.
  unfold test, find, glyph_regex; cbn [anchored atoms].
  pose proof (search_lit_spec g s) as H.
  destruct (search (lit g) s) as [[[pre chs] rest]|].
  - split; [intros _; exists pre, rest; exact H | reflexivity].
  - split; [discriminate | intros Ho; contradiction].
Qed.

Lemma test_glyph_absent (g s : jsstring) :
  test (glyph_regex g) s = false <-> ~ occurs g s.
Proof.
  rewrite <- test_glyph_occurs. destruct (test (glyph_regex g) s);
    split; congruence.
Qed.

Lemma match_seq_lit_none (g : jsstring) (re : list atom) (s : jsstring) :
  match_seq (lit g) s = None -> match_seq (lit g ++ re) s = None.
Proof.
  intros H. destruct (match_seq (lit g ++ re) s) as [r|] eqn:E;
    [|reflexivity].
  destruct (match_seq_lit_app_inv _ _ _ _ E) as (t & ->).
  rewrite <- (app_nil_r (lit g)), match_seq_lit_app in H. discriminate H.
Qed.

Lemma first_occurrence (g s : jsstring) :
  occurs g s ->
  exists pre t, s = pre ++ g ++ t /\ first_at g pre s.
Proof.
  intros Ho. pose proof (search_lit_spec g s) as H.
  destruct (search (lit g) s) as [[[pre chs] rest]|] eqn:E;
    [|contradiction].
  exists pre, rest. split; [exact H|].
  apply search_inv in E as (m & Hs & _ & Hleft). exact Hleft.
Qed.

Lemma first_at_earliest (g pre s : jsstring) :
  first_at g pre s ->
  forall p q, s = p ++ g ++ q -> length pre <= length p.
Proof.
  intros Hf p q Hs. destruct (Nat.le_gt_cases (length pre) (length p))
    as [Hle|Hlt]; [exact Hle|].
  specialize (Hf p (g ++ q) Hs Hlt).
  rewrite <- (app_nil_r (lit g)), match_seq_lit_app in Hf. discriminate Hf.
Qed.

Lemma search_at_first_occurrence (g : jsstring) (re : list atom)
      (pre t : jsstring) :
  first_at g pre (pre ++ g ++ t) ->
  search (lit g ++ re) (pre ++ g ++ t)
  = option_map (fun '(chs, rest) => (pre, map (fun x => [x]) g ++ chs, rest))
               (match_seq re t)
    \/ (match_seq re t = None).
Proof.
  intros Hf. destruct (match_seq re t) as [[chs rest]|] eqn:E;
    [left | right; reflexivity].
  simpl.
  apply (search_found (lit g ++ re) (g ++ t)
                      (map (fun x => [x]) g ++ chs, rest)).
  - now rewrite match_seq_lit_app, E.
  - intros p q -> Hq. apply match_seq_lit_none.
    apply (Hf p (q ++ g ++ t)).
    + now rewrite <- app_assoc.
    + rewrite length_app. destruct q; [contradiction Hq; reflexivity|].
      simpl; lia.
Qed.

Lemma search_no_occurrence (g : jsstring) (re : list atom) (s : jsstring) :
  ~ occurs g s -> search (lit g ++ re) s = None.
Proof.
  intros Hno. apply search_none. intros p q ->.
  destruct (match_seq (lit g ++ re) q) as [r|] eqn:E; [|reflexivity].
  destruct (match_seq_lit_app_inv _ _ _ _ E) as (t & ->).
  contradiction Hno. exists p, t; reflexivity.
Qed.

(** ** Trimming *)

Lemma dropWhile_keeps_last (p : cls) (a : jsstring) (x : code_unit) :
  p x = false -> dropWhile p (a ++ [x]) <> [].
Proof.
  intros Hx. induction a as [|y a IH]; simpl.
  - rewrite Hx; discriminate.
  - destruct (p y); [exact IH | discriminate].
Qed.

Lemma trim_nonempty (x : code_unit) (r : jsstring) :
  is_space x = false -> trim (x :: r) <> [].
Proof.
  intros Hx. unfold trim, trimStart, trimEnd.
  rewrite dropWhile_stop by exact Hx. simpl rev.
  intros H. apply (f_equal (@rev code_unit)) in H.
  rewrite rev_involutive in H. simpl in H.
  exact (dropWhile_keeps_last is_space (rev r) x Hx H).
Qed.

(** ** What [parseTaskLine] stores *)

Lemma parseTaskLine_fields (line : jsstring) (n : nat) (task : ParsedTask)
      (content : jsstring) :
  parseTaskLine line n = Some task ->
  taskContent line = Some content ->
  dueDate task = extractMatch content DUE_DATE_REGEX
  /\ scheduledDate task = extractMatch content SCHEDULED_DATE_REGEX
  /\ startDate task = extractMatch content START_DATE_REGEX
  /\ createdDate task = extractMatch content CREATED_DATE_REGEX
  /\ doneDate task = extractMatch content DONE_DATE_REGEX
  /\ recurrence task
     = match extractMatch content RECURRENCE_REGEX with
       | Some ((_ :: _) as r) => Some (trim r)
       | _ => None
       end
  /\ priority task = extractPriority content
  /\ description task = extractDescription content.
Proof.
  unfold parseTaskLine, taskContent.
  destruct (exec TASK_CHECKBOX_REGEX line) as [m|]; [|discriminate].
  intros H1 H2. inversion H1; inversion H2; subst; cbn.
  repeat split; reflexivity.
Qed.

(** ** Priority *)

(** C7: the priority is fixed by the check order highest, high, medium, low,
    lowest over the glyphs that occur anywhere in the task content; where
    they stand in the text plays no part. *)
Theorem priority_fixed_check_order :
  forall (line : jsstring) (n : nat) (task : ParsedTask) (content : jsstring),
    parseTaskLine line n = Some task ->
    taskContent line = Some content ->
    (occurs HIGHEST_GLYPH content -> priority task = Some (js "highest"))
    /\ (~ occurs HIGHEST_GLYPH content -> occurs HIGH_GLYPH content ->
        priority task = Some (js "high"))
    /\ (~ occurs HIGHEST_GLYPH content -> ~ occurs HIGH_GLYPH content ->
        occurs MEDIUM_GLYPH content -> priority task = Some (js "medium"))
    /\ (~ occurs HIGHEST_GLYPH content -> ~ occurs HIGH_GLYPH content ->
        ~ occurs MEDIUM_GLYPH content -> occurs LOW_GLYPH content ->
        priority task = Some (js "low"))
    /\ (~ occurs HIGHEST_GLYPH content -> ~ occurs HIGH_GLYPH content ->
        ~ occurs MEDIUM_GLYPH content -> ~ occurs LOW_GLYPH content ->
        occurs LOWEST_GLYPH content -> priority task = Some (js "lowest"))
    /\ (~ occurs HIGHEST_GLYPH content -> ~ occurs HIGH_GLYPH content ->
        ~ occurs MEDIUM_GLYPH content -> ~ occurs LOW_GLYPH content ->
        ~ occurs LOWEST_GLYPH content -> priority task = None).
Proof.
  intros line n task content Hp Hc.
  destruct (parseTaskLine_fields _ _ _ _ Hp Hc) as (_ & _ & _ & _ & _ & _ & -> & _).
  unfold extractPriority, PRIORITY_HIGHEST_REGEX, PRIORITY_HIGH_REGEX,
    PRIORITY_MEDIUM_REGEX, PRIORITY_LOW_REGEX, PRIORITY_LOWEST_REGEX.
  repeat split; intros;
    repeat match goal with
      | H : occurs _ _ |- _ => apply test_glyph_occurs in H; rewrite H
      | H : ~ occurs _ _ |- _ => apply test_glyph_absent in H; rewrite H
      end; reflexivity.
Qed.

Lemma priority_fixed_check_order_witness :
  parseTaskLine low_then_high_line 0 = Some low_then_high_task
  /\ priority low_then_high_task = Some (js "high").
Proof.
  assert (Hp : parseTaskLine low_then_high_line 0 = Some low_then_high_task)
    by (vm_compute; reflexivity).
  assert (Hc : taskContent low_then_high_line = Some low_then_high_content)
    by (vm_compute; reflexivity).
  split; [exact Hp|].
  destruct (priority_fixed_check_order low_then_high_line 0
              low_then_high_task low_then_high_content Hp Hc)
    as (_ & H & _).
  apply H.
  - apply test_glyph_absent. vm_compute; reflexivity.
  - apply test_glyph_occurs. vm_compute; reflexivity.
Defined.

(** ** Recurrence *)

Lemma match_seq_star (c : cls) (re : list atom) (s : jsstring) :
  match_seq (Star c :: re) s
  = option_map (fun '(w, (chs, rest)) => (w :: chs, rest))
               (star_greedy c (match_seq re) s).
Proof. reflexivity. Qed.

(** Two greedy runs at the end of a pattern always match: the first takes
    its longest run, the second the longest run of what is left. *)
Lemma two_stars (c1 c2 : cls) (t : jsstring) :
  match_seq [Star c1; Star c2] t
  = Some ([takeWhile c1 t; takeWhile c2 (dropWhile c1 t)],
          dropWhile c2 (dropWhile c1 t)).
Proof.
  rewrite match_seq_star.
  rewrite (star_greedy_longest c1 _ t
             ([takeWhile c2 (dropWhile c1 t)],
              dropWhile c2 (dropWhile c1 t))); [reflexivity|].
  rewrite match_seq_star.
  now rewrite (star_greedy_longest c2 _ _ ([], dropWhile c2 (dropWhile c1 t))).
Qed.

(** After the glyph the recurrence pattern always matches: the whitespace
    run, then the longest run free of the code units of its class. *)
Lemma recurrence_match (t : jsstring) :
  match_seq [Star is_space; Star (none_of RECURRENCE_STOP)] t
  = Some ([takeWhile is_space t;
           takeWhile (none_of RECURRENCE_STOP) (dropWhile is_space t)],
          dropWhile (none_of RECURRENCE_STOP) (dropWhile is_space t)).
Proof. apply two_stars. Qed.

Lemma extractMatch_recurrence (pre t : jsstring) :
  first_at RECURRENCE_GLYPH pre (pre ++ RECURRENCE_GLYPH ++ t) ->
  extractMatch (pre ++ RECURRENCE_GLYPH ++ t) RECURRENCE_REGEX
  = Some (takeWhile (none_of RECURRENCE_STOP) (dropWhile is_space t)).
Proof.
  intros Hf. unfold extractMatch, exec, find, RECURRENCE_REGEX.
  cbn [anchored atoms groups].
  destruct (search_at_first_occurrence _
              [Star is_space; Star (none_of RECURRENCE_STOP)] _ _ Hf) as [E|E].
  - rewrite E, recurrence_match. cbn.
    now rewrite app_nil_r.
  - rewrite recurrence_match in E. discriminate E.
Qed.

Lemma none_of_false (l : list code_unit) (x : code_unit) :
  none_of l x = false -> In x l.
Proof.
  unfold none_of, any_of. rewrite negb_false_iff, existsb_exists.
  intros (y & Hy & E). apply N.eqb_eq in E. now subst.
Qed.

(** When the task content holds the recurrence marker, the capture of the
    pattern starts after the first marker and the whitespace that follows
    it and runs up to the next code unit of the pattern's class of marker
    glyphs, or to the end; the stored field is that capture trimmed, and it
    is absent exactly when the trimmed capture is empty. *)
Lemma recurrence_capture_by_code_units :
  forall (line : jsstring) (n : nat) (task : ParsedTask) (content : jsstring),
    parseTaskLine line n = Some task ->
    taskContent line = Some content ->
    occurs RECURRENCE_GLYPH content ->
    exists pre ws cap rest,
      content = pre ++ RECURRENCE_GLYPH ++ ws ++ cap ++ rest
      /\ (forall p q, content = p ++ RECURRENCE_GLYPH ++ q ->
                      length pre <= length p)
      /\ forallb is_space ws = true
      /\ match cap ++ rest with [] => True | x :: _ => is_space x = false end
      /\ forallb (none_of RECURRENCE_STOP) cap = true
      /\ match rest with [] => True | x :: _ => In x RECURRENCE_STOP end
      /\ extractMatch content RECURRENCE_REGEX = Some cap
      /\ recurrence task = match trim cap with [] => None | r => Some r end.
Proof.
  intros line n task content Hp Hc Ho.
  destruct (parseTaskLine_fields _ _ _ _ Hp Hc)
    as (_ & _ & _ & _ & _ & Hrec & _).
  destruct (first_occurrence _ _ Ho) as (pre & t & -> & Hf).
  pose proof (extractMatch_recurrence _ _ Hf) as Hcap.
  set (cap := takeWhile (none_of RECURRENCE_STOP) (dropWhile is_space t))
    in *.
  exists pre, (takeWhile is_space t), cap,
    (dropWhile (none_of RECURRENCE_STOP) (dropWhile is_space t)).
  assert (Hhead : match cap ++ dropWhile (none_of RECURRENCE_STOP)
                                         (dropWhile is_space t) with
                  | [] => True
                  | x :: _ => is_space x = false
                  end).
  { unfold cap. rewrite take_drop_while. apply dropWhile_head. }
  repeat split.
  - unfold cap. now rewrite !take_drop_while.
  - apply (first_at_earliest _ _ _ Hf).
  - apply takeWhile_all.
  - exact Hhead.
  - apply takeWhile_all.
  - pose proof (dropWhile_head (none_of RECURRENCE_STOP)
                               (dropWhile is_space t)) as H.
    destruct (dropWhile (none_of RECURRENCE_STOP) (dropWhile is_space t));
      [exact I | now apply none_of_false].
  - exact Hcap.
  - rewrite Hrec, Hcap. destruct cap as [|x r] eqn:E; [reflexivity|].
    simpl in Hhead. pose proof (trim_nonempty x r Hhead) as Hne.
    destruct (trim (x :: r)); [contradiction Hne; reflexivity | reflexivity].
Qed.

(** ** Description *)

(** C4: [extractDescription] replaces eleven times over, each time with a
    pattern that carries no [g] flag and on the text the previous
    replacements left.  So only the first occurrence of a marker goes: a task
    that writes the high-priority glyph twice keeps the second one in its
    description.  And the recurrence pattern is applied after the date
    markers are gone: where a date marker ended the recurrence capture,
    the text behind that date is deleted with the recurrence. *)
Theorem description_first_match_sequential :
  (option_map description (parseTaskLine repeated_glyph_line 0)
   = Some (js "Pay rent today ⏫")
   /\ occurs HIGH_GLYPH (js "Pay rent today ⏫")
   /\ option_map priority (parseTaskLine repeated_glyph_line 0)
      = Some (Some (js "high")))
  /\ (option_map recurrence (parseTaskLine text_after_date_line 0)
      = Some (Some (js "every week"))
      /\ option_map doneDate (parseTaskLine text_after_date_line 0)
         = Some (Some (js "2025-01-01"))
      /\ option_map description (parseTaskLine text_after_date_line 0)
         = Some []).
Proof.
  split.
  - split; [vm_compute; reflexivity|]. split; [|vm_compute; reflexivity].
    apply test_glyph_occurs. vm_compute; reflexivity.
  - repeat split; vm_compute; reflexivity.
Qed.

(** ** Whitespace around the content *)

Lemma dropWhile_app_nil (c : cls) (q w : jsstring) :
  dropWhile c q = [] -> forallb c w = true ->
  dropWhile c (q ++ w) = [] /\ takeWhile c (q ++ w) = q ++ w.
Proof.
  induction q as [|y q IH]; simpl; intros Hq Hw.
  - clear Hq. induction w as [|x w IHw]; simpl; [auto|].
    apply andb_true_iff in Hw as [-> Hw]. destruct (IHw Hw) as [-> ->]; auto.
  - destruct (c y); [|discriminate].
    destruct (IH Hq Hw) as [-> ->]; auto.
Qed.

Lemma dropWhile_app_cons (c : cls) (q w : jsstring) (y : code_unit)
      (q' : jsstring) :
  dropWhile c q = y :: q' ->
  dropWhile c (q ++ w) = y :: q' ++ w /\ takeWhile c (q ++ w) = takeWhile c q.
Proof.
  induction q as [|z q IH]; simpl; intros Hq; [discriminate|].
  destruct (c z).
  - destruct (IH Hq) as [-> ->]; auto.
  - inversion Hq; subst; auto.
Qed.

Lemma match_seq_app_space (w : jsstring) :
  forallb is_space w = true ->
  forall re, ws_rigid re ->
  forall q, match_seq re (q ++ w)
            = option_map (fun '(chs, rest) => (chs, rest ++ w))
                         (match_seq re q).
Proof.
  intros Hw. induction re as [|[c|c] re IH]; intros Hre q.
  - reflexivity.
  - destruct Hre as [Hc Hre]. destruct q as [|y q]; simpl.
    + destruct w as [|x w]; [reflexivity|]. simpl in Hw.
      apply andb_true_iff in Hw as [Hx _]. now rewrite (Hc x Hx).
    + destruct (c y); [|reflexivity]. rewrite (IH Hre).
      destruct (match_seq re q) as [[chs rest]|]; reflexivity.
  - destruct Hre as [-> Hre]. destruct re as [|[d|d] re]; try contradiction.
    assert (Hk : forall x s', is_space x = true ->
                              match_seq (Chr d :: re) (x :: s') = None).
    { intros x s' Hx. simpl. destruct Hre as [Hd _]. now rewrite (Hd x Hx). }
    rewrite !match_seq_star, !star_greedy_disjoint by exact Hk.
    destruct (dropWhile is_space q) as [|y q'] eqn:Eq.
    + destruct (dropWhile_app_nil _ _ _ Eq Hw) as [-> _]. reflexivity.
    + destruct (dropWhile_app_cons _ _ w _ _ Eq) as [-> ->].
      change (y :: q' ++ w) with ((y :: q') ++ w). rewrite (IH Hre).
      destruct (match_seq (Chr d :: re) (y :: q')) as [[chs rest]|];
        reflexivity.
Qed.

Lemma match_seq_space_none (c : cls) (re : list atom) (w : jsstring) :
  rejects_space c -> forallb is_space w = true ->
  match_seq (Chr c :: re) w = None.
Proof.
  intros Hc Hw. destruct w as [|x w]; simpl; [reflexivity|].
  simpl in Hw. apply andb_true_iff in Hw as [Hx _]. now rewrite (Hc x Hx).
Qed.

(** Whitespace before the text only moves the match. *)
Lemma search_skip_space (c : cls) (re : list atom) (w s : jsstring) :
  rejects_space c -> forallb is_space w = true ->
  search (Chr c :: re) (w ++ s)
  = option_map (fun '(pre, chs, rest) => (w ++ pre, chs, rest))
               (search (Chr c :: re) s).
Proof.
  intros Hc. induction w as [|x w IH]; intros Hw.
  - simpl app. destruct (search (Chr c :: re) s) as [[[pre chs] rest]|];
      reflexivity.
  - simpl in Hw. apply andb_true_iff in Hw as [Hx Hw].
    change ((x :: w) ++ s) with (x :: w ++ s). cbn [search match_seq].
    rewrite (Hc x Hx), (IH Hw).
    destruct (search (Chr c :: re) s) as [[[pre chs] rest]|]; reflexivity.
Qed.

(** Whitespace after the text is left over as it is. *)
Lemma search_app_space (c : cls) (re : list atom) (w : jsstring) :
  ws_rigid (Chr c :: re) -> forallb is_space w = true ->
  forall s, search (Chr c :: re) (s ++ w)
            = option_map (fun '(pre, chs, rest) => (pre, chs, rest ++ w))
                         (search (Chr c :: re) s).
Proof.
  intros Hre Hw. induction s as [|x s IH].
  - simpl app. replace (search (Chr c :: re) []) with
      (@None (jsstring * list jsstring * jsstring)) by reflexivity.
    apply search_none. intros p q ->.
    apply match_seq_space_none; [exact (proj1 Hre)|].
    rewrite forallb_app in Hw. now apply andb_true_iff in Hw as [_ Hw].
  - change ((x :: s) ++ w) with (x :: s ++ w).
    cbn [search]. change (x :: s ++ w) with ((x :: s) ++ w).
    rewrite (match_seq_app_space w Hw _ Hre (x :: s)).
    destruct (match_seq (Chr c :: re) (x :: s)) as [[chs rest]|]; simpl.
    + reflexivity.
    + rewrite IH.
      destruct (search (Chr c :: re) s) as [[[pre chs] rest]|]; reflexivity.
Qed.

Lemma forallb_rev (c : cls) (s : jsstring) :
  forallb c (rev s) = forallb c s.
Proof.
  induction s as [|x s IH]; simpl; [reflexivity|].
  rewrite forallb_app, IH. simpl. rewrite andb_true_r. apply andb_comm.
Qed.

Lemma trimEnd_split (s : jsstring) :
  exists w, s = trimEnd s ++ w /\ forallb is_space w = true.
Proof.
  exists (rev (takeWhile is_space (rev s))). split.
  - unfold trimEnd. rewrite <- rev_app_distr, take_drop_while.
    now rewrite rev_involutive.
  - rewrite forallb_rev. apply takeWhile_all.
Qed.

Lemma trim_split (s : jsstring) :
  exists w1 w2, s = w1 ++ trim s ++ w2
                /\ forallb is_space w1 = true /\ forallb is_space w2 = true.
Proof.
  destruct (trimEnd_split (trimStart s)) as (w2 & H2 & Hw2).
  exists (takeWhile is_space s), w2. repeat split.
  - unfold trim. rewrite <- H2. unfold trimStart.
    now rewrite take_drop_while.
  - apply takeWhile_all.
  - exact Hw2.
Qed.

(** A pattern of that kind sees the trimmed text as it sees the text. *)
Lemma exec_trim (r : regex) (c : cls) (re : list atom) (s : jsstring) :
  anchored r = false -> atoms r = Chr c :: re -> ws_rigid (atoms r) ->
  exec r (trim s) = exec r s.
Proof.
  intros Hu Ha Hre. destruct (trim_split s) as (w1 & w2 & Hs & H1 & H2).
  unfold exec, find. rewrite Hu. rewrite Hs at 2. rewrite Ha in *.
  rewrite (search_skip_space _ _ _ _ (proj1 Hre) H1).
  rewrite (search_app_space _ _ _ Hre H2).
  destruct (search (Chr c :: re) (trim s)) as [[[pre chs] rest]|];
    reflexivity.
Qed.

Lemma test_trim (r : regex) (c : cls) (re : list atom) (s : jsstring) :
  anchored r = false -> atoms r = Chr c :: re -> ws_rigid (atoms r) ->
  test r (trim s) = test r s.
Proof.
  intros Hu Ha Hre. destruct (trim_split s) as (w1 & w2 & Hs & H1 & H2).
  unfold test, find. rewrite Hu. rewrite Hs at 2. rewrite Ha in *.
  rewrite (search_skip_space _ _ _ _ (proj1 Hre) H1).
  rewrite (search_app_space _ _ _ Hre H2).
  destruct (search (Chr c :: re) (trim s)) as [[[pre chs] rest]|];
    reflexivity.
Qed.

(** ** Classes of code units *)

Lemma any_of_forallb (p : cls) (l : list code_unit) (x : code_unit) :
  forallb p l = true -> any_of l x = true -> p x = true.
Proof.
  intros Hall Hx. unfold any_of in Hx. apply existsb_exists in Hx
    as (y & Hy & E). apply N.eqb_eq in E; subst y.
  rewrite forallb_forall in Hall. exact (Hall x Hy).
Qed.

Lemma marker_not_space (x : code_unit) :
  marker_unit x = true -> is_space x = false.
Proof.
  intros H. apply negb_true_iff.
  exact (any_of_forallb (fun y => negb (is_space y)) MARKER_UNITS x eq_refl H).
Qed.

Lemma marker_not_digit (x : code_unit) :
  marker_unit x = true -> is_digit x = false.
Proof.
  intros H. apply negb_true_iff.
  exact (any_of_forallb (fun y => negb (is_digit y)) MARKER_UNITS x eq_refl H).
Qed.

Lemma marker_not_dash (x : code_unit) :
  marker_unit x = true -> only 0x2D%N x = false.
Proof.
  intros H. apply negb_true_iff.
  exact (any_of_forallb (fun y => negb (only 0x2D%N y)) MARKER_UNITS x eq_refl H).
Qed.

Lemma stop_is_marker (x : code_unit) :
  none_of RECURRENCE_STOP x = false -> marker_unit x = true.
Proof.
  unfold none_of, marker_unit, MARKER_UNITS, any_of.
  rewrite negb_false_iff, existsb_app.
  intros H. apply orb_true_iff. right. exact H.
Qed.

Lemma space_not_stop (x : code_unit) :
  is_space x = true -> none_of RECURRENCE_STOP x = true.
Proof.
  intros Hx. destruct (none_of RECURRENCE_STOP x) eqn:E; [reflexivity|].
  apply stop_is_marker, marker_not_space in E. congruence.
Qed.

Lemma forallb_impl (p q : cls) (s : jsstring) :
  (forall x, p x = true -> q x = true) ->
  forallb p s = true -> forallb q s = true.
Proof.
  intros Hpq. induction s as [|x s IH]; simpl; [reflexivity|].
  intros H. apply andb_true_iff in H as [Hx Hs].
  now rewrite (Hpq x Hx), (IH Hs).
Qed.

Lemma is_digit_rejects_space : rejects_space is_digit.
Proof.
  intros x Hx. destruct (is_digit x) eqn:E; [|reflexivity].
  unfold is_digit in E. apply andb_true_iff in E as [E1 E2].
  apply N.leb_le in E1, E2. exfalso.
  assert (Hf : is_space x = false).
  { unfold is_space.
    repeat match goal with
      | |- context [(?a =? ?b)%N] =>
          rewrite (proj2 (N.eqb_neq a b)) by lia
      | |- context [(?a <=? ?b)%N] =>
          first [ rewrite (proj2 (N.leb_le a b)) by lia
                | rewrite (proj2 (N.leb_gt a b)) by lia ]
      end. reflexivity. }
  congruence.
Qed.

Lemma only_rejects_space (a : code_unit) :
  is_space a = false -> rejects_space (only a).
Proof.
  intros Ha x Hx. unfold only. apply N.eqb_neq. intros ->. congruence.
Qed.

Lemma lit_rigid (g : jsstring) (re : list atom) :
  forallb (fun x => negb (is_space x)) g = true ->
  ws_rigid re -> ws_rigid (lit g ++ re).
Proof.
  intros Hg Hre. induction g as [|a g IH]; simpl; [exact Hre|].
  simpl in Hg. apply andb_true_iff in Hg as [Ha Hg].
  split; [apply only_rejects_space; now apply negb_true_iff | exact (IH Hg)].
Qed.

Lemma date_tail_rigid : ws_rigid (Star is_space :: date_atoms).
Proof.
  split; [reflexivity|]. simpl.
  repeat split;
    first [ exact is_digit_rejects_space
          | apply only_rejects_space; reflexivity ].
Qed.

Lemma glyph_start_stop (x : code_unit) :
  glyph_start x = true -> none_of RECURRENCE_STOP x = false.
Proof.
  intros H. apply negb_true_iff.
  exact (any_of_forallb (fun y => negb (none_of RECURRENCE_STOP y))
           (map (fun g => hd 0%N g) MARKER_GLYPHS) x eq_refl H).
Qed.

Lemma glyph_or_end_stop (s : jsstring) :
  glyph_or_end s ->
  match s with [] => True | x :: _ => none_of RECURRENCE_STOP x = false end.
Proof. destruct s; [auto | apply glyph_start_stop]. Qed.

(** Every glyph starts with a code unit of [glyph_start] and holds no
    whitespace. *)
Lemma glyph_shape (g : jsstring) :
  In g MARKER_GLYPHS ->
  exists g0 g', g = g0 :: g'
                /\ glyph_start g0 = true
                /\ forallb (fun x => negb (is_space x)) g = true
                /\ forallb marker_unit g = true.
Proof.
  intros H. unfold MARKER_GLYPHS in H. simpl in H.
  repeat (destruct H as [<-|H]; [eexists; eexists; repeat split|]).
  contradiction H.
Qed.

Lemma date_regex_trim (g s : jsstring) :
  In g MARKER_GLYPHS ->
  extractMatch (trim s) (date_regex g) = extractMatch s (date_regex g).
Proof.
  intros Hg. destruct (glyph_shape g Hg) as (g0 & g' & -> & _ & Hns & _).
  unfold extractMatch.
  rewrite (exec_trim (date_regex (g0 :: g')) (only g0)
             (lit g' ++ Star is_space :: date_atoms) s);
    [reflexivity | reflexivity | reflexivity |].
  apply (lit_rigid (g0 :: g') _ Hns date_tail_rigid).
Qed.

Lemma glyph_regex_trim (g s : jsstring) :
  In g MARKER_GLYPHS ->
  test (glyph_regex g) (trim s) = test (glyph_regex g) s.
Proof.
  intros Hg. destruct (glyph_shape g Hg) as (g0 & g' & -> & _ & Hns & _).
  apply (test_trim (glyph_regex (g0 :: g')) (only g0) (lit g') s).
  - reflexivity.
  - reflexivity.
  - change (ws_rigid (lit (g0 :: g'))).
    rewrite <- (app_nil_r (lit (g0 :: g'))).
    apply (lit_rigid (g0 :: g') [] Hns I).
Qed.

Lemma extractPriority_trim (s : jsstring) :
  extractPriority (trim s) = extractPriority s.
Proof.
  unfold extractPriority, PRIORITY_HIGHEST_REGEX, PRIORITY_HIGH_REGEX,
    PRIORITY_MEDIUM_REGEX, PRIORITY_LOW_REGEX, PRIORITY_LOWEST_REGEX.
  rewrite !glyph_regex_trim; [reflexivity | | | | |];
    unfold MARKER_GLYPHS; simpl; tauto.
Qed.

Lemma trimEnd_app_space (x w : jsstring) :
  forallb is_space w = true -> trimEnd (x ++ w) = trimEnd x.
Proof.
  intros Hw. unfold trimEnd. rewrite rev_app_distr.
  rewrite dropWhile_app_all; [reflexivity | now rewrite forallb_rev].
Qed.

Lemma trim_app_space (x w : jsstring) :
  forallb is_space w = true -> trim (x ++ w) = trim x.
Proof.
  intros Hw. unfold trim, trimStart.
  destruct (dropWhile is_space x) as [|y x'] eqn:E.
  - now destruct (dropWhile_app_nil _ _ _ E Hw) as [-> _].
  - destruct (dropWhile_app_cons _ _ w _ _ E) as [-> _].
    change (y :: x' ++ w) with ((y :: x') ++ w).
    now apply trimEnd_app_space.
Qed.

(** The recurrence field does not see whitespace after the content. *)
Lemma recurrence_tail_space (t w : jsstring) :
  forallb is_space w = true ->
  match takeWhile (none_of RECURRENCE_STOP) (dropWhile is_space (t ++ w)) with
  | [] => None
  | (_ :: _) as r => Some (trim r)
  end
  = match takeWhile (none_of RECURRENCE_STOP) (dropWhile is_space t) with
    | [] => None
    | (_ :: _) as r => Some (trim r)
    end.
Proof.
  intros Hw.
  destruct (dropWhile is_space t) as [|y b] eqn:E.
  - now destruct (dropWhile_app_nil _ _ _ E Hw) as [-> _].
  - destruct (dropWhile_app_cons _ _ w _ _ E) as [-> _].
    change (y :: b ++ w) with ((y :: b) ++ w).
    destruct (dropWhile (none_of RECURRENCE_STOP) (y :: b)) as [|z b'] eqn:E'.
    + assert (Hw' : forallb (none_of RECURRENCE_STOP) w = true)
        by exact (forallb_impl _ _ _ space_not_stop Hw).
      destruct (dropWhile_app_nil _ _ _ E' Hw') as [_ ->].
      pose proof (take_drop_while (none_of RECURRENCE_STOP) (y :: b)) as H.
      rewrite E', app_nil_r in H. rewrite H.
      cbn [app]. f_equal.
      change (y :: b ++ w) with ((y :: b) ++ w). now apply trim_app_space.
    + now destruct (dropWhile_app_cons _ _ w _ _ E') as [_ ->].
Qed.

Lemma search_first_at (g s pre : jsstring) (chs : list jsstring)
      (rest : jsstring) :
  search (lit g) s = Some (pre, chs, rest) ->
  s = pre ++ g ++ rest /\ first_at g pre (pre ++ g ++ rest).
Proof.
  intros E. pose proof (search_lit_spec g s) as Hs. rewrite E in Hs.
  split; [exact Hs|].
  apply search_inv in E as (m & _ & _ & Hleft). rewrite <- Hs. exact Hleft.
Qed.

Lemma recurrence_field_first (pre t : jsstring) :
  first_at RECURRENCE_GLYPH pre (pre ++ RECURRENCE_GLYPH ++ t) ->
  recurrence_field (pre ++ RECURRENCE_GLYPH ++ t)
  = match takeWhile (none_of RECURRENCE_STOP) (dropWhile is_space t) with
    | [] => None
    | (_ :: _) as r => Some (trim r)
    end.
Proof.
  intros Hf. unfold recurrence_field.
  rewrite (extractMatch_recurrence _ _ Hf).
  destruct (takeWhile _ _); reflexivity.
Qed.

Lemma recurrence_field_absent (s : jsstring) :
  ~ occurs RECURRENCE_GLYPH s -> recurrence_field s = None.
Proof.
  intros Hno.
  unfold recurrence_field, extractMatch, exec, find, RECURRENCE_REGEX.
  cbn [anchored atoms]. now rewrite (search_no_occurrence _ _ _ Hno).
Qed.

Lemma recurrence_field_trim (s : jsstring) :
  recurrence_field (trim s) = recurrence_field s.
Proof.
  destruct (trim_split s) as (w1 & w2 & Hs & H1 & H2).
  set (s0 := trim s) in *. rewrite Hs. clearbody s0. clear Hs s.
  assert (Hlead : recurrence_field (w1 ++ s0 ++ w2)
                  = recurrence_field (s0 ++ w2)).
  { unfold recurrence_field, extractMatch, exec, find, RECURRENCE_REGEX.
    cbn [anchored atoms groups lit map app RECURRENCE_GLYPH].
    rewrite (search_skip_space _ _ w1 (s0 ++ w2)
               (only_rejects_space 0xD83D%N eq_refl) H1).
    destruct (search _ (s0 ++ w2)) as [[[pre chs] rest]|]; reflexivity. }
  rewrite Hlead. clear Hlead H1 w1.
  assert (Hrig : ws_rigid (lit RECURRENCE_GLYPH)).
  { rewrite <- (app_nil_r (lit RECURRENCE_GLYPH)).
    apply lit_rigid; [reflexivity | exact I]. }
  pose proof (search_app_space (only 0xD83D%N) (lit [0xDD01%N]) w2 Hrig H2 s0)
    as Happ.
  change (Chr (only 0xD83D%N) :: lit [0xDD01%N])
    with (lit RECURRENCE_GLYPH) in Happ.
  destruct (search (lit RECURRENCE_GLYPH) s0) as [[[pre chs] rest]|] eqn:E.
  - cbn [option_map] in Happ.
    apply search_first_at in E as [-> Hf].
    apply search_first_at in Happ as [Hs' Hf'].
    rewrite Hs', (recurrence_field_first _ _ Hf),
      (recurrence_field_first _ _ Hf').
    symmetry. now apply recurrence_tail_space.
  - cbn [option_map] in Happ.
    pose proof (search_lit_spec RECURRENCE_GLYPH s0) as N0.
    pose proof (search_lit_spec RECURRENCE_GLYPH (s0 ++ w2)) as N1.
    rewrite E in N0. rewrite Happ in N1.
    now rewrite !recurrence_field_absent.
Qed.

(** ** Searching a marker pattern through lead text and markers *)

(** A prefix in which the pattern matches nowhere only moves the match. *)
Lemma search_skip (re : list atom) (a s : jsstring) :
  (forall p q, a = p ++ q -> q <> [] -> match_seq re (q ++ s) = None) ->
  search re (a ++ s)
  = option_map (fun '(pre, chs, rest) => (a ++ pre, chs, rest)) (search re s).
Proof.
  induction a as [|x a IH]; intros H.
  - simpl app. destruct (search re s) as [[[pre chs] rest]|]; reflexivity.
  - assert (H0 : match_seq re ((x :: a) ++ s) = None)
      by (apply (H [] (x :: a)); [reflexivity | discriminate]).
    change ((x :: a) ++ s) with (x :: a ++ s) in *. cbn [search].
    rewrite H0, IH.
    + destruct (search re s) as [[[pre chs] rest]|]; reflexivity.
    + intros p q -> Hq. apply (H (x :: p) q); [reflexivity | exact Hq].
Qed.

(** A glyph is one code unit, or two of which the second starts no glyph. *)
Lemma glyph_cases (g : jsstring) :
  In g MARKER_GLYPHS ->
  (exists a, g = [a]) \/ (exists a b, g = [a; b] /\ glyph_start b = false).
Proof.
  intros H. unfold MARKER_GLYPHS in H. simpl in H.
  repeat (destruct H as [<-|H];
          [first [ left; eexists; reflexivity
                 | right; eexists; eexists; split; reflexivity ]|]).
  contradiction H.
Qed.

(** No glyph lies across the end of a text: where a glyph matches on a
    non-empty piece of text followed by a glyph or by the end of the line, it
    matches inside the text. *)
Lemma glyph_inside (g q s : jsstring) :
  In g MARKER_GLYPHS -> q <> [] -> glyph_or_end s ->
  match_seq (lit g) (q ++ s) <> None -> exists t, q = g ++ t.
Proof.
  intros Hg Hq Hs Hm.
  destruct q as [|x q]; [contradiction Hq; reflexivity|]. clear Hq.
  destruct (glyph_cases g Hg) as [(a & ->)|(a & b & -> & Hb)];
    cbn [lit map app match_seq] in Hm; unfold only at 1 in Hm;
    (destruct (N.eqb_spec a x) as [<-|]; [|contradiction Hm; reflexivity]).
  - exists q; reflexivity.
  - destruct q as [|y q]; cbn [app] in Hm.
    + destruct s as [|y s]; [contradiction Hm; reflexivity|].
      unfold only at 1 in Hm.
      destruct (N.eqb_spec b y) as [<-|]; [|contradiction Hm; reflexivity].
      simpl in Hs. congruence.
    + unfold only at 1 in Hm.
      destruct (N.eqb_spec b y) as [<-|]; [|contradiction Hm; reflexivity].
      exists q; reflexivity.
Qed.

Lemma search_skip_plain (g : jsstring) (re : list atom) (a s : jsstring) :
  In g MARKER_GLYPHS -> plain a -> glyph_or_end s ->
  search (lit g ++ re) (a ++ s)
  = option_map (fun '(pre, chs, rest) => (a ++ pre, chs, rest))
               (search (lit g ++ re) s).
Proof.
  intros Hg [Hfree _] Hs. apply search_skip. intros p q -> Hq.
  apply match_seq_lit_none.
  destruct (match_seq (lit g) (q ++ s)) as [r|] eqn:E; [|reflexivity].
  destruct (glyph_inside g q s Hg Hq Hs) as (t & ->);
    [rewrite E; discriminate|].
  contradiction (Hfree g Hg). exists p, t. reflexivity.
Qed.

Lemma search_skip_glyph (g g' : jsstring) (re : list atom) (s : jsstring) :
  In g MARKER_GLYPHS -> In g' MARKER_GLYPHS -> g <> g' ->
  search (lit g ++ re) (g' ++ s)
  = option_map (fun '(pre, chs, rest) => (g' ++ pre, chs, rest))
               (search (lit g ++ re) s).
Proof.
  intros Hg Hg' Hne. unfold MARKER_GLYPHS in Hg, Hg'. simpl in Hg, Hg'.
  repeat (destruct Hg as [<-|Hg]); try contradiction;
    repeat (destruct Hg' as [<-|Hg']); try contradiction;
    try (contradiction Hne; reflexivity);
    cbn;
    match goal with
    | |- context [search ?r s] =>
        destruct (search r s) as [[[pre chs] rest]|]; reflexivity
    end.
Qed.

Lemma search_at_glyph (g : jsstring) (re : list atom) (t : jsstring) :
  In g MARKER_GLYPHS ->
  search (lit g ++ re) (g ++ t)
  = match match_seq re t with
    | Some (chs, rest) => Some ([], map (fun x => [x]) g ++ chs, rest)
    | None =>
        option_map (fun '(pre, chs, rest) => (g ++ pre, chs, rest))
                   (search (lit g ++ re) t)
    end.
Proof.
  intros Hg. unfold MARKER_GLYPHS in Hg. simpl in Hg.
  repeat (destruct Hg as [<-|Hg]); try contradiction;
    cbn;
    (destruct (match_seq re t) as [[chs rest]|]; cbn; [reflexivity|]);
    match goal with
    | |- context [search ?r t] =>
        destruct (search r t) as [[[pre chs] rest]|]; reflexivity
    end.
Qed.

Lemma search_lit_nil (g : jsstring) (re : list atom) :
  In g MARKER_GLYPHS -> search (lit g ++ re) [] = None.
Proof.
  intros Hg. destruct (glyph_shape g Hg) as (g0 & g' & -> & _). reflexivity.
Qed.

(** What follows a marker text is the end of the line or the glyph of the
    next marker. *)
Lemma markers_head (ms : list marker) :
  Forall well_formed ms -> glyph_or_end (concat (map render ms)).
Proof.
  intros H. destruct H as [|m ms [Hm _] _]; simpl; [exact I|].
  destruct (glyph_shape _ Hm) as (g0 & g' & E & Hstart & _).
  unfold render. rewrite E. exact Hstart.
Qed.

(** The atoms a marker pattern consumed in a run of markers: those of the
    first marker with its glyph on which the rest of the pattern matches. *)
Lemma search_markers (g : jsstring) (re : list atom) (ms : list marker) :
  In g MARKER_GLYPHS -> Forall well_formed ms ->
  option_map (fun '(_, chs, _) => chs)
             (search (lit g ++ re) (concat (map render ms)))
  = option_map (app (map (fun x => [x]) g)) (scan g re ms).
Proof.
  intros Hg. induction 1 as [|m ms [Hm Ht] Hms IH]; cbn [map concat scan].
  - now rewrite search_lit_nil.
  - unfold render at 1. rewrite <- app_assoc.
    destruct (str_eqb (glyph m) g) eqn:E.
    + apply str_eqb_eq in E. rewrite E, search_at_glyph by exact Hg.
      destruct (match_seq re (text m ++ concat (map render ms)))
        as [[chs rest]|]; [reflexivity|].
      rewrite search_skip_plain
        by (first [assumption | apply markers_head; assumption]).
      rewrite <- IH.
      destruct (search _ (concat (map render ms))) as [[[pre chs] rest]|];
        reflexivity.
    + apply str_eqb_neq in E.
      rewrite search_skip_glyph by auto.
      rewrite search_skip_plain
        by (first [assumption | apply markers_head; assumption]).
      rewrite <- IH.
      destruct (search _ (concat (map render ms))) as [[[pre chs] rest]|];
        reflexivity.
Qed.

Lemma search_body (g : jsstring) (re : list atom) (lead : jsstring)
      (ms : list marker) :
  In g MARKER_GLYPHS -> plain lead -> Forall well_formed ms ->
  option_map (fun '(_, chs, _) => chs) (search (lit g ++ re) (body lead ms))
  = option_map (app (map (fun x => [x]) g)) (scan g re ms).
Proof.
  intros Hg Hl Hms. unfold body.
  rewrite search_skip_plain
    by (first [assumption | apply markers_head; assumption]).
  rewrite <- (search_markers g re ms Hg Hms).
  destruct (search _ (concat (map render ms))) as [[[pre chs] rest]|];
    reflexivity.
Qed.

(** ** Dates *)

Lemma match_classes_spec (cs : list cls) :
  forall u,
    match_seq (map Chr cs) u
    = if match_classes cs u
      then Some (map (fun x => [x]) (firstn (length cs) u),
                 skipn (length cs) u)
      else None.
Proof.
  induction cs as [|c cs IH]; intros u; simpl; [reflexivity|].
  destruct u as [|x u]; [reflexivity|]. simpl.
  destruct (c x); [|reflexivity]. rewrite IH.
  destruct (match_classes cs u); reflexivity.
Qed.

(** A run of classes that all refuse [x] is decided before [x]. *)
Lemma match_classes_local (cs : list cls) (x : code_unit) (s : jsstring) :
  Forall (fun c => c x = false) cs ->
  forall u,
    match_classes cs (u ++ x :: s) = match_classes cs u
    /\ (match_classes cs u = true ->
        firstn (length cs) (u ++ x :: s) = firstn (length cs) u).
Proof.
  induction 1 as [|c cs Hc _ IH]; intros u.
  - split; reflexivity.
  - destruct u as [|y u]; simpl.
    + rewrite Hc. split; [reflexivity | discriminate].
    + destruct (IH u) as [-> Hfirst]. split; [reflexivity|].
      intros H. apply andb_true_iff in H as [_ H]. now rewrite (Hfirst H).
Qed.

Lemma match_classes_nil_tail (cs : list cls) (u : jsstring) :
  match_classes cs (u ++ []) = match_classes cs u
  /\ (match_classes cs u = true ->
      firstn (length cs) (u ++ []) = firstn (length cs) u).
Proof. rewrite app_nil_r. split; reflexivity. Qed.

Lemma concat_singles (l : jsstring) : concat (map (fun x => [x]) l) = l.
Proof. induction l as [|x l IH]; simpl; [reflexivity | now rewrite IH]. Qed.

Lemma dropWhile_app_drop (c : cls) (q s : jsstring) :
  dropWhile c q = [] -> dropWhile c (q ++ s) = dropWhile c s.
Proof.
  induction q as [|y q IH]; simpl; [reflexivity|].
  destruct (c y); [exact IH | discriminate].
Qed.

Lemma dropWhile_fixed (c : cls) (s : jsstring) :
  match s with [] => True | x :: _ => c x = false end ->
  dropWhile c s = s.
Proof. destruct s as [|x s]; simpl; [reflexivity | now intros ->]. Qed.

Lemma stop_head_not_space (s : jsstring) :
  match s with [] => True | x :: _ => none_of RECURRENCE_STOP x = false end ->
  match s with [] => True | x :: _ => is_space x = false end.
Proof.
  destruct s as [|x s]; [auto|]. intros H.
  now apply marker_not_space, stop_is_marker.
Qed.

Lemma date_classes_reject_stop (x : code_unit) :
  none_of RECURRENCE_STOP x = false ->
  Forall (fun c : cls => c x = false) DATE_CLASSES.
Proof.
  intros H. apply stop_is_marker in H.
  pose proof (marker_not_digit x H). pose proof (marker_not_dash x H).
  unfold DATE_CLASSES. repeat constructor; assumption.
Qed.

(** The date pattern after its glyph reads the date off the marker text
    alone. *)
Lemma date_local (v s : jsstring) :
  match s with [] => True | x :: _ => none_of RECURRENCE_STOP x = false end ->
  match match_seq (Star is_space :: date_atoms) (v ++ s) with
  | Some (chs, _) => Some (date_group chs)
  | None => None
  end = date_capture v.
Proof.
  intros Hs. rewrite match_seq_star, star_greedy_disjoint.
  2:{ intros x s' Hx. simpl. now rewrite (is_digit_rejects_space x Hx). }
  change date_atoms with (map Chr DATE_CLASSES).
  unfold date_capture.
  destruct (dropWhile is_space v) as [|y u] eqn:E.
  - rewrite (dropWhile_app_drop _ _ s E).
    rewrite (dropWhile_fixed is_space s (stop_head_not_space s Hs)).
    rewrite match_classes_spec.
    destruct s as [|x s]; [reflexivity|].
    pose proof (date_classes_reject_stop x Hs) as Hc.
    inversion Hc as [|c cs Hx _]; subst. simpl. now rewrite Hx.
  - destruct (dropWhile_app_cons _ _ s _ _ E) as [-> _].
    change (y :: u ++ s) with ((y :: u) ++ s).
    rewrite match_classes_spec.
    assert (Hloc : match_classes DATE_CLASSES ((y :: u) ++ s)
                   = match_classes DATE_CLASSES (y :: u)
                   /\ (match_classes DATE_CLASSES (y :: u) = true ->
                       firstn (length DATE_CLASSES) ((y :: u) ++ s)
                       = firstn (length DATE_CLASSES) (y :: u))).
    { destruct s as [|x s]; [apply match_classes_nil_tail|].
      apply match_classes_local, date_classes_reject_stop, Hs. }
    destruct Hloc as [-> Hfirst].
    destruct (match_classes DATE_CLASSES (y :: u)) eqn:Em; [|reflexivity].
    rewrite (Hfirst eq_refl). cbn [option_map]. unfold date_group.
    cbn [skipn]. change (length DATE_CLASSES) with 10.
    rewrite firstn_all2 by (rewrite length_map, length_firstn; lia).
    now rewrite concat_singles.
Qed.

Lemma skipn_singles (g : jsstring) (chs : list jsstring) :
  skipn (S (length g)) (map (fun x => [x]) g ++ chs) = skipn 1 chs.
Proof.
  induction g as [|x g IH]; [reflexivity|]. exact IH.
Qed.

Lemma scan_date (g : jsstring) (ms : list marker) :
  Forall well_formed ms ->
  option_map date_group (scan g (Star is_space :: date_atoms) ms)
  = first_date g ms.
Proof.
  induction 1 as [|m ms Hm Hms IH]; [reflexivity|].
  cbn [scan first_date]. destruct (str_eqb (glyph m) g); [|exact IH].
  rewrite <- (date_local (text m) (concat (map render ms))
                (glyph_or_end_stop _ (markers_head ms Hms))).
  destruct (match_seq _ (text m ++ concat (map render ms))) as [[chs rest]|];
    [reflexivity | exact IH].
Qed.

(** The date a line stores for a date glyph. *)
Lemma extract_date_body (g lead : jsstring) (ms : list marker) :
  In g MARKER_GLYPHS -> plain lead -> Forall well_formed ms ->
  extractMatch (body lead ms) (date_regex g) = first_date g ms.
Proof.
  intros Hg Hl Hms. rewrite <- (scan_date g ms Hms).
  pose proof (search_body g (Star is_space :: date_atoms) lead ms Hg Hl Hms)
    as H.
  unfold extractMatch, exec, find, date_regex.
  cbn [anchored atoms groups map nth].
  destruct (search _ (body lead ms)) as [[[pre chs] rest]|];
    destruct (scan g _ ms) as [chs'|]; try discriminate H; [|reflexivity].
  cbn [option_map] in *. inversion H; subst.
  unfold capture, date_group; cbn [fst snd]. now rewrite skipn_singles.
Qed.

(** ** Recurrence and priority over markers *)

Lemma forallb_dropWhile (p c : cls) (s : jsstring) :
  forallb p s = true -> forallb p (dropWhile c s) = true.
Proof.
  induction s as [|x s IH]; simpl; [reflexivity|].
  intros H. destruct (c x); [|exact H].
  apply andb_true_iff in H as [_ H]. exact (IH H).
Qed.

Lemma takeWhile_all_id (c : cls) (s : jsstring) :
  forallb c s = true -> takeWhile c s = s.
Proof.
  induction s as [|x s IH]; simpl; [reflexivity|].
  intros H. apply andb_true_iff in H as [-> H]. now rewrite (IH H).
Qed.

Lemma takeWhile_app_end (c : cls) (u s : jsstring) :
  match s with [] => True | x :: _ => c x = false end ->
  takeWhile c (u ++ s) = takeWhile c u.
Proof.
  intros Hs. induction u as [|y u IH]; simpl.
  - destruct s as [|x s]; simpl; [reflexivity | now rewrite Hs].
  - destruct (c y); [now rewrite IH | reflexivity].
Qed.

(** The recurrence pattern after its glyph reads the marker text alone. *)
Lemma recurrence_local (v s : jsstring) :
  match s with [] => True | x :: _ => none_of RECURRENCE_STOP x = false end ->
  match takeWhile (none_of RECURRENCE_STOP) (dropWhile is_space (v ++ s)) with
  | [] => None
  | (_ :: _) as r => Some (trim r)
  end = recurrence_value v.
Proof.
  intros Hs. unfold recurrence_value.
  destruct (dropWhile is_space v) as [|y u] eqn:E.
  - rewrite (dropWhile_app_drop _ _ s E).
    rewrite (dropWhile_fixed is_space s (stop_head_not_space s Hs)).
    destruct s as [|x s]; simpl; [reflexivity | now rewrite Hs].
  - destruct (dropWhile_app_cons _ _ s _ _ E) as [-> _].
    change (y :: u ++ s) with ((y :: u) ++ s).
    rewrite (takeWhile_app_end _ _ s Hs).
    destruct (takeWhile _ (y :: u)); reflexivity.
Qed.

Lemma dropWhile_trim (s : jsstring) : trim (dropWhile is_space s) = trim s.
Proof.
  unfold trim, trimStart.
  now rewrite (dropWhile_fixed is_space _ (dropWhile_head is_space s)).
Qed.

(** Each glyph the capture is said to run up to starts with a code unit of
    the class of the pattern. *)
Lemma glyph_follows_stop (rest : jsstring) :
  glyph_follows (OTHER_GLYPHS ++ [ID_GLYPH]) rest ->
  match rest with [] => True | x :: _ => none_of RECURRENCE_STOP x = false end.
Proof.
  intros [->|(g & r & Hg & ->)]; [exact I|].
  unfold OTHER_GLYPHS in Hg. simpl in Hg.
  repeat (destruct Hg as [<-|Hg]; [reflexivity|]). contradiction Hg.
Qed.

(** C3, as stated, fails: the class of the pattern lists the id glyph, which
    is none of the marker glyphs, so on a recurrence followed by an id the
    stored field ends before the id and not at the next marker glyph. *)
Lemma recurrence_ends_at_id_glyph : ~ recurrence_up_to_marker.
Proof.
  intros H.
  specialize (H id_line 0 id_task id_content []
                (js " every week 🆔 abc123 ") (js "📅 2025-05-01")).
  assert (Hrec : recurrence id_task
                 = match trim (js " every week 🆔 abc123 ") with
                   | [] => None
                   | r => Some r
                   end).
  { apply H.
    - vm_compute; reflexivity.
    - vm_compute; reflexivity.
    - vm_compute; reflexivity.
    - intros p q _ Hlen. simpl in Hlen. lia.
    - split.
      + intros g Hg. apply test_glyph_absent.
        unfold OTHER_GLYPHS in Hg. simpl in Hg.
        repeat (destruct Hg as [<-|Hg]; [vm_compute; reflexivity|]).
        contradiction Hg.
      + right. exists DUE_GLYPH, (js " 2025-05-01").
        split; [now left | vm_compute; reflexivity]. }
  vm_compute in Hrec. discriminate Hrec.
Qed.

(** The pattern carries no [u] flag, so its class is read by code unit: an
    emoji that shares a surrogate half with a glyph of the class ends the
    capture as well. *)
Example recurrence_ends_at_a_shared_surrogate :
  option_map recurrence
    (parseTaskLine (js "- [ ] 🔁 every day 😀 until 📅 2025-01-01") 0)
  = Some (Some (js "every day")).
Proof. vm_compute. reflexivity. Qed.

(** C3, amended: the text after the first recurrence glyph runs up to the
    next other marker glyph or id glyph, or to the end of the content; when
    it holds no code unit of the class of the pattern, the stored recurrence
    is that text trimmed, and it is absent exactly when the trimmed text is
    empty, a text of whitespace only included. *)
Theorem recurrence_is_trimmed_capture :
  forall (line : jsstring) (n : nat) (task : ParsedTask)
         (content pre cap rest : jsstring),
    parseTaskLine line n = Some task ->
    taskContent line = Some content ->
    content = pre ++ RECURRENCE_GLYPH ++ cap ++ rest ->
    first_at RECURRENCE_GLYPH pre content ->
    forallb (none_of RECURRENCE_STOP) cap = true ->
    glyph_follows (OTHER_GLYPHS ++ [ID_GLYPH]) rest ->
    recurrence task = match trim cap with [] => None | r => Some r end.
Proof.
  intros line n task content pre cap rest Hp Hc -> Hf Hcap Hrest.
  destruct (parseTaskLine_fields _ _ _ _ Hp Hc)
    as (_ & _ & _ & _ & _ & Hrec & _).
  rewrite Hrec, (extractMatch_recurrence _ _ Hf).
  transitivity (recurrence_value cap).
  { rewrite <- (recurrence_local cap rest (glyph_follows_stop rest Hrest)).
    destruct (takeWhile _ (dropWhile is_space (cap ++ rest))); reflexivity. }
  unfold recurrence_value.
  rewrite (takeWhile_all_id _ _ (forallb_dropWhile _ is_space cap Hcap)).
  rewrite <- (dropWhile_trim cap).
  pose proof (dropWhile_head is_space cap) as Hh.
  destruct (dropWhile is_space cap) as [|y q]; [reflexivity|].
  pose proof (trim_nonempty y q Hh) as Hne.
  destruct (trim (y :: q)); [contradiction Hne; reflexivity | reflexivity].
Qed.

Lemma recurrence_is_trimmed_capture_witness :
  recurrence weekly_task
  = match trim (js " every week ") with [] => None | r => Some r end.
Proof.
  apply (recurrence_is_trimmed_capture weekly_line 0 weekly_task
           weekly_content [] (js " every week ") (js "📅 2025-05-01")).
  - vm_compute; reflexivity.
  - vm_compute; reflexivity.
  - vm_compute; reflexivity.
  - intros p q _ Hlen. simpl in Hlen. lia.
  - vm_compute; reflexivity.
  - right. exists DUE_GLYPH, (js " 2025-05-01").
    split; [now left | vm_compute; reflexivity].
Defined.

Lemma scan_recurrence (ms : list marker) :
  Forall well_formed ms ->
  match scan RECURRENCE_GLYPH
             [Star is_space; Star (none_of RECURRENCE_STOP)] ms with
  | Some chs =>
      match nth 1 chs [] with
      | [] => None
      | (_ :: _) as r => Some (trim r)
      end
  | None => None
  end
  = match find_text RECURRENCE_GLYPH ms with
    | Some v => recurrence_value v
    | None => None
    end.
Proof.
  induction 1 as [|m ms [Hm Ht] Hms IH]; [reflexivity|].
  cbn [scan find_text].
  destruct (str_eqb (glyph m) RECURRENCE_GLYPH); [|exact IH].
  rewrite recurrence_match. cbn [nth].
  apply recurrence_local, glyph_or_end_stop, markers_head, Hms.
Qed.

Lemma recurrence_field_body (lead : jsstring) (ms : list marker) :
  plain lead -> Forall well_formed ms ->
  recurrence_field (body lead ms)
  = match find_text RECURRENCE_GLYPH ms with
    | Some v => recurrence_value v
    | None => None
    end.
Proof.
  intros Hl Hms. rewrite <- (scan_recurrence ms Hms).
  assert (Hg : In RECURRENCE_GLYPH MARKER_GLYPHS)
    by (unfold MARKER_GLYPHS; simpl; tauto).
  pose proof (search_body RECURRENCE_GLYPH
                [Star is_space; Star (none_of RECURRENCE_STOP)]
                lead ms Hg Hl Hms) as H.
  unfold recurrence_field, extractMatch, exec, find, RECURRENCE_REGEX.
  cbn [anchored atoms groups map nth].
  destruct (search _ (body lead ms)) as [[[pre chs] rest]|];
    destruct (scan RECURRENCE_GLYPH _ ms) as [chs'|];
    try discriminate H; [|reflexivity].
  cbn [option_map] in H. inversion H; subst.
  unfold capture; cbn [fst snd RECURRENCE_GLYPH map app skipn].
  destruct chs' as [|w [|cap chs']]; try reflexivity.
  cbn [skipn firstn concat nth]. rewrite app_nil_r.
  destruct cap; reflexivity.
Qed.

Lemma test_glyph_body (g lead : jsstring) (ms : list marker) :
  In g MARKER_GLYPHS -> plain lead -> Forall well_formed ms ->
  test (glyph_regex g) (body lead ms)
  = match find_text g ms with Some _ => true | None => false end.
Proof.
  intros Hg Hl Hms.
  pose proof (search_body g [] lead ms Hg Hl Hms) as H.
  rewrite app_nil_r in H.
  unfold test, find, glyph_regex; cbn [anchored atoms].
  assert (Hscan : match scan g [] ms with Some _ => true | None => false end
                  = match find_text g ms with
                    | Some _ => true
                    | None => false
                    end).
  { clear. induction ms as [|m ms IH]; [reflexivity|].
    cbn [scan find_text match_seq].
    destruct (str_eqb (glyph m) g); [reflexivity | exact IH]. }
  rewrite <- Hscan.
  destruct (search (lit g) (body lead ms)) as [[[pre chs] rest]|];
    destruct (scan g [] ms); try discriminate H; reflexivity.
Qed.

(** ** The checkbox *)

Lemma star_then (c : cls) (re : list atom) (w : jsstring) (x : code_unit)
      (s : jsstring) (r : matched) :
  forallb c w = true -> c x = false ->
  match_seq re (x :: s) = Some r ->
  match_seq (Star c :: re) (w ++ x :: s) = Some (w :: fst r, snd r).
Proof.
  intros Hw Hx Hr. rewrite match_seq_star.
  rewrite (star_greedy_longest c _ _ r).
  - rewrite takeWhile_app_all by exact Hw.
    rewrite takeWhile_stop by exact Hx. rewrite app_nil_r.
    destruct r; reflexivity.
  - rewrite dropWhile_app_all by exact Hw.
    now rewrite dropWhile_stop by exact Hx.
Qed.

Lemma match_seq_chr (c : cls) (re : list atom) (x : code_unit)
      (s : jsstring) :
  c x = true ->
  match_seq (Chr c :: re) (x :: s)
  = option_map (fun '(chs, rest) => ([x] :: chs, rest)) (match_seq re s).
Proof. intros H. cbn [match_seq]. now rewrite H. Qed.

Lemma dropWhile_idem (c : cls) (s : jsstring) :
  dropWhile c (dropWhile c s) = dropWhile c s.
Proof. apply dropWhile_fixed, dropWhile_head. Qed.

(** The checkbox pattern on a line that starts with a checkbox: the three
    groups are the checkbox, the status character, and the text after the
    whitespace that follows, up to the first line terminator. *)
Lemma checkbox_exec (indent gap b : jsstring) (bullet st : code_unit) :
  forallb is_space indent = true ->
  (bullet = 0x2D \/ bullet = 0x2A)%N ->
  forallb is_space gap = true ->
  is_line_terminator st = false ->
  exec TASK_CHECKBOX_REGEX
       (indent ++ bullet :: gap ++ [0x5B; st; 0x5D]%N ++ b)
  = Some [indent ++ bullet :: gap ++ [0x5B; st; 0x5D]%N; [st];
          takeWhile dot (dropWhile is_space b)].
Proof.
  intros Hi Hb Hg Hst.
  assert (Hbul : any_of [0x2D; 0x2A]%N bullet = true)
    by (destruct Hb as [-> | ->]; reflexivity).
  assert (Hbs : is_space bullet = false)
    by (destruct Hb as [-> | ->]; reflexivity).
  assert (H3 : match_seq [Chr (only 0x5B%N); Chr dot; Chr (only 0x5D%N);
                          Star is_space; Star dot]
                         (0x5B%N :: st :: 0x5D%N :: b)
               = Some ([[0x5B%N]; [st]; [0x5D%N]; takeWhile is_space b;
                        takeWhile dot (dropWhile is_space b)],
                       dropWhile dot (dropWhile is_space b))).
  { rewrite (match_seq_chr (only 0x5B%N) _ _ _ (N.eqb_refl _)).
    rewrite (match_seq_chr dot _ st _)
      by (unfold dot; now rewrite Hst).
    rewrite (match_seq_chr (only 0x5D%N) _ _ _ (N.eqb_refl _)).
    now rewrite two_stars. }
  pose proof (star_then is_space _ gap 0x5B%N _ _ Hg eq_refl H3) as H2.
  cbn [fst snd] in H2.
  assert (H1 : match_seq (Chr (any_of [0x2D; 0x2A]%N)
                            :: Star is_space
                            :: [Chr (only 0x5B%N); Chr dot; Chr (only 0x5D%N);
                                Star is_space; Star dot])
                         (bullet :: gap ++ 0x5B%N :: st :: 0x5D%N :: b)
               = Some ([bullet] :: gap
                         :: [[0x5B%N]; [st]; [0x5D%N]; takeWhile is_space b;
                             takeWhile dot (dropWhile is_space b)],
                       dropWhile dot (dropWhile is_space b))).
  { rewrite (match_seq_chr _ _ _ _ Hbul). now rewrite H2. }
  pose proof (star_then is_space _ indent _ _ _ Hi Hbs H1) as H0.
  cbn [fst snd] in H0.
  unfold exec, find, TASK_CHECKBOX_REGEX.
  cbn [anchored atoms groups app]. rewrite H0.
  unfold capture; cbn [map fst snd skipn firstn concat app].
  rewrite !app_nil_r. reflexivity.
Qed.

(** ** Order of the markers *)

Lemma marker_not_terminator (x : code_unit) :
  marker_unit x = true -> is_line_terminator x = false.
Proof.
  intros H. apply negb_true_iff.
  exact (any_of_forallb (fun y => negb (is_line_terminator y))
           MARKER_UNITS x eq_refl H).
Qed.

Lemma body_dot (lead : jsstring) (ms : list marker) :
  plain lead -> Forall well_formed ms ->
  forallb dot (body lead ms) = true.
Proof.
  intros [_ Hl] Hms. unfold body. rewrite forallb_app, Hl.
  cbn [andb].
  induction Hms as [|m ms [Hm [_ Ht]] _ IH]; [reflexivity|].
  cbn [map concat]. unfold render at 1. rewrite !forallb_app, IH.
  rewrite Ht.
  destruct (glyph_shape _ Hm) as (g0 & g' & _ & _ & _ & Hmark).
  rewrite (forallb_impl marker_unit dot (glyph m)); [reflexivity | | exact Hmark].
  intros x Hx. unfold dot. now rewrite (marker_not_terminator x Hx).
Qed.

Lemma parseTaskLine_total (line : jsstring) (n : nat) (content : jsstring) :
  taskContent line = Some content ->
  exists task, parseTaskLine line n = Some task.
Proof.
  unfold taskContent, parseTaskLine.
  destruct (exec TASK_CHECKBOX_REGEX line); [|discriminate].
  intros _. eexists; reflexivity.
Qed.

Ltac glyph_in := unfold MARKER_GLYPHS; simpl; tauto.

(** Plain text, decided by evaluation. *)
Lemma plain_check (s : jsstring) :
  forallb (fun g => negb (test (glyph_regex g) s)) MARKER_GLYPHS = true ->
  forallb dot s = true ->
  plain s.
Proof.
  intros Hg Hd. split; [|exact Hd]. intros g Hin.
  apply test_glyph_absent, negb_true_iff.
  rewrite forallb_forall in Hg. exact (Hg g Hin).
Qed.

Ltac plain_text := apply plain_check; vm_compute; reflexivity.
Ltac markers_well_formed :=
  repeat (apply Forall_cons; [split; [glyph_in | plain_text]|]);
  apply Forall_nil.

(** The content of a line that goes on behind a checkbox and ends at a
    line terminator. *)
Lemma checkbox_rest (head b : jsstring) :
  checkbox head ->
  taskContent (head ++ b)
  = Some (trim (takeWhile dot (dropWhile is_space b))).
Proof.
  intros (indent & bullet & gap & st & -> & Hi & Hb & Hg & Hst).
  replace ((indent ++ bullet :: gap ++ [0x5B; st; 0x5D]%N) ++ b)
    with (indent ++ bullet :: gap ++ [0x5B; st; 0x5D]%N ++ b)
    by (rewrite <- !app_assoc; cbn [app]; rewrite <- !app_assoc;
        reflexivity).
  unfold taskContent.
  now rewrite (checkbox_exec indent gap b bullet st Hi Hb Hg Hst).
Qed.

Lemma dropWhile_reaches (c : cls) (a : jsstring) (x : code_unit)
      (s : jsstring) :
  c x = false -> dropWhile c (a ++ x :: s) <> [].
Proof.
  intros Hx. induction a as [|y a IH]; simpl.
  - rewrite Hx. discriminate.
  - destruct (c y); [exact IH | discriminate].
Qed.

Lemma content_before_line_end (b tail : jsstring) :
  forallb dot b = true -> line_end tail -> dropWhile is_space b <> [] ->
  trim (takeWhile dot (dropWhile is_space (b ++ tail))) = trim b.
Proof.
  intros Hb Ht Hne.
  assert (Hd : forallb dot (dropWhile is_space b) = true)
    by now apply forallb_dropWhile.
  destruct (dropWhile is_space b) as [|y q] eqn:E;
    [contradiction Hne; reflexivity|].
  destruct (dropWhile_app_cons _ _ tail _ _ E) as [-> _].
  change (y :: q ++ tail) with ((y :: q) ++ tail).
  rewrite takeWhile_app_end.
  - rewrite (takeWhile_all_id dot _ Hd), <- E. apply dropWhile_trim.
  - destruct tail as [|x tail]; [exact I|]. unfold dot.
    simpl in Ht. now rewrite Ht.
Qed.

(** Markers leave something behind the checkbox that is not whitespace. *)
Lemma body_not_blank (lead : jsstring) (ms : list marker) :
  Forall well_formed ms -> ms <> [] ->
  dropWhile is_space (body lead ms) <> [].
Proof.
  intros Hms Hne. destruct Hms as [|m ms [Hm _] _];
    [contradiction Hne; reflexivity|].
  destruct (glyph_shape _ Hm) as (g0 & g' & E & _ & Hns & _).
  unfold body. cbn [map concat]. unfold render at 1. rewrite E.
  rewrite E in Hns. cbn [forallb] in Hns.
  apply andb_true_iff in Hns as [H0 _]. apply negb_true_iff in H0.
  cbn [app]. rewrite <- !app_assoc. cbn [app].
  now apply dropWhile_reaches.
Qed.

(** What a line stores: each date field is read off the first marker with its
    glyph whose text starts with a date, the recurrence off the first marker
    with the recurrence glyph, the priority off the glyphs that are there. *)
Lemma fields_of_markers (head lead tail : jsstring) (ms : list marker)
      (n : nat) :
  checkbox head -> plain lead -> Forall well_formed ms -> ms <> [] ->
  line_end tail ->
  exists t,
    parseTaskLine (head ++ body lead ms ++ tail) n = Some t
    /\ dueDate t = first_date DUE_GLYPH ms
    /\ scheduledDate t = first_date SCHEDULED_GLYPH ms
    /\ startDate t = first_date START_GLYPH ms
    /\ createdDate t = first_date CREATED_GLYPH ms
    /\ doneDate t = first_date DONE_GLYPH ms
    /\ recurrence t
       = match find_text RECURRENCE_GLYPH ms with
         | Some v => recurrence_value v
         | None => None
         end
    /\ priority t = lookup_priority ms.
Proof.
  intros Hh Hl Hms Hne Ht.
  assert (Hc : taskContent (head ++ body lead ms ++ tail)
               = Some (trim (body lead ms))).
  { rewrite (checkbox_rest head _ Hh). f_equal.
    apply content_before_line_end;
      [now apply body_dot | exact Ht | now apply body_not_blank]. }
  destruct (parseTaskLine_total _ n _ Hc) as (t & Hp).
  exists t. split; [exact Hp|].
  destruct (parseTaskLine_fields _ _ _ _ Hp Hc)
    as (-> & -> & -> & -> & -> & Hrec & -> & _).
  unfold DUE_DATE_REGEX, SCHEDULED_DATE_REGEX, START_DATE_REGEX,
    CREATED_DATE_REGEX, DONE_DATE_REGEX.
  rewrite !date_regex_trim by glyph_in.
  rewrite !extract_date_body by (first [glyph_in | assumption]).
  repeat (split; [reflexivity|]). split.
  - change (recurrence t = recurrence_field (trim (body lead ms))) in Hrec.
    rewrite Hrec, recurrence_field_trim.
    now apply recurrence_field_body.
  - rewrite extractPriority_trim.
    unfold extractPriority, lookup_priority, has_glyph,
      PRIORITY_HIGHEST_REGEX, PRIORITY_HIGH_REGEX, PRIORITY_MEDIUM_REGEX,
      PRIORITY_LOW_REGEX, PRIORITY_LOWEST_REGEX.
    rewrite !test_glyph_body by (first [glyph_in | assumption]).
    reflexivity.
Qed.

(** ** Rearranging the markers *)

Lemma first_date_carriers (g : jsstring) (ms : list marker) :
  first_date g ms
  = first_date g (filter (fun m => str_eqb (glyph m) g) ms).
Proof.
  induction ms as [|m ms IH]; [reflexivity|]. cbn [first_date filter].
  destruct (str_eqb (glyph m) g) eqn:E; [|exact IH].
  cbn [first_date]. rewrite E, IH. reflexivity.
Qed.

Lemma find_text_carriers (g : jsstring) (ms : list marker) :
  find_text g ms = find_text g (filter (fun m => str_eqb (glyph m) g) ms).
Proof.
  induction ms as [|m ms IH]; [reflexivity|]. cbn [find_text filter].
  destruct (str_eqb (glyph m) g) eqn:E; [|exact IH].
  cbn [find_text]. now rewrite E.
Qed.

Lemma carries_value_glyph (g : jsstring) (m : marker) :
  In g VALUE_GLYPHS -> str_eqb (glyph m) g = true -> carries_value m = true.
Proof.
  intros Hg E. unfold carries_value. apply existsb_exists.
  exists g. split; assumption.
Qed.

Lemma no_carrier (g : jsstring) (ms : list marker) :
  In g VALUE_GLYPHS ->
  ~ In g (map glyph (filter carries_value ms)) ->
  filter (fun m => str_eqb (glyph m) g) ms = [].
Proof.
  intros Hg. induction ms as [|m ms IH]; intros Hno; [reflexivity|].
  cbn [filter] in *. destruct (str_eqb (glyph m) g) eqn:E.
  - exfalso. apply Hno. rewrite (carries_value_glyph g m Hg E).
    apply str_eqb_eq in E. left. exact E.
  - apply IH. intros Hin. apply Hno.
    destruct (carries_value m); [now right | exact Hin].
Qed.

(** No two markers carry the same value glyph: at most one carries [g]. *)
Lemma carriers_at_most_one (g : jsstring) (ms : list marker) :
  In g VALUE_GLYPHS ->
  NoDup (map glyph (filter carries_value ms)) ->
  length (filter (fun m => str_eqb (glyph m) g) ms) <= 1.
Proof.
  intros Hg. induction ms as [|m ms IH]; intros Hnd; [simpl; lia|].
  cbn [filter] in *.
  destruct (str_eqb (glyph m) g) eqn:E.
  - rewrite (carries_value_glyph g m Hg E) in Hnd. cbn [map] in Hnd.
    inversion Hnd as [|? ? Hno _]; subst.
    apply str_eqb_eq in E. rewrite E in Hno.
    rewrite (no_carrier g ms Hg Hno). simpl. lia.
  - apply IH. destruct (carries_value m); [|exact Hnd].
    cbn [map] in Hnd. now inversion Hnd.
Qed.

Lemma perm_short (A : Type) (l l' : list A) :
  length l <= 1 -> Permutation l l' -> l = l'.
Proof.
  destruct l as [|a [|b l]]; simpl; intros Hlen Hp.
  - symmetry. now apply Permutation_nil.
  - symmetry. now apply Permutation_length_1_inv.
  - lia.
Qed.

Lemma carriers_perm (g : jsstring) (ms ms' : list marker) :
  In g VALUE_GLYPHS ->
  NoDup (map glyph (filter carries_value ms)) ->
  Permutation ms ms' ->
  filter (fun m => str_eqb (glyph m) g) ms
  = filter (fun m => str_eqb (glyph m) g) ms'.
Proof.
  intros Hg Hnd Hp. apply perm_short.
  - now apply carriers_at_most_one.
  - now apply filter_perm.
Qed.

Lemma has_glyph_In (g : jsstring) (ms : list marker) :
  has_glyph g ms = true <-> In g (map glyph ms).
Proof.
  unfold has_glyph. induction ms as [|m ms IH]; cbn [find_text map In].
  - split; [discriminate | contradiction].
  - destruct (str_eqb (glyph m) g) eqn:E.
    + apply str_eqb_eq in E. split; [now left | reflexivity].
    + apply str_eqb_neq in E. rewrite IH. split; [now right|].
      intros [H|H]; [contradiction (E H) | exact H].
Qed.

(** Whether a glyph is there does not depend on the order. *)
Lemma has_glyph_perm (g : jsstring) (ms ms' : list marker) :
  Permutation ms ms' -> has_glyph g ms = has_glyph g ms'.
Proof.
  intros Hp. pose proof (has_glyph_In g ms) as H.
  pose proof (has_glyph_In g ms') as H'.
  pose proof (Permutation_map glyph Hp) as Hg.
  destruct (has_glyph g ms), (has_glyph g ms'); try reflexivity.
  - assert (Hin : In g (map glyph ms)) by now apply H.
    apply (Permutation_in _ Hg), H' in Hin. discriminate Hin.
  - assert (Hin : In g (map glyph ms')) by now apply H'.
    apply (Permutation_in _ (Permutation_sym Hg)), H in Hin.
    discriminate Hin.
Qed.

Ltac value_glyph := unfold VALUE_GLYPHS; simpl; tauto.

(** C8, as stated, fails: with two due dates on a line, swapping them changes
    the due date the line stores. *)
Lemma order_matters_for_repeated_glyph :
  ~ order_independent (fun _ => True).
Proof.
  intros H.
  destruct (H (js "- [ ]") (js " ") two_due_dates two_due_dates_swapped 0)
    as (t & t' & Ht & Ht' & Hsame & _).
  - exists [], 0x2D%N, [0x20%N], 0x20%N. repeat split; auto.
  - plain_text.
  - markers_well_formed.
  - exact I.
  - apply perm_swap.
  - vm_compute in Ht, Ht'. inversion Ht; inversion Ht'; subst.
    discriminate Hsame.
Qed.

(** The two restrictions the amended statement keeps are needed: with the
    recurrence glyph on two markers the first one decides, and a line
    terminator inside a marker text cuts the content where it stands. *)
Example order_matters_for_two_recurrences :
  option_map recurrence
    (parseTaskLine (js "- [ ] 🔁 every week 🔁 every day") 0)
  = Some (Some (js "every week"))
  /\ option_map recurrence
       (parseTaskLine (js "- [ ] 🔁 every day 🔁 every week") 0)
     = Some (Some (js "every day")).
Proof. split; vm_compute; reflexivity. Qed.

Example order_matters_across_a_line_terminator :
  option_map priority
    (parseTaskLine
       (js "- [ ] 📅 2025-01-01 " ++ [0x2028%N] ++ js "⏫") 0)
  = Some None
  /\ option_map priority
       (parseTaskLine
          (js "- [ ] ⏫📅 2025-01-01 " ++ [0x2028%N]) 0)
     = Some (Some (js "high")).
Proof. split; vm_compute; reflexivity. Qed.

(** C8, amended: on a task line made of a checkbox, a lead text, markers
    and then the end of the line or a line terminator, where the lead and the
    marker texts hold no marker glyph and no line terminator and no two
    markers carry the same date glyph or both the recurrence glyph, every
    permutation of the markers, each kept with its text, parses to the same
    date fields, recurrence and priority.  A priority glyph may be carried
    by several markers. *)
Theorem extraction_order_independent :
  forall (head lead tail : jsstring) (ms ms' : list marker) (n : nat),
    checkbox head -> plain lead -> Forall well_formed ms ->
    NoDup (map glyph (filter carries_value ms)) ->
    line_end tail ->
    Permutation ms ms' ->
    exists t t',
      parseTaskLine (head ++ body lead ms ++ tail) n = Some t
      /\ parseTaskLine (head ++ body lead ms' ++ tail) n = Some t'
      /\ same_extraction t t'.
Proof.
  intros head lead tail ms ms' n Hh Hl Hms Hnd Ht Hp.
  destruct ms as [|m0 ms0] eqn:Ems.
  - apply Permutation_nil in Hp. subst ms'.
    destruct (parseTaskLine_total _ n _ (checkbox_rest head
                                           (body lead [] ++ tail) Hh))
      as (t & Hpt).
    exists t, t. repeat split; try exact Hpt; reflexivity.
  - rewrite <- Ems in *.
    assert (Hne : ms <> []) by (rewrite Ems; discriminate).
    assert (Hne' : ms' <> []).
    { intros E. rewrite E in Hp. apply Permutation_sym, Permutation_nil in Hp.
      contradiction (Hne Hp). }
    assert (Hms' : Forall well_formed ms')
      by exact (Permutation_Forall Hp Hms).
    destruct (fields_of_markers head lead tail ms n Hh Hl Hms Hne Ht)
      as (t & Hpt & D1 & D2 & D3 & D4 & D5 & R & P).
    destruct (fields_of_markers head lead tail ms' n Hh Hl Hms' Hne' Ht)
      as (t' & Hpt' & D1' & D2' & D3' & D4' & D5' & R' & P').
    exists t, t'. split; [exact Hpt|]. split; [exact Hpt'|].
    unfold same_extraction.
    rewrite D1, D2, D3, D4, D5, R, P, D1', D2', D3', D4', D5', R', P'.
    rewrite (first_date_carriers DUE_GLYPH ms),
      (first_date_carriers DUE_GLYPH ms'),
      (first_date_carriers SCHEDULED_GLYPH ms),
      (first_date_carriers SCHEDULED_GLYPH ms'),
      (first_date_carriers START_GLYPH ms),
      (first_date_carriers START_GLYPH ms'),
      (first_date_carriers CREATED_GLYPH ms),
      (first_date_carriers CREATED_GLYPH ms'),
      (first_date_carriers DONE_GLYPH ms),
      (first_date_carriers DONE_GLYPH ms'),
      (find_text_carriers RECURRENCE_GLYPH ms),
      (find_text_carriers RECURRENCE_GLYPH ms').
    rewrite (carriers_perm DUE_GLYPH ms ms'),
      (carriers_perm SCHEDULED_GLYPH ms ms'),
      (carriers_perm START_GLYPH ms ms'),
      (carriers_perm CREATED_GLYPH ms ms'),
      (carriers_perm DONE_GLYPH ms ms'),
      (carriers_perm RECURRENCE_GLYPH ms ms')
      by (first [value_glyph | assumption]).
    unfold lookup_priority.
    rewrite !(has_glyph_perm _ ms ms' Hp).
    repeat split; reflexivity.
Qed.

Lemma extraction_order_independent_witness :
  exists t t',
    parseTaskLine
      (js "- [ ]" ++ body (js " Water plants 🌱 ") repeated_priority
          ++ [0x0D%N]) 0
    = Some t
    /\ parseTaskLine
         (js "- [ ]" ++ body (js " Water plants 🌱 ")
                             repeated_priority_rearranged ++ [0x0D%N]) 0
       = Some t'
    /\ same_extraction t t'.
Proof.
  apply (extraction_order_independent (js "- [ ]") (js " Water plants 🌱 ")
           [0x0D%N] repeated_priority repeated_priority_rearranged 0).
  - exists [], 0x2D%N, [0x20%N], 0x20%N. repeat split; auto.
  - plain_text.
  - markers_well_formed.
  - vm_compute. repeat constructor; simpl; intuition discriminate.
  - reflexivity.
  - unfold repeated_priority, repeated_priority_rearranged.
    apply (Permutation_app_comm
             [ {| glyph := HIGH_GLYPH; text := js " soon " |};
               {| glyph := RECURRENCE_GLYPH;
                  text := js " every week 🎉 party " |} ]
             [ {| glyph := DUE_GLYPH; text := js " 2025-05-01 " |};
               {| glyph := HIGH_GLYPH; text := [] |} ]).
Defined.

(** ** Scenarios of the specification *)

Example scenario_round_trip :
  processFile round_trip_settings round_trip_document
  = [{| key := js "next"; upd_value := js "2025-04-10";
        overwriteExisting := true |}].
Proof. vm_compute. reflexivity. Qed.

Example scenario_percentage_done :
  executeOperation (firstn 5 eight_tasks) (js "status") (js "percentage_done")
  = Some (js "60").
Proof. vm_compute. reflexivity. Qed.

Example scenario_count_open :
  executeOperation eight_tasks (js "status") (js "count_open")
  = Some (js "5").
Proof. vm_compute. reflexivity. Qed.

Example scenario_recurrence_then_due :
  recurrence weekly_task = Some (js "every week")
  /\ dueDate weekly_task = Some (js "2025-05-01")
  /\ description weekly_task = [].
Proof. vm_compute. repeat split; reflexivity. Qed.

Example scenario_checkbox_is_anchored :
  parseTaskLine (js "see - [ ] x") 0 = None
  /\ option_map status (parseTaskLine (js "   * [/] started") 4)
     = Some (js "/").
Proof. vm_compute. split; reflexivity. Qed.

(* ================================================================== *)
(** * Part III: further properties of the code *)
(* ================================================================== *)

(** ** The lines of a document *)

Lemma split_lines_cons (s cur : jsstring) :
  exists l ls, split_lines cur s = l :: ls.
Proof.
  revert cur; induction s as [|x s IH]; intros cur; simpl.
  - eexists; eexists; reflexivity.
  - destruct (x =? 10)%N; [eexists; eexists; reflexivity | apply IH].
Qed.

Lemma join_cons (sep p : jsstring) (q : jsstring) (ps : list jsstring) :
  join sep (p :: q :: ps) = p ++ sep ++ join sep (q :: ps).
Proof. reflexivity. Qed.

Lemma join_split_lines (s : jsstring) :
  forall cur, join [0x0A%N] (split_lines cur s) = rev cur ++ s.
Proof.
  induction s as [|x s IH]; intros cur; simpl.
  - now rewrite app_nil_r.
  - destruct (N.eqb_spec x 10) as [->|Hx].
    + destruct (split_lines_cons s []) as (l & ls & E).
      pose proof (IH []) as H. rewrite E in *. rewrite join_cons, H.
      reflexivity.
    + rewrite IH. simpl. now rewrite <- app_assoc.
Qed.

Lemma split_lines_no_line_feed (s : jsstring) :
  forall cur,
    forallb (fun c => negb (c =? 0x0A)%N) cur = true ->
    Forall (fun l => forallb (fun c => negb (c =? 0x0A)%N) l = true)
           (split_lines cur s).
Proof.
  induction s as [|x s IH]; intros cur Hcur; simpl.
  - constructor; [|constructor]. now rewrite forallb_rev.
  - destruct (N.eqb_spec x 10) as [->|Hx].
    + constructor; [now rewrite forallb_rev | now apply IH].
    + apply IH. simpl. apply N.eqb_neq in Hx. now rewrite Hx, Hcur.
Qed.

(** X1: the lines [parseTasks] reads are the content cut at its line feeds:
    joined by line feeds they give the content back, and no line holds a line
    feed. *)
Theorem lines_restore_content :
  forall content : jsstring,
    join [0x0A%N] (split_lines [] content) = content
    /\ Forall (fun l => forallb (fun c => negb (c =? 0x0A)%N) l = true)
              (split_lines [] content).
Proof.
  intros content. split.
  - apply (join_split_lines content []).
  - now apply split_lines_no_line_feed.
Qed.

Lemma parseTaskLine_provenance (l : jsstring) (n : nat) (t : ParsedTask) :
  parseTaskLine l n = Some t -> line t = l /\ lineNumber t = n.
Proof.
  unfold parseTaskLine. destruct (exec TASK_CHECKBOX_REGEX l); [|discriminate].
  intros H; inversion H; split; reflexivity.
Qed.

Lemma parse_lines_In (lines : list jsstring) :
  forall i t,
    In t (parse_lines lines i)
    <-> exists j, j < length lines
                  /\ parseTaskLine (nth j lines []) (i + j) = Some t.
Proof.
  induction lines as [|l ls IH]; intros i t; simpl.
  - split; [contradiction | intros (j & Hj & _); lia].
  - assert (Hrest : In t (parse_lines ls (S i))
                    <-> exists j, S j < S (length ls)
                                  /\ parseTaskLine (nth j ls []) (i + S j)
                                     = Some t).
    { rewrite IH. split; intros (j & Hj & H); exists j;
        (split; [lia|]); now replace (i + S j) with (S i + j) in * by lia. }
    split.
    + intros Hin.
      assert (Hcase : parseTaskLine l i = Some t
                      \/ In t (parse_lines ls (S i))).
      { destruct (parseTaskLine l i) as [t0|]; [|now right].
        destruct Hin as [->|Hin]; [now left | now right]. }
      destruct Hcase as [H|H].
      * exists 0. split; [lia|]. now rewrite Nat.add_0_r.
      * apply Hrest in H as (j & Hj & H). exists (S j). now split.
    + intros ([|j] & Hj & H).
      * rewrite Nat.add_0_r in H. rewrite H. now left.
      * assert (Hin : In t (parse_lines ls (S i)))
          by (apply Hrest; exists j; now split).
        destruct (parseTaskLine l i); [now right | exact Hin].
Qed.

Lemma parse_lines_ascending (lines : list jsstring) :
  forall i,
    StronglySorted lt (map lineNumber (parse_lines lines i))
    /\ Forall (fun n => i <= n) (map lineNumber (parse_lines lines i)).
Proof.
  induction lines as [|l ls IH]; intros i; simpl.
  - split; constructor.
  - destruct (IH (S i)) as [Hs Hb].
    assert (Hb' : Forall (fun n => i <= n)
                         (map lineNumber (parse_lines ls (S i))))
      by (eapply Forall_impl; [|exact Hb]; simpl; intros; lia).
    destruct (parseTaskLine l i) as [t|] eqn:E; [|now split].
    apply parseTaskLine_provenance in E as [_ En]. simpl.
    split; constructor; try assumption; try lia.
    rewrite En. eapply Forall_impl; [|exact Hb]. simpl; intros; lia.
Qed.

(** X2: [parseTasks] returns exactly the task records of the lines the
    checkbox pattern accepts, each with its line and the index of that line,
    in the order of the lines. *)
Theorem parseTasks_by_line :
  forall content : jsstring,
    let lines := split_lines [] content in
    (forall t, In t (parseTasks content)
               <-> exists j, j < length lines
                             /\ parseTaskLine (nth j lines []) j = Some t)
    /\ (forall t, In t (parseTasks content) ->
                  lineNumber t < length lines
                  /\ line t = nth (lineNumber t) lines [])
    /\ StronglySorted lt (map lineNumber (parseTasks content)).
Proof.
  intros content lines. unfold parseTasks. fold lines.
  split; [|split].
  - intros t. apply (parse_lines_In lines 0 t).
  - intros t Hin. apply (parse_lines_In lines 0 t) in Hin as (j & Hj & H).
    simpl in H. apply parseTaskLine_provenance in H as [Hl Hn].
    rewrite Hn. split; [exact Hj | exact Hl].
  - apply (parse_lines_ascending lines 0).
Qed.

(** ** The shape of a task line *)

Lemma match_seq_chr_inv (c : cls) (re : list atom) (s : jsstring)
      (chs : list jsstring) (rest : jsstring) :
  match_seq (Chr c :: re) s = Some (chs, rest) ->
  exists x s' chs',
    s = x :: s' /\ c x = true /\ chs = [x] :: chs'
    /\ match_seq re s' = Some (chs', rest).
Proof.
  cbn [match_seq]. destruct s as [|x s]; [discriminate|].
  destruct (c x) eqn:E; [|discriminate].
  destruct (match_seq re s) as [[chs' rest']|] eqn:Em; simpl; intros H;
    inversion H; subst.
  exists x, s, chs'. repeat split; auto.
Qed.

Lemma match_seq_star_inv (c : cls) (re : list atom) (s : jsstring)
      (chs : list jsstring) (rest : jsstring) :
  match_seq (Star c :: re) s = Some (chs, rest) ->
  exists w s' chs',
    s = w ++ s' /\ forallb c w = true /\ chs = w :: chs'
    /\ match_seq re s' = Some (chs', rest).
Proof.
  rewrite match_seq_star.
  destruct (star_greedy c (match_seq re) s) as [[w [chs' rest']]|] eqn:E;
    simpl; intros H; inversion H; subst.
  apply star_greedy_inv in E as (Hw & s' & -> & Hk).
  exists w, s', chs'. repeat split; auto.
Qed.

Lemma checkbox_exec_inv (l : jsstring) (m : list jsstring) :
  exec TASK_CHECKBOX_REGEX l = Some m ->
  exists indent bullet gap st b,
    l = indent ++ bullet :: gap ++ [0x5B; st; 0x5D]%N ++ b
    /\ forallb is_space indent = true
    /\ (bullet = 0x2D \/ bullet = 0x2A)%N
    /\ forallb is_space gap = true
    /\ is_line_terminator st = false.
Proof.
  unfold exec, find, TASK_CHECKBOX_REGEX. cbn [anchored atoms groups].
  destruct (match_seq _ l) as [[chs rest]|] eqn:E; [|discriminate].
  intros _.
  apply match_seq_star_inv in E as (indent & s1 & c1 & -> & Hi & _ & E).
  apply match_seq_chr_inv in E as (bullet & s2 & c2 & -> & Hb & _ & E).
  apply match_seq_star_inv in E as (gap & s3 & c3 & -> & Hg & _ & E).
  apply match_seq_chr_inv in E as (o & s4 & c4 & -> & Ho & _ & E).
  apply match_seq_chr_inv in E as (st & s5 & c5 & -> & Hst & _ & E).
  apply match_seq_chr_inv in E as (cl & s6 & c6 & -> & Hcl & _ & E).
  unfold only in Ho, Hcl. apply N.eqb_eq in Ho, Hcl. subst o cl.
  exists indent, bullet, gap, st, s6. repeat split; try assumption.
  - unfold any_of in Hb. simpl in Hb. rewrite orb_false_r in Hb.
    apply orb_true_iff in Hb as [Hb|Hb]; apply N.eqb_eq in Hb; auto.
  - unfold dot in Hst. now apply negb_true_iff in Hst.
Qed.

(** X3: a line gives a task exactly when it starts with a checkbox:
    whitespace, a dash or an asterisk, whitespace, and a status character
    other than a line terminator between square brackets.  Anything may
    follow. *)
Theorem task_line_iff_checkbox :
  forall (l : jsstring) (n : nat),
    (exists t, parseTaskLine l n = Some t)
    <-> (exists head rest, l = head ++ rest /\ checkbox head).
Proof.
  intros l n. split.
  - intros (t & Ht). unfold parseTaskLine in Ht.
    destruct (exec TASK_CHECKBOX_REGEX l) as [m|] eqn:E; [|discriminate].
    apply checkbox_exec_inv in E
      as (indent & bullet & gap & st & b & -> & Hi & Hb & Hg & Hst).
    exists (indent ++ bullet :: gap ++ [0x5B; st; 0x5D]%N), b. split.
    + rewrite <- !app_assoc. cbn [app]. rewrite <- !app_assoc. reflexivity.
    + exists indent, bullet, gap, st. repeat split; auto.
  - intros (head & rest & -> & indent & bullet & gap & st & -> & Hi & Hb
            & Hg & Hst).
    pose proof (checkbox_exec indent gap rest bullet st Hi Hb Hg Hst) as E.
    replace ((indent ++ bullet :: gap ++ [0x5B; st; 0x5D]%N) ++ rest)
      with (indent ++ bullet :: gap ++ [0x5B; st; 0x5D]%N ++ rest)
      by (rewrite <- !app_assoc; cbn [app]; rewrite <- !app_assoc;
          reflexivity).
    unfold parseTaskLine. rewrite E. eexists; reflexivity.
Qed.

(** X4: what the record of a task line holds: the status is the character
    between the brackets, the task is done exactly for [x] and [X], and the
    description, the priority and the dates are read off the text that
    follows the checkbox, cut at the first line terminator after its leading
    whitespace, and trimmed. *)
Theorem task_line_record :
  forall (indent gap rest : jsstring) (bullet st : code_unit) (n : nat),
    forallb is_space indent = true ->
    (bullet = 0x2D \/ bullet = 0x2A)%N ->
    forallb is_space gap = true ->
    is_line_terminator st = false ->
    exists t,
      parseTaskLine (indent ++ bullet :: gap ++ [0x5B; st; 0x5D]%N ++ rest) n
      = Some t
      /\ status t = [st]
      /\ (isDone t = true <-> (st = 0x78 \/ st = 0x58)%N)
      /\ taskContent (indent ++ bullet :: gap ++ [0x5B; st; 0x5D]%N ++ rest)
         = Some (trim (takeWhile dot (dropWhile is_space rest)))
      /\ description t
         = extractDescription (trim (takeWhile dot (dropWhile is_space rest)))
      /\ priority t
         = extractPriority (trim (takeWhile dot (dropWhile is_space rest)))
      /\ dueDate t
         = extractMatch (trim (takeWhile dot (dropWhile is_space rest)))
                        DUE_DATE_REGEX.
Proof.
  intros indent gap rest bullet st n Hi Hb Hg Hst.
  pose proof (checkbox_exec indent gap rest bullet st Hi Hb Hg Hst) as E.
  unfold parseTaskLine, taskContent. rewrite E. cbn [nth].
  eexists. split; [reflexivity|]. cbn [status isDone description priority
                                         dueDate].
  repeat split; try reflexivity.
  - intros H. apply orb_true_iff in H as [H|H]; apply str_eqb_eq in H;
      inversion H; auto.
  - intros [-> | ->]; reflexivity.
Qed.

Lemma task_line_record_witness :
  exists t,
    parseTaskLine shipping_line 3 = Some t
    /\ status t = js "X"
    /\ isDone t = true
    /\ taskContent shipping_line = Some (js "Ship it ⏫ 📅 2025-06-01")
    /\ dueDate t = Some (js "2025-06-01").
Proof.
  destruct (task_line_record (js "  ") (js " ") shipping_rest 0x2A%N 0x58%N 3)
    as (t & Ht & Hs & Hd & Hc & _ & _ & Hdue).
  - reflexivity.
  - right; reflexivity.
  - reflexivity.
  - reflexivity.
  - exists t. split; [exact Ht|]. split; [exact Hs|].
    split; [apply Hd; right; reflexivity|].
    split; [etransitivity; [exact Hc | vm_compute; reflexivity]|].
    etransitivity; [exact Hdue | vm_compute; reflexivity].
Defined.

(** ** The dates a task stores *)

Lemma match_classes_length (cs : list cls) :
  forall u, match_classes cs u = true -> length cs <= length u.
Proof.
  induction cs as [|c cs IH]; intros u H; simpl; [lia|].
  destruct u as [|x u]; [discriminate|]. simpl in *.
  apply andb_true_iff in H as [_ H]. specialize (IH u H). lia.
Qed.

Lemma match_classes_firstn (cs : list cls) :
  forall u, match_classes cs u = true ->
            match_classes cs (firstn (length cs) u) = true.
Proof.
  induction cs as [|c cs IH]; intros u H; [reflexivity|].
  destruct u as [|x u]; [discriminate|]. simpl in *.
  apply andb_true_iff in H as [Hx H]. now rewrite Hx, (IH u H).
Qed.

(** Where a date pattern matches, its group is a date that stands in the
    text after the glyph and the whitespace that follows it. *)
Lemma extractMatch_date_inv (g s d : jsstring) :
  extractMatch s (date_regex g) = Some d ->
  date_shaped d
  /\ exists pre ws post,
       s = pre ++ g ++ ws ++ d ++ post /\ forallb is_space ws = true.
Proof.
  unfold extractMatch, exec, find, date_regex. cbn [anchored atoms groups].
  destruct (search _ s) as [[[pre chs] rest]|] eqn:E; [|discriminate].
  cbn [map nth]. intros H. injection H as H.
  apply search_inv in E as (m & -> & Hm & _).
  destruct (match_seq_lit_app_inv _ _ _ _ Hm) as (t & ->).
  rewrite match_seq_lit_app in Hm.
  destruct (match_seq (Star is_space :: date_atoms) t) as [[chs' rest']|]
    eqn:Et; [|discriminate].
  cbn [option_map] in Hm. injection Hm as <- <-.
  apply match_seq_star_inv in Et as (w & t' & chs'' & -> & Hw & -> & Et).
  change date_atoms with (map Chr DATE_CLASSES) in Et.
  rewrite match_classes_spec in Et.
  destruct (match_classes DATE_CLASSES t') eqn:Ec; [|discriminate].
  pose proof (match_classes_length _ _ Ec) as Hlen.
  pose proof (match_classes_firstn _ _ Ec) as Hshape.
  pose proof (firstn_skipn (length DATE_CLASSES) t') as Hcut.
  remember (firstn (length DATE_CLASSES) t') as date eqn:Edate.
  remember (skipn (length DATE_CLASSES) t') as post eqn:Epost.
  assert (Hd : length date = 10)
    by (rewrite Edate, length_firstn; apply Nat.min_l; exact Hlen).
  clear Edate Epost. injection Et as <- <-.
  unfold capture in H. cbn [fst snd] in H. rewrite skipn_singles in H.
  cbn [skipn] in H.
  rewrite firstn_all2 in H by (rewrite length_map, Hd; lia).
  rewrite concat_singles in H. subst d.
  split; [split; assumption|].
  exists pre, w, post. split; [|exact Hw]. now rewrite Hcut.
Qed.

Lemma parseTaskLine_content (l : jsstring) (n : nat) (t : ParsedTask) :
  parseTaskLine l n = Some t -> exists content, taskContent l = Some content.
Proof.
  unfold parseTaskLine, taskContent.
  destruct (exec TASK_CHECKBOX_REGEX l); [|discriminate].
  intros _. eexists; reflexivity.
Qed.

(** X5: a date field of a task, when set, is a date (four digits, a dash,
    two digits, a dash, two digits), and it stands in the task content right
    after the glyph of the field and optional whitespace. *)
Theorem stored_dates_are_dates :
  forall (l : jsstring) (n : nat) (t : ParsedTask) (content : jsstring),
    parseTaskLine l n = Some t ->
    taskContent l = Some content ->
    forall g d,
      In (g, Some d)
         [(DUE_GLYPH, dueDate t); (SCHEDULED_GLYPH, scheduledDate t);
          (START_GLYPH, startDate t); (CREATED_GLYPH, createdDate t);
          (DONE_GLYPH, doneDate t)] ->
      date_shaped d
      /\ exists pre ws post,
           content = pre ++ g ++ ws ++ d ++ post
           /\ forallb is_space ws = true.
Proof.
  intros l n t content Hp Hc g d Hin.
  destruct (parseTaskLine_fields _ _ _ _ Hp Hc)
    as (D1 & D2 & D3 & D4 & D5 & _).
  cbn [In] in Hin.
  destruct Hin as [E|[E|[E|[E|[E|[]]]]]]; injection E as <- Ed.
  - rewrite D1 in Ed. exact (extractMatch_date_inv _ _ _ Ed).
  - rewrite D2 in Ed. exact (extractMatch_date_inv _ _ _ Ed).
  - rewrite D3 in Ed. exact (extractMatch_date_inv _ _ _ Ed).
  - rewrite D4 in Ed. exact (extractMatch_date_inv _ _ _ Ed).
  - rewrite D5 in Ed. exact (extractMatch_date_inv _ _ _ Ed).
Qed.

Lemma stored_dates_are_dates_witness :
  date_shaped (js "2025-06-01")
  /\ exists pre ws post,
       shipping_content = pre ++ DUE_GLYPH ++ ws ++ js "2025-06-01" ++ post
       /\ forallb is_space ws = true.
Proof.
  apply (stored_dates_are_dates shipping_line 3 shipping_task
           shipping_content).
  - vm_compute; reflexivity.
  - vm_compute; reflexivity.
  - left. reflexivity.
Defined.

(** ** The recurrence a task stores *)

Lemma trim_head (s : jsstring) :
  match trim s with [] => True | x :: _ => is_space x = false end.
Proof.
  destruct (trimEnd_split (trimStart s)) as (w & Hs & _).
  fold (trim s) in Hs. pose proof (dropWhile_head is_space s) as Hh.
  fold (trimStart s) in Hh. rewrite Hs in Hh.
  destruct (trim s); [exact I | exact Hh].
Qed.

Lemma trimEnd_idem (s : jsstring) : trimEnd (trimEnd s) = trimEnd s.
Proof.
  unfold trimEnd. rewrite rev_involutive. now rewrite dropWhile_idem.
Qed.

Lemma trim_idem (s : jsstring) : trim (trim s) = trim s.
Proof.
  unfold trim at 1. unfold trimStart.
  rewrite (dropWhile_fixed is_space (trim s) (trim_head s)).
  unfold trim. apply trimEnd_idem.
Qed.

Lemma extractMatch_recurrence_inv (s cap : jsstring) :
  extractMatch s RECURRENCE_REGEX = Some cap ->
  exists pre t,
    s = pre ++ RECURRENCE_GLYPH ++ t
    /\ cap = takeWhile (none_of RECURRENCE_STOP) (dropWhile is_space t).
Proof.
  intros H.
  destruct (search (lit RECURRENCE_GLYPH) s) as [[[pre chs] rest]|] eqn:E.
  - apply search_first_at in E as [-> Hf].
    rewrite (extractMatch_recurrence _ _ Hf) in H. injection H as <-.
    exists pre, rest. split; reflexivity.
  - pose proof (search_lit_spec RECURRENCE_GLYPH s) as Hno.
    rewrite E in Hno.
    unfold extractMatch, exec, find, RECURRENCE_REGEX in H.
    cbn [anchored atoms] in H.
    rewrite (search_no_occurrence _ _ _ Hno) in H. discriminate H.
Qed.

(** X6: a recurrence a task stores is never the empty string, carries no
    whitespace at either end, holds no code unit of the class that ends the
    capture, and stands in the task content after the recurrence glyph and
    optional whitespace. *)
Theorem stored_recurrence_shape :
  forall (l : jsstring) (n : nat) (t : ParsedTask) (content r : jsstring),
    parseTaskLine l n = Some t ->
    taskContent l = Some content ->
    recurrence t = Some r ->
    r <> []
    /\ trim r = r
    /\ forallb (none_of RECURRENCE_STOP) r = true
    /\ exists pre ws post,
         content = pre ++ RECURRENCE_GLYPH ++ ws ++ r ++ post
         /\ forallb is_space ws = true.
Proof.
  intros l n t content r Hp Hc Hr.
  destruct (parseTaskLine_fields _ _ _ _ Hp Hc)
    as (_ & _ & _ & _ & _ & Hrec & _).
  rewrite Hr in Hrec.
  destruct (extractMatch content RECURRENCE_REGEX) as [[|x cap]|] eqn:E;
    try discriminate Hrec.
  injection Hrec as ->.
  apply extractMatch_recurrence_inv in E as (pre & u & -> & Hcap).
  assert (Hx : is_space x = false).
  { pose proof (dropWhile_head is_space u) as Hh.
    rewrite <- (take_drop_while (none_of RECURRENCE_STOP)
                                (dropWhile is_space u)) in Hh.
    rewrite <- Hcap in Hh. exact Hh. }
  assert (Hall : forallb (none_of RECURRENCE_STOP) (x :: cap) = true)
    by (rewrite Hcap; apply takeWhile_all).
  destruct (trimEnd_split (x :: cap)) as (w2 & Hsplit & Hw2).
  assert (Htrim : trim (x :: cap) = trimEnd (x :: cap)).
  { unfold trim, trimStart. now rewrite (dropWhile_stop is_space x cap Hx). }
  split; [exact (trim_nonempty x cap Hx)|].
  split; [apply trim_idem|].
  split.
  - rewrite Hsplit, forallb_app in Hall.
    apply andb_true_iff in Hall as [Hall _]. now rewrite Htrim.
  - exists pre, (takeWhile is_space u),
      (w2 ++ dropWhile (none_of RECURRENCE_STOP) (dropWhile is_space u)).
    split; [|apply takeWhile_all].
    rewrite Htrim. rewrite (app_assoc (trimEnd (x :: cap)) w2).
    rewrite <- Hsplit, Hcap. now rewrite !take_drop_while.
Qed.

Lemma stored_recurrence_shape_witness :
  js "every week" <> []
  /\ trim (js "every week") = js "every week"
  /\ forallb (none_of RECURRENCE_STOP) (js "every week") = true
  /\ exists pre ws post,
       watering_content
       = pre ++ RECURRENCE_GLYPH ++ ws ++ js "every week" ++ post
       /\ forallb is_space ws = true.
Proof.
  apply (stored_recurrence_shape watering_line 0 watering_task
           watering_content).
  - vm_compute; reflexivity.
  - vm_compute; reflexivity.
  - vm_compute; reflexivity.
Defined.

(** ** The description *)

Lemma collapse_spaces_collapsed (s : jsstring) :
  forall in_run,
    collapsed (collapse_spaces in_run s) = true
    /\ (in_run = true ->
        match collapse_spaces in_run s with
        | [] => True
        | y :: _ => is_space y = false
        end).
Proof.
  induction s as [|x s IH]; intros in_run; simpl.
  - split; [reflexivity | intros _; exact I].
  - destruct (is_space x) eqn:Ex.
    + destruct in_run.
      * apply IH.
      * destruct (IH true) as [Hc Hh]. split; [|discriminate].
        simpl. rewrite Hc, andb_true_r. specialize (Hh eq_refl).
        destruct (collapse_spaces true s); [reflexivity|].
        now rewrite Hh.
    + destruct (IH false) as [Hc _]. split; [|intros _; exact Ex].
      simpl. now rewrite Ex, Hc.
Qed.

Lemma collapsed_app_r (a b : jsstring) :
  collapsed (a ++ b) = true -> collapsed b = true.
Proof.
  induction a as [|x a IH]; simpl; [auto|].
  intros H. apply andb_true_iff in H as [_ H]. exact (IH H).
Qed.

Lemma collapsed_app_l (a b : jsstring) :
  collapsed (a ++ b) = true -> collapsed a = true.
Proof.
  induction a as [|x a IH]; [reflexivity|].
  cbn [app collapsed]. intros H. apply andb_true_iff in H as [Hx H].
  rewrite (IH H), andb_true_r.
  destruct (is_space x); [|reflexivity].
  apply andb_true_iff in Hx as [-> Hx]. destruct a; [reflexivity | exact Hx].
Qed.

Lemma collapsed_trim (s : jsstring) :
  collapsed s = true -> collapsed (trim s) = true.
Proof.
  intros H. destruct (trim_split s) as (w1 & w2 & Hs & _).
  rewrite Hs in H. apply collapsed_app_r, collapsed_app_l in H. exact H.
Qed.

(** X7: the description [extractDescription] returns carries no whitespace
    at either end, and inside it every whitespace code unit is a single blank
    between two other code units. *)
Theorem description_is_normalised :
  forall content : jsstring,
    trim (extractDescription content) = extractDescription content
    /\ collapsed (extractDescription content) = true.
Proof.
  intros content. unfold extractDescription. split.
  - apply trim_idem.
  - apply collapsed_trim. apply (collapse_spaces_collapsed _ false).
Qed.

Lemma replace_first_absent (r : regex) (g : jsstring) (re : list atom)
      (s : jsstring) :
  anchored r = false -> atoms r = lit g ++ re -> ~ occurs g s ->
  replace_first r s = s.
Proof.
  intros Ha Hr Hno. unfold replace_first, find. rewrite Ha, Hr.
  now rewrite (search_no_occurrence _ _ _ Hno).
Qed.

(** X8: when the task content holds none of the eleven marker glyphs, the
    description is the content with every run of whitespace turned into one
    blank, trimmed. *)
Theorem description_without_markers :
  forall content : jsstring,
    (forall g, In g MARKER_GLYPHS -> ~ occurs g content) ->
    extractDescription content = trim (collapse_spaces false content).
Proof.
  intros content Hno. unfold extractDescription, MARKER_REGEXES.
  cbn [fold_left].
  unfold DUE_DATE_REGEX, SCHEDULED_DATE_REGEX, START_DATE_REGEX,
    CREATED_DATE_REGEX, DONE_DATE_REGEX, PRIORITY_HIGHEST_REGEX,
    PRIORITY_HIGH_REGEX, PRIORITY_MEDIUM_REGEX, PRIORITY_LOW_REGEX,
    PRIORITY_LOWEST_REGEX.
  rewrite (replace_first_absent (date_regex DUE_GLYPH) DUE_GLYPH
             (Star is_space :: date_atoms) content eq_refl eq_refl)
    by (apply Hno; glyph_in).
  rewrite (replace_first_absent (date_regex SCHEDULED_GLYPH) SCHEDULED_GLYPH
             (Star is_space :: date_atoms) content eq_refl eq_refl)
    by (apply Hno; glyph_in).
  rewrite (replace_first_absent (date_regex START_GLYPH) START_GLYPH
             (Star is_space :: date_atoms) content eq_refl eq_refl)
    by (apply Hno; glyph_in).
  rewrite (replace_first_absent (date_regex CREATED_GLYPH) CREATED_GLYPH
             (Star is_space :: date_atoms) content eq_refl eq_refl)
    by (apply Hno; glyph_in).
  rewrite (replace_first_absent (date_regex DONE_GLYPH) DONE_GLYPH
             (Star is_space :: date_atoms) content eq_refl eq_refl)
    by (apply Hno; glyph_in).
  rewrite (replace_first_absent RECURRENCE_REGEX RECURRENCE_GLYPH
             [Star is_space; Star (none_of RECURRENCE_STOP)] content
             eq_refl eq_refl)
    by (apply Hno; glyph_in).
  rewrite (replace_first_absent (glyph_regex HIGHEST_GLYPH) HIGHEST_GLYPH []
             content eq_refl eq_refl)
    by (apply Hno; glyph_in).
  rewrite (replace_first_absent (glyph_regex HIGH_GLYPH) HIGH_GLYPH []
             content eq_refl eq_refl)
    by (apply Hno; glyph_in).
  rewrite (replace_first_absent (glyph_regex MEDIUM_GLYPH) MEDIUM_GLYPH []
             content eq_refl eq_refl)
    by (apply Hno; glyph_in).
  rewrite (replace_first_absent (glyph_regex LOW_GLYPH) LOW_GLYPH []
             content eq_refl eq_refl)
    by (apply Hno; glyph_in).
  rewrite (replace_first_absent (glyph_regex LOWEST_GLYPH) LOWEST_GLYPH []
             content eq_refl eq_refl)
    by (apply Hno; glyph_in).
  reflexivity.
Qed.

Lemma description_without_markers_witness :
  extractDescription shopping_content
  = trim (collapse_spaces false shopping_content)
  /\ extractDescription shopping_content = js "Buy milk and eggs".
Proof.
  assert (Hp : plain shopping_content) by plain_text.
  split.
  - exact (description_without_markers shopping_content (proj1 Hp)).
  - vm_compute; reflexivity.
Defined.

(** ** Substrings and the order of strings *)

Lemma startsWith_spec (p : jsstring) :
  forall s, startsWith s p = true <-> exists t, s = p ++ t.
Proof.
  induction p as [|y p IH]; intros s.
  - split; [intros _; exists s; reflexivity
           | intros _; destruct s; reflexivity].
  - destruct s as [|x s]; cbn [startsWith].
    + split; [discriminate | intros (t & H); discriminate H].
    + rewrite andb_true_iff, N.eqb_eq, IH. split.
      * intros (-> & t & ->). exists t; reflexivity.
      * intros (t & H). injection H as -> ->. split; [reflexivity|].
        exists t; reflexivity.
Qed.

Lemma includes_occurs (sub s : jsstring) :
  includes s sub = true <-> occurs sub s.
Proof.
  induction s as [|x s IH]; cbn [includes].
  - rewrite orb_false_r, startsWith_spec. split.
    + intros (t & H). exists [], t. exact H.
    + intros (pre & post & H). symmetry in H.
      apply app_eq_nil in H as [-> H]. exists post. now rewrite H.
  - rewrite orb_true_iff, startsWith_spec, IH. split.
    + intros [(t & H)|(pre & post & ->)].
      * exists [], t. exact H.
      * exists (x :: pre), post. reflexivity.
    + intros ([|y pre] & post & H).
      * left. exists post. exact H.
      * right. injection H as -> ->. exists pre, post. reflexivity.
Qed.

(** The three ways two code units compare, with what the tests return. *)
Lemma unit_compare (x y : code_unit) :
  ((x <? y) = true /\ (x =? y) = false /\ (y <? x) = false /\ (y =? x) = false)%N
  \/ (x = y)
  \/ ((x <? y) = false /\ (x =? y) = false /\ (y <? x) = true
      /\ (y =? x) = false)%N.
Proof.
  destruct (N.compare_spec x y) as [E|L|L].
  - right; left; exact E.
  - left. rewrite (proj2 (N.ltb_lt x y)), (proj2 (N.eqb_neq x y)),
      (proj2 (N.ltb_ge y x)), (proj2 (N.eqb_neq y x)) by lia. auto.
  - right; right. rewrite (proj2 (N.ltb_ge x y)), (proj2 (N.eqb_neq x y)),
      (proj2 (N.ltb_lt y x)), (proj2 (N.eqb_neq y x)) by lia. auto.
Qed.

Lemma str_ltb_irrefl (a : jsstring) : str_ltb a a = false.
Proof.
  induction a as [|x a IH]; [reflexivity|]. simpl.
  now rewrite N.ltb_irrefl, N.eqb_refl.
Qed.

(** Of [a < b], [a === b] and [b < a] exactly one holds. *)
Lemma str_ltb_trichotomy (a : jsstring) :
  forall b,
    (str_ltb a b = true /\ str_eqb a b = false /\ str_ltb b a = false)
    \/ (str_ltb a b = false /\ str_eqb a b = true /\ str_ltb b a = false)
    \/ (str_ltb a b = false /\ str_eqb a b = false /\ str_ltb b a = true).
Proof.
  induction a as [|x a IH]; intros [|y b]; simpl; auto.
  destruct (unit_compare x y) as [(H1 & H2 & H3 & H4)|[->|(H1 & H2 & H3 & H4)]];
    rewrite ?H1, ?H2, ?H3, ?H4; auto.
  rewrite N.ltb_irrefl, N.eqb_refl. cbn [andb]. apply IH.
Qed.

Lemma str_ltb_trans (a : jsstring) :
  forall b c, str_ltb a b = true -> str_ltb b c = true -> str_ltb a c = true.
Proof.
  induction a as [|x a IH]; intros [|y b] [|z c]; simpl; try discriminate;
    auto.
  destruct (unit_compare x y) as [(Hxy & _)|[->|(H1 & H2 & _)]];
    [| |rewrite H1, H2; discriminate].
  - apply N.ltb_lt in Hxy. intros _.
    destruct (unit_compare y z) as [(Hyz & _)|[->|(H1 & H2 & _)]];
      [| |rewrite H1, H2; discriminate].
    + apply N.ltb_lt in Hyz. intros _.
      now rewrite (proj2 (N.ltb_lt x z)) by lia.
    + intros _. now rewrite (proj2 (N.ltb_lt x z)) by lia.
  - rewrite N.ltb_irrefl, N.eqb_refl.
    destruct (y <? z)%N; [auto|]. destruct (y =? z)%N; [apply IH|].
    discriminate.
Qed.

Lemma str_leb_refl (a : jsstring) : str_leb a a = true.
Proof. unfold str_leb. now rewrite str_ltb_irrefl. Qed.

Lemma str_leb_total (a b : jsstring) :
  str_leb a b = true \/ str_leb b a = true.
Proof.
  unfold str_leb.
  destruct (str_ltb_trichotomy a b) as [(-> & _ & ->)|[(-> & _ & ->)|(-> & _ & ->)]];
    auto.
Qed.

Lemma str_leb_antisym (a b : jsstring) :
  str_leb a b = true -> str_leb b a = true -> a = b.
Proof.
  unfold str_leb.
  destruct (str_ltb_trichotomy a b) as [(-> & _ & ->)|[(-> & E & ->)|(-> & _ & ->)]];
    try discriminate.
  intros _ _. now apply str_eqb_eq.
Qed.

Lemma str_leb_trans (a b c : jsstring) :
  str_leb a b = true -> str_leb b c = true -> str_leb a c = true.
Proof.
  unfold str_leb. rewrite !negb_true_iff. intros Hba Hcb.
  destruct (str_ltb c a) eqn:Hca; [|reflexivity].
  destruct (str_ltb_trichotomy a b) as [(Hab & _)|[(_ & E & _)|(_ & _ & H)]].
  - now rewrite (str_ltb_trans c a b Hca Hab) in Hcb.
  - apply str_eqb_eq in E. subst b. congruence.
  - congruence.
Qed.

(** ** Conditions *)

(** X9: [contains] holds exactly when the property has a value in which the
    literal occurs as a substring, so with an empty literal it holds for
    every task that has the property; [not_contains] is its negation, and
    [is_not_empty] is the negation of [is_empty]. *)
Theorem contains_is_substring :
  forall (task : ParsedTask) (cid p literal : jsstring),
    (evaluateCondition task {| cond_id := cid; property := p;
                               operator := js "contains";
                               value := literal |} = true
     <-> exists v, getTaskPropertyValue task p = Some v /\ occurs literal v)
    /\ (evaluateCondition task {| cond_id := cid; property := p;
                                  operator := js "contains";
                                  value := [] |} = true
        <-> getTaskPropertyValue task p <> None)
    /\ evaluateCondition task {| cond_id := cid; property := p;
                                 operator := js "not_contains";
                                 value := literal |}
       = negb (evaluateCondition task {| cond_id := cid; property := p;
                                         operator := js "contains";
                                         value := literal |})
    /\ evaluateCondition task {| cond_id := cid; property := p;
                                 operator := js "is_not_empty";
                                 value := literal |}
       = negb (evaluateCondition task {| cond_id := cid; property := p;
                                         operator := js "is_empty";
                                         value := literal |}).
Proof.
  intros task cid p literal.
  unfold evaluateCondition; cbn [operator property value]. eval_names.
  cbv iota.
  destruct (getTaskPropertyValue task p) as [v|].
  - split; [|split; [|split; reflexivity]].
    + rewrite includes_occurs. split.
      * intros H. exists v. auto.
      * intros (w & E & H). now injection E as ->.
    + split; [discriminate|]. intros _. now destruct v.
  - split; [|split; [|split; reflexivity]].
    + split; [discriminate | intros (w & E & _); discriminate E].
    + split; [discriminate | intros H; contradiction H; reflexivity].
Qed.

(** X10: the four ordering operators compare by code units.  On a task that
    has the property, exactly one of [less_than], [equals] and
    [greater_than] holds, [greater_or_equal] is the negation of [less_than]
    and [less_or_equal] that of [greater_than]; on a task without the
    property all four are false. *)
Theorem ordering_operators :
  forall (task : ParsedTask) (cid p literal : jsstring),
    let holds op :=
      evaluateCondition task {| cond_id := cid; property := p;
                                operator := op; value := literal |} in
    match getTaskPropertyValue task p with
    | Some v =>
        ((holds (js "less_than") = true /\ holds (js "equals") = false
          /\ holds (js "greater_than") = false)
         \/ (holds (js "less_than") = false /\ holds (js "equals") = true
             /\ holds (js "greater_than") = false)
         \/ (holds (js "less_than") = false /\ holds (js "equals") = false
             /\ holds (js "greater_than") = true))
        /\ holds (js "greater_or_equal") = negb (holds (js "less_than"))
        /\ holds (js "less_or_equal") = negb (holds (js "greater_than"))
    | None =>
        holds (js "less_than") = false /\ holds (js "greater_than") = false
        /\ holds (js "greater_or_equal") = false
        /\ holds (js "less_or_equal") = false
    end.
Proof.
  intros task cid p literal holds. subst holds.
  unfold evaluateCondition; cbn [operator property value]. eval_names.
  cbv iota.
  destruct (getTaskPropertyValue task p) as [v|]; [|auto].
  split; [|split; reflexivity].
  destruct (str_ltb_trichotomy v literal)
    as [(-> & -> & ->)|[(-> & -> & ->)|(-> & -> & ->)]]; auto.
Qed.

(** ** Filtering *)

Lemma filter_subseq (A : Type) (f : A -> bool) (l : list A) :
  subseq (filter f l) l.
Proof.
  induction l as [|x l IH]; simpl; [constructor|].
  destruct (f x); constructor; exact IH.
Qed.

Lemma subseq_refl (A : Type) (l : list A) : subseq l l.
Proof. induction l; constructor; assumption. Qed.

Lemma filter_filter (A : Type) (f g : A -> bool) (l : list A) :
  filter g (filter f l) = filter (fun x => f x && g x) l.
Proof.
  induction l as [|x l IH]; simpl; [reflexivity|].
  destruct (f x); simpl; [|exact IH]. destruct (g x); now rewrite IH.
Qed.

Lemma filter_weaken (A : Type) (f g : A -> bool) (l : list A) :
  (forall x, f x = true -> g x = true) ->
  subseq (filter f l) (filter g l).
Proof.
  intros Hfg. induction l as [|x l IH]; simpl; [constructor|].
  destruct (f x) eqn:Ef.
  - rewrite (Hfg x Ef). now constructor.
  - destruct (g x); [now constructor | exact IH].
Qed.

(** X11: with at least one condition, the filter keeps exactly the tasks
    that satisfy all conditions (AND) or at least one (OR), and it keeps
    them in their order. *)
Theorem filter_keeps_exactly_the_matching :
  forall (tasks : list ParsedTask) (c0 : Condition) (cs : list Condition)
         (logic : ConditionLogic),
    subseq (filterTasksByConditions tasks (c0 :: cs) logic) tasks
    /\ forall t,
         In t (filterTasksByConditions tasks (c0 :: cs) logic)
         <-> In t tasks
             /\ match logic with
                | AND => forall c, In c (c0 :: cs) ->
                                   evaluateCondition t c = true
                | OR => exists c, In c (c0 :: cs)
                                  /\ evaluateCondition t c = true
                end.
Proof.
  intros tasks c0 cs logic. unfold filterTasksByConditions. split.
  - apply filter_subseq.
  - intros t. rewrite filter_In. destruct logic.
    + now rewrite forallb_forall.
    + now rewrite existsb_exists.
Qed.

(** X12: filters compose.  Filtering by two condition lists joined under AND
    is filtering by the first and then by the second; filtering a second
    time by the same conditions changes nothing; and what the conditions
    keep under AND they keep under OR. *)
Theorem filters_compose :
  forall (tasks : list ParsedTask) (cs1 cs2 : list Condition)
         (logic : ConditionLogic),
    filterTasksByConditions tasks (cs1 ++ cs2) AND
    = filterTasksByConditions (filterTasksByConditions tasks cs1 AND) cs2 AND
    /\ filterTasksByConditions (filterTasksByConditions tasks cs1 logic)
                               cs1 logic
       = filterTasksByConditions tasks cs1 logic
    /\ subseq (filterTasksByConditions tasks cs1 AND)
              (filterTasksByConditions tasks cs1 OR).
Proof.
  intros tasks cs1 cs2 logic. split; [|split].
  - destruct cs1 as [|c1 cs1]; [reflexivity|].
    destruct cs2 as [|c2 cs2].
    + now rewrite app_nil_r.
    + unfold filterTasksByConditions. cbn [app].
      rewrite filter_filter. apply filter_ext. intros t.
      change (c1 :: cs1 ++ c2 :: cs2) with ((c1 :: cs1) ++ c2 :: cs2).
      apply forallb_app.
  - destruct cs1 as [|c1 cs1]; [reflexivity|].
    unfold filterTasksByConditions. rewrite filter_filter.
    apply filter_ext. intros t. apply andb_diag.
  - destruct cs1 as [|c1 cs1]; [apply subseq_refl|].
    unfold filterTasksByConditions. apply filter_weaken. intros t H.
    cbn [forallb existsb] in *. apply andb_true_iff in H as [-> _].
    reflexivity.
Qed.

(** ** Sorting and the aggregations *)

Lemma insert_sorted_perm (v : jsstring) (l : list jsstring) :
  Permutation (insert_sorted v l) (v :: l).
Proof.
  induction l as [|w l IH]; simpl; [apply Permutation_refl|].
  destruct (str_ltb v w); [apply Permutation_refl|].
  apply (perm_trans (perm_skip w IH)). apply perm_swap.
Qed.

Lemma sort_perm (l : list jsstring) : Permutation (sort l) l.
Proof.
  induction l as [|v l IH]; simpl; [constructor|].
  apply (perm_trans (insert_sorted_perm v (sort l))). now constructor.
Qed.

Lemma insert_sorted_ascending (v : jsstring) (l : list jsstring) :
  ascending l -> ascending (insert_sorted v l).
Proof.
  unfold ascending. induction 1 as [|w l Hs IH Hw]; simpl.
  - constructor; constructor.
  - destruct (str_ltb v w) eqn:E.
    + assert (Hvw : str_leb v w = true).
      { unfold str_leb.
        destruct (str_ltb_trichotomy v w) as [(_ & _ & ->)|[(H & _)|(H & _)]];
          [reflexivity | congruence | congruence]. }
      constructor; [now constructor|].
      constructor; [exact Hvw|].
      eapply Forall_impl; [|exact Hw]. intros u Hu.
      exact (str_leb_trans v w u Hvw Hu).
    + constructor; [exact IH|].
      apply (Permutation_Forall (Permutation_sym (insert_sorted_perm v l))).
      constructor; [|exact Hw]. unfold str_leb. now rewrite E.
Qed.

Lemma sort_ascending (l : list jsstring) : ascending (sort l).
Proof.
  induction l as [|v l IH]; simpl; [constructor|].
  now apply insert_sorted_ascending.
Qed.

(** Two ascending arrangements of the same strings are the same list. *)
Lemma ascending_unique (l1 : list jsstring) :
  forall l2, ascending l1 -> ascending l2 -> Permutation l1 l2 -> l1 = l2.
Proof.
  unfold ascending.
  induction l1 as [|a l1 IH]; intros l2 H1 H2 Hp.
  - now apply Permutation_nil in Hp.
  - destruct l2 as [|b l2];
      [apply Permutation_sym, Permutation_nil in Hp; discriminate Hp|].
    inversion H1 as [|? ? Hs1 Ha]; inversion H2 as [|? ? Hs2 Hb]; subst.
    assert (Hab : a = b).
    { assert (Ia : In a (b :: l2))
        by (apply (Permutation_in a Hp); now left).
      assert (Ib : In b (a :: l1))
        by (apply (Permutation_in b (Permutation_sym Hp)); now left).
      destruct Ia as [->|Ia]; [reflexivity|].
      destruct Ib as [->|Ib]; [reflexivity|].
      rewrite Forall_forall in Ha, Hb.
      exact (str_leb_antisym a b (Ha b Ib) (Hb a Ia)). }
    subst b. f_equal. apply (IH l2 Hs1 Hs2).
    exact (Permutation_cons_inv Hp).
Qed.

Lemma nth_last_index (l : list jsstring) :
  nth (length l - 1) l [] = last l [].
Proof.
  induction l as [|a l IH]; [reflexivity|].
  destruct l as [|b l]; [reflexivity|].
  replace (length (a :: b :: l) - 1) with (S (length (b :: l) - 1))
    by (simpl; lia).
  exact IH.
Qed.

Lemma ascending_last (l : list jsstring) :
  ascending l ->
  forall v, In v l -> str_leb v (last l []) = true.
Proof.
  unfold ascending. induction 1 as [|a l Hs IH Ha]; intros v Hin;
    [contradiction Hin|].
  destruct l as [|b l].
  - destruct Hin as [->|[]]. apply str_leb_refl.
  - change (last (a :: b :: l) []) with (last (b :: l) []).
    destruct Hin as [->|Hin]; [|exact (IH v Hin)].
    rewrite Forall_forall in Ha. apply Ha.
    destruct (exists_last (l := b :: l)) as (l' & z & E); [discriminate|].
    rewrite E, last_last. apply in_or_app. right; now left.
Qed.

Lemma ascending_first (l : list jsstring) :
  ascending l ->
  forall v, In v l -> str_leb (nth 0 l []) v = true.
Proof.
  unfold ascending. intros H v Hin. destruct H as [|a l _ Ha];
    [contradiction Hin|].
  destruct Hin as [->|Hin]; [apply str_leb_refl|].
  rewrite Forall_forall in Ha. exact (Ha v Hin).
Qed.

Lemma last_In (l : list jsstring) : l <> [] -> In (last l []) l.
Proof.
  intros Hne. destruct (exists_last Hne) as (l' & z & ->).
  rewrite last_last. apply in_or_app. right; now left.
Qed.

Lemma min_max_bounds :
  forall (tasks : list ParsedTask) (p : jsstring),
    match computeMin tasks p, computeMax tasks p with
    | Some lo, Some hi =>
        In lo (getPropertyValues tasks p)
        /\ In hi (getPropertyValues tasks p)
        /\ forall v, In v (getPropertyValues tasks p) ->
                     str_leb lo v = true /\ str_leb v hi = true
    | None, None => getPropertyValues tasks p = []
    | _, _ => False
    end.
Proof.
  intros tasks p. unfold computeMin, computeMax.
  destruct (getPropertyValues tasks p) as [|v0 vs] eqn:E; [reflexivity|].
  set (values := v0 :: vs) in *.
  pose proof (sort_perm values) as Hp.
  pose proof (sort_ascending values) as Hs.
  assert (Hne : sort values <> []).
  { intros H0. rewrite H0 in Hp.
    apply Permutation_nil in Hp. discriminate Hp. }
  rewrite <- (Permutation_length Hp), nth_last_index.
  split; [|split].
  - apply (Permutation_in _ Hp).
    destruct (sort values) as [|m l]; [contradiction Hne; reflexivity|].
    now left.
  - apply (Permutation_in _ Hp). now apply last_In.
  - intros v Hv. apply (Permutation_in _ (Permutation_sym Hp)) in Hv.
    split; [now apply ascending_first | now apply ascending_last].
Qed.

(** X13: [computeMin] and [computeMax] are absent exactly when no task has a
    value of the property; otherwise each returns one of the values, the
    minimum below and the maximum above all of them in the order of code
    units. *)
Theorem min_max_bound_the_values :
  forall (tasks : list ParsedTask) (p : jsstring),
    (computeMin tasks p = None <-> getPropertyValues tasks p = [])
    /\ (computeMax tasks p = None <-> getPropertyValues tasks p = [])
    /\ (forall lo, computeMin tasks p = Some lo ->
                   In lo (getPropertyValues tasks p)
                   /\ forall v, In v (getPropertyValues tasks p) ->
                                str_leb lo v = true)
    /\ (forall hi, computeMax tasks p = Some hi ->
                   In hi (getPropertyValues tasks p)
                   /\ forall v, In v (getPropertyValues tasks p) ->
                                str_leb v hi = true).
Proof.
  intros tasks p. pose proof (min_max_bounds tasks p) as H.
  destruct (computeMin tasks p) as [lo|], (computeMax tasks p) as [hi|];
    try contradiction H.
  - destruct H as (Ilo & Ihi & Hb).
    assert (Hne : getPropertyValues tasks p <> [])
      by (intros E; rewrite E in Ilo; exact Ilo).
    split; [split; [discriminate | intros E; contradiction (Hne E)]|].
    split; [split; [discriminate | intros E; contradiction (Hne E)]|].
    split; intros x Hx; injection Hx as <-;
      (split; [assumption | intros v Hv; now destruct (Hb v Hv)]).
  - split; [split; [intros _; exact H | reflexivity]|].
    split; [split; [intros _; exact H | reflexivity]|].
    split; intros x Hx; discriminate Hx.
Qed.

Lemma getPropertyValues_app (p : jsstring) (l1 l2 : list ParsedTask) :
  getPropertyValues (l1 ++ l2) p
  = getPropertyValues l1 p ++ getPropertyValues l2 p.
Proof.
  induction l1 as [|t l1 IH]; simpl; [reflexivity|].
  destruct (getTaskPropertyValue t p) as [[|x v]|]; simpl; now rewrite IH.
Qed.

Lemma getPropertyValues_rev (p : jsstring) (l : list ParsedTask) :
  getPropertyValues (rev l) p = rev (getPropertyValues l p).
Proof.
  induction l as [|t l IH]; simpl; [reflexivity|].
  rewrite getPropertyValues_app, IH. simpl.
  destruct (getTaskPropertyValue t p) as [[|x v]|]; simpl;
    now rewrite ?app_nil_r.
Qed.

Lemma computeFirst_head (p : jsstring) (l : list ParsedTask) :
  computeFirst l p = hd_error (getPropertyValues l p).
Proof.
  induction l as [|t l IH]; simpl; [reflexivity|].
  destruct (getTaskPropertyValue t p) as [[|x v]|]; simpl;
    first [exact IH | reflexivity].
Qed.

Lemma getPropertyValues_nonempty (p : jsstring) (l : list ParsedTask) :
  Forall (fun v => v <> []) (getPropertyValues l p).
Proof.
  induction l as [|t l IH]; simpl; [constructor|].
  destruct (getTaskPropertyValue t p) as [[|x v]|]; try exact IH.
  constructor; [discriminate | exact IH].
Qed.

(** X14: [computeFirst] returns the first and [computeLast] the last of the
    values [getPropertyValues] collects, the values [computeList] joins. *)
Theorem first_and_last_of_the_values :
  forall (tasks : list ParsedTask) (p : jsstring),
    computeFirst tasks p = hd_error (getPropertyValues tasks p)
    /\ computeLast tasks p = hd_error (rev (getPropertyValues tasks p))
    /\ computeList tasks p
       = match getPropertyValues tasks p with
         | [] => None
         | v :: vs => Some (join (js ", ") (v :: vs))
         end.
Proof.
  intros tasks p. split; [|split].
  - apply computeFirst_head.
  - unfold computeLast. now rewrite computeFirst_head, getPropertyValues_rev.
  - unfold computeList. destruct (getPropertyValues tasks p); reflexivity.
Qed.

Lemma rev_nil_iff (A : Type) (l : list A) : rev l = [] <-> l = [].
Proof.
  split; [|intros ->; reflexivity].
  intros H. apply (f_equal (@rev A)) in H. now rewrite rev_involutive in H.
Qed.

Lemma hd_error_none (A : Type) (l : list A) : hd_error l = None <-> l = [].
Proof. destruct l; simpl; split; congruence. Qed.

(** X15: on a non-empty task list the five counting operations always give
    a result, and [min], [max], [list], [first] and [last] give none exactly
    when no task has a non-empty value of the property. *)
Theorem when_an_operation_has_a_result :
  forall (t : ParsedTask) (ts : list ParsedTask) (p : jsstring),
    let tasks := t :: ts in
    let absent op := executeOperation tasks p op = None in
    (absent (js "min") <-> getPropertyValues tasks p = [])
    /\ (absent (js "max") <-> getPropertyValues tasks p = [])
    /\ (absent (js "list") <-> getPropertyValues tasks p = [])
    /\ (absent (js "first") <-> getPropertyValues tasks p = [])
    /\ (absent (js "last") <-> getPropertyValues tasks p = [])
    /\ ~ absent (js "count") /\ ~ absent (js "count_all")
    /\ ~ absent (js "count_done") /\ ~ absent (js "count_open")
    /\ ~ absent (js "percentage_done").
Proof.
  intros t ts p tasks absent. subst absent.
  unfold executeOperation. subst tasks. eval_names. cbv iota.
  set (tasks := t :: ts).
  repeat split; try discriminate.
  - unfold computeMin. destruct (getPropertyValues tasks p);
      [reflexivity | discriminate].
  - unfold computeMin. now intros ->.
  - unfold computeMax. destruct (getPropertyValues tasks p);
      [reflexivity | discriminate].
  - unfold computeMax. now intros ->.
  - unfold computeList. destruct (getPropertyValues tasks p);
      [reflexivity | discriminate].
  - unfold computeList. now intros ->.
  - rewrite computeFirst_head. apply hd_error_none.
  - rewrite computeFirst_head. apply hd_error_none.
  - unfold computeLast.
    rewrite computeFirst_head, getPropertyValues_rev, hd_error_none.
    apply rev_nil_iff.
  - unfold computeLast.
    rewrite computeFirst_head, getPropertyValues_rev, hd_error_none.
    apply rev_nil_iff.
Qed.

Lemma getPropertyValues_perm (p : jsstring) (l l' : list ParsedTask) :
  Permutation l l' ->
  Permutation (getPropertyValues l p) (getPropertyValues l' p).
Proof.
  induction 1 as [|x l l' _ IH|x y l|l l' l'' _ IH1 _ IH2]; simpl.
  - constructor.
  - destruct (getTaskPropertyValue x p) as [[|a v]|];
      [exact IH | now constructor | exact IH].
  - destruct (getTaskPropertyValue x p) as [[|a v]|],
      (getTaskPropertyValue y p) as [[|b w]|];
      try apply Permutation_refl. apply perm_swap.
  - exact (perm_trans IH1 IH2).
Qed.

Lemma sort_of_perm (l l' : list jsstring) :
  Permutation l l' -> sort l = sort l'.
Proof.
  intros Hp. apply ascending_unique; try apply sort_ascending.
  apply (perm_trans (sort_perm l)).
  apply (perm_trans Hp). apply Permutation_sym, sort_perm.
Qed.

(** X16: the order of the tasks plays no part in [min], [max] and the five
    counting operations: every rearrangement of the task list gives the same
    result. *)
Theorem task_order_is_irrelevant_to_min_max_and_counts :
  forall (tasks tasks' : list ParsedTask) (p op : jsstring),
    Permutation tasks tasks' ->
    In op [js "min"; js "max"; js "count"; js "count_all"; js "count_done";
           js "count_open"; js "percentage_done"] ->
    executeOperation tasks p op = executeOperation tasks' p op.
Proof.
  intros tasks tasks' p op Hp Hop.
  pose proof (Permutation_length Hp) as Hlen.
  pose proof (getPropertyValues_perm p _ _ Hp) as Hv.
  pose proof (Permutation_length Hv) as Hvlen.
  pose proof (sort_of_perm _ _ Hv) as Hsort.
  assert (Hdone : length (filter isDone tasks)
                  = length (filter isDone tasks'))
    by (apply Permutation_length, filter_perm, Hp).
  assert (Hopen : length (filter (fun t => negb (isDone t)) tasks)
                  = length (filter (fun t => negb (isDone t)) tasks'))
    by (apply Permutation_length, filter_perm, Hp).
  destruct tasks as [|t ts], tasks' as [|t' ts']; try discriminate Hlen;
    [reflexivity|].
  set (l := t :: ts) in *. set (l' := t' :: ts') in *.
  cbn [In] in Hop.
  destruct Hop as [<-|[<-|[<-|[<-|[<-|[<-|[<-|[]]]]]]]];
    unfold executeOperation; subst l l'; eval_names; cbv iota;
    set (l := t :: ts) in *; set (l' := t' :: ts') in *.
  - unfold computeMin.
    destruct (getPropertyValues l p) as [|v vs],
      (getPropertyValues l' p) as [|v' vs']; try discriminate Hvlen;
      [reflexivity|]. now rewrite Hsort.
  - unfold computeMax.
    destruct (getPropertyValues l p) as [|v vs],
      (getPropertyValues l' p) as [|v' vs']; try discriminate Hvlen;
      [reflexivity|]. now rewrite Hsort, Hvlen.
  - unfold computeCount. now rewrite Hvlen.
  - now rewrite Hlen.
  - now rewrite Hdone.
  - now rewrite Hopen.
  - unfold computePercentageDone. subst l l'. cbv iota.
    set (l := t :: ts) in *. set (l' := t' :: ts') in *.
    now rewrite Hdone, Hlen.
Qed.

Lemma task_order_is_irrelevant_to_min_max_and_counts_witness :
  executeOperation dated_tasks (js "due_date") (js "min")
  = executeOperation (rev dated_tasks) (js "due_date") (js "min").
Proof.
  apply (task_order_is_irrelevant_to_min_max_and_counts
           dated_tasks (rev dated_tasks) (js "due_date") (js "min")).
  - apply Permutation_rev.
  - left. reflexivity.
Defined.

(** ** Dates in the order of strings *)

Lemma is_digit_bounds (x : code_unit) :
  is_digit x = true -> (0x30 <= x <= 0x39)%N.
Proof.
  unfold is_digit. intros H. apply andb_true_iff in H as [H1 H2].
  apply N.leb_le in H1, H2. lia.
Qed.

Lemma digit_value_of (u : N) : digit_value (0x30 + u) = u.
Proof. unfold digit_value. lia. Qed.

Lemma is_digit_offset (x : code_unit) :
  is_digit x = true -> exists u, (u <= 9)%N /\ x = (0x30 + u)%N.
Proof.
  intros H. apply is_digit_bounds in H. exists (x - 0x30)%N. lia.
Qed.

Lemma date_shaped_inv (d : jsstring) :
  date_shaped d ->
  exists y1 y2 y3 y4 m1 m2 d1 d2,
    d = [0x30 + y1; 0x30 + y2; 0x30 + y3; 0x30 + y4; 0x2D;
         0x30 + m1; 0x30 + m2; 0x2D; 0x30 + d1; 0x30 + d2]%N
    /\ (y1 <= 9 /\ y2 <= 9 /\ y3 <= 9 /\ y4 <= 9 /\ m1 <= 9 /\ m2 <= 9
        /\ d1 <= 9 /\ d2 <= 9)%N.
Proof.
  intros [Hlen Hm].
  do 10 (destruct d as [|? d]; [discriminate Hlen|]).
  destruct d; [|discriminate Hlen]. clear Hlen.
  cbn [match_classes DATE_CLASSES] in Hm.
  repeat match goal with
    | H : _ && _ = true |- _ => apply andb_true_iff in H as [? H]
    end.
  repeat match goal with
    | H : is_digit _ = true |- _ =>
        apply is_digit_offset in H; destruct H as (? & ? & ->)
    | H : only _ _ = true |- _ => unfold only in H; apply N.eqb_eq in H
    end.
  subst. do 8 eexists. split; [reflexivity|]. repeat split; assumption.
Qed.

Ltac lex_step :=
  match goal with
  | |- (if (0x30 + ?u <? 0x30 + ?v)%N then true else _) = true <-> _ =>
      destruct (N.ltb_spec (0x30 + u) (0x30 + v));
      [ split; [intros _; lia | intros _; reflexivity]
      | destruct (N.eqb_spec (0x30 + u) (0x30 + v));
        [ assert (u = v) by lia; subst v; cbv iota
        | let D := fresh "D" in
          split; [intros D; discriminate D | intros; lia] ] ]
  end.

(** On dates the order of code units is the order of the days. *)
Lemma date_order (a b : jsstring) :
  date_shaped a -> date_shaped b ->
  (str_ltb a b = true <-> (date_number a < date_number b)%N).
Proof.
  intros Ha Hb.
  destruct (date_shaped_inv a Ha)
    as (a1 & a2 & a3 & a4 & a5 & a6 & a7 & a8 & -> & Hda).
  destruct (date_shaped_inv b Hb)
    as (b1 & b2 & b3 & b4 & b5 & b6 & b7 & b8 & -> & Hdb).
  cbn [str_ltb date_number]. rewrite !digit_value_of.
  change (0x2D <? 0x2D)%N with false. change (0x2D =? 0x2D)%N with true.
  cbv iota.
  do 8 (lex_step; []). split; [discriminate | lia].
Qed.

(** X17: on a date property and a date literal, [less_than] and
    [greater_than] compare the days: the string comparison the code makes
    agrees with the calendar. *)
Theorem date_conditions_follow_the_calendar :
  forall (task : ParsedTask) (cid p d literal : jsstring),
    getTaskPropertyValue task p = Some d ->
    date_shaped d -> date_shaped literal ->
    (evaluateCondition task {| cond_id := cid; property := p;
                               operator := js "less_than";
                               value := literal |} = true
     <-> (date_number d < date_number literal)%N)
    /\ (evaluateCondition task {| cond_id := cid; property := p;
                                  operator := js "greater_than";
                                  value := literal |} = true
        <-> (date_number literal < date_number d)%N).
Proof.
  intros task cid p d literal Hv Hd Hl.
  unfold evaluateCondition; cbn [operator property value]. eval_names.
  cbv iota. rewrite Hv.
  split; now apply date_order.
Qed.

Lemma date_conditions_follow_the_calendar_witness :
  (evaluateCondition shipping_task
     {| cond_id := js "c1"; property := js "due_date";
        operator := js "less_than"; value := js "2025-10-01" |} = true
   <-> (date_number (js "2025-06-01") < date_number (js "2025-10-01"))%N)
  /\ (evaluateCondition shipping_task
        {| cond_id := js "c1"; property := js "due_date";
           operator := js "greater_than"; value := js "2025-10-01" |} = true
      <-> (date_number (js "2025-10-01") < date_number (js "2025-06-01"))%N).
Proof.
  apply (date_conditions_follow_the_calendar shipping_task (js "c1")
           (js "due_date") (js "2025-06-01") (js "2025-10-01")).
  - vm_compute; reflexivity.
  - split; vm_compute; reflexivity.
  - split; vm_compute; reflexivity.
Defined.

Lemma date_order_leb (a b : jsstring) :
  date_shaped a -> date_shaped b ->
  (str_leb a b = true <-> (date_number a <= date_number b)%N).
Proof.
  intros Ha Hb. unfold str_leb. rewrite negb_true_iff.
  pose proof (date_order b a Hb Ha) as H.
  destruct (str_ltb b a); split; intros H'; try reflexivity;
    try discriminate.
  - assert (date_number b < date_number a)%N by now apply H. lia.
  - apply N.le_ngt. intros Hlt. apply H in Hlt. discriminate Hlt.
Qed.

(** X18: when every value of the property is a date, [computeMin] returns
    the earliest and [computeMax] the latest of them. *)
Theorem min_is_earliest_max_is_latest :
  forall (tasks : list ParsedTask) (p lo hi : jsstring),
    Forall date_shaped (getPropertyValues tasks p) ->
    computeMin tasks p = Some lo ->
    computeMax tasks p = Some hi ->
    forall v, In v (getPropertyValues tasks p) ->
              (date_number lo <= date_number v <= date_number hi)%N.
Proof.
  intros tasks p lo hi Hall Hlo Hhi v Hv.
  pose proof (min_max_bounds tasks p) as H.
  rewrite Hlo, Hhi in H. destruct H as (Ilo & Ihi & Hb).
  destruct (Hb v Hv) as [H1 H2].
  rewrite Forall_forall in Hall.
  apply date_order_leb in H1; [|now apply Hall|now apply Hall].
  apply date_order_leb in H2; [|now apply Hall|now apply Hall].
  lia.
Qed.

Lemma min_is_earliest_max_is_latest_witness :
  (date_number (js "2025-01-15") <= date_number (js "2025-02-10")
   <= date_number (js "2025-03-02"))%N.
Proof.
  apply (min_is_earliest_max_is_latest dated_tasks (js "due_date")
           (js "2025-01-15") (js "2025-03-02")).
  - vm_compute. repeat constructor.
  - vm_compute; reflexivity.
  - vm_compute; reflexivity.
  - vm_compute. right; right; left. reflexivity.
Defined.

(** ** The updates of a processing pass *)

Lemma to_uint_nonnil (n : nat) : Nat.to_uint n <> Decimal.Nil.
Proof.
  rewrite <- (DecimalNat.Unsigned.of_to n) at 1.
  rewrite DecimalNat.Unsigned.to_of. apply DecimalFacts.unorm_nonnil.
Qed.

Lemma String_of_nat_nonempty (n : nat) : String_of_nat n <> [].
Proof.
  unfold String_of_nat. pose proof (to_uint_nonnil n) as H.
  destruct (Nat.to_uint n); [contradiction H; reflexivity| ..];
    simpl; discriminate.
Qed.

Lemma String_of_nat_digits (n : nat) :
  forallb is_digit (String_of_nat n) = true.
Proof.
  unfold String_of_nat.
  induction (Nat.to_uint n) as [|u IH|u IH|u IH|u IH|u IH|u IH|u IH|u IH|u IH
                                |u IH]; [reflexivity| ..];
    cbn [NilEmpty.string_of_uint list_ascii_of_string map forallb];
    rewrite IH; reflexivity.
Qed.

Lemma join_nonempty (sep v : jsstring) (vs : list jsstring) :
  v <> [] -> join sep (v :: vs) <> [].
Proof.
  intros Hv. destruct vs as [|w vs]; [exact Hv|].
  rewrite join_cons. destruct v; [contradiction Hv; reflexivity|].
  discriminate.
Qed.

Lemma hd_error_In (A : Type) (l : list A) (x : A) :
  hd_error l = Some x -> In x l.
Proof. destruct l; simpl; [discriminate|]. intros H; injection H; auto. Qed.

(** No operation returns the empty string. *)
Lemma executeOperation_nonempty (tasks : list ParsedTask)
      (p op r : jsstring) :
  executeOperation tasks p op = Some r -> r <> [].
Proof.
  pose proof (getPropertyValues_nonempty p tasks) as Hne.
  rewrite Forall_forall in Hne.
  unfold executeOperation. destruct tasks as [|t ts]; [discriminate|].
  set (l := t :: ts) in *.
  destruct (str_eqb op (js "min")).
  { intros H. pose proof (min_max_bounds l p) as Hb. rewrite H in Hb.
    destruct (computeMax l p); [|contradiction Hb].
    destruct Hb as (Hin & _). exact (Hne r Hin). }
  destruct (str_eqb op (js "max")).
  { intros H. pose proof (min_max_bounds l p) as Hb. rewrite H in Hb.
    destruct (computeMin l p); [|contradiction Hb].
    destruct Hb as (_ & Hin & _). exact (Hne r Hin). }
  destruct (str_eqb op (js "count"));
    [intros H; injection H as <-; apply String_of_nat_nonempty|].
  destruct (str_eqb op (js "count_all"));
    [intros H; injection H as <-; apply String_of_nat_nonempty|].
  destruct (str_eqb op (js "count_done"));
    [intros H; injection H as <-; apply String_of_nat_nonempty|].
  destruct (str_eqb op (js "count_open"));
    [intros H; injection H as <-; apply String_of_nat_nonempty|].
  destruct (str_eqb op (js "percentage_done"));
    [intros H; injection H as <-; apply String_of_nat_nonempty|].
  destruct (str_eqb op (js "list")).
  { unfold computeList. destruct (getPropertyValues l p) as [|v vs];
      [discriminate|].
    intros H; injection H as <-.
    refine (join_nonempty (js ", ") v vs _). apply Hne. now left. }
  destruct (str_eqb op (js "first")).
  { rewrite computeFirst_head. intros H. apply hd_error_In in H.
    exact (Hne r H). }
  destruct (str_eqb op (js "last")); [|discriminate].
  unfold computeLast. rewrite computeFirst_head, getPropertyValues_rev.
  intros H. apply hd_error_In, in_rev in H. exact (Hne r H).
Qed.

Lemma direct_loop_update (m : DirectMapping) (tasks : list ParsedTask)
      (u : Update) :
  In u (direct_loop m tasks) ->
  key u = dm_frontmatterKey m
  /\ overwriteExisting u = dm_overwriteExisting m
  /\ upd_value u <> [].
Proof.
  induction tasks as [|t tasks IH]; simpl; [contradiction|].
  destruct (getTaskPropertyValue t (dm_taskProperty m)) as [[|x v]|];
    try exact IH.
  intros [<-|[]]. repeat split. discriminate.
Qed.

Lemma operation_update (m : OperationMapping) (tasks : list ParsedTask)
      (u : Update) :
  In u (processOperationMapping m tasks) ->
  key u = om_frontmatterKey m
  /\ overwriteExisting u = om_overwriteExisting m
  /\ upd_value u <> [].
Proof.
  unfold processOperationMapping.
  destruct (executeOperation _ _ _) as [r|] eqn:E; [|contradiction].
  intros [<-|[]]. repeat split.
  exact (executeOperation_nonempty _ _ _ _ E).
Qed.

Lemma operation_at_most_one (m : OperationMapping) (tasks : list ParsedTask) :
  length (processOperationMapping m tasks) <= 1.
Proof.
  unfold processOperationMapping.
  destruct (executeOperation _ _ _); simpl; lia.
Qed.

Lemma flat_map_at_most_one (A B : Type) (f : A -> list B) (l : list A) :
  (forall x, length (f x) <= 1) -> length (flat_map f l) <= length l.
Proof.
  intros Hf. induction l as [|x l IH]; simpl; [lia|].
  rewrite length_app. specialize (Hf x). lia.
Qed.

Lemma collectUpdates_nil (settings : TaskPropertyPluginSettings) :
  collectUpdates settings [] = [].
Proof.
  unfold collectUpdates.
  assert (H1 : forall l : list DirectMapping,
             flat_map (fun m => processDirectMapping m []) l = [])
    by (induction l as [|m l IH]; [reflexivity | exact IH]).
  assert (H2 : forall l : list OperationMapping,
             flat_map (fun m => processOperationMapping m []) l = []).
  { induction l as [|m l IH]; [reflexivity|]. simpl. rewrite IH.
    unfold processOperationMapping.
    destruct (om_conditions m) as [[|c cs]|]; reflexivity. }
  now rewrite H1, H2.
Qed.

(** X19: a file in which no line is a task gets no update, whatever the
    mappings are; the exemption [processFile] makes for the counting
    operations changes nothing. *)
Theorem no_tasks_no_updates :
  forall (settings : TaskPropertyPluginSettings) (content : jsstring),
    parseTasks content = [] ->
    processFile settings content = [].
Proof.
  intros settings content H. unfold processFile. rewrite H.
  destruct (_ && _); [reflexivity | apply collectUpdates_nil].
Qed.

Lemma no_tasks_no_updates_witness :
  hasCountOps counting_settings = true
  /\ processFile counting_settings plain_note = [].
Proof.
  split; [vm_compute; reflexivity|].
  apply (no_tasks_no_updates counting_settings plain_note).
  vm_compute; reflexivity.
Defined.

(** X20: every update [processFile] hands to the writer carries a non-empty
    value and the key and overwrite flag of an enabled mapping, and there
    are at most as many updates as enabled mappings. *)
Theorem updates_come_from_enabled_mappings :
  forall (settings : TaskPropertyPluginSettings) (content : jsstring),
    let enabled :=
      map (fun m => (dm_frontmatterKey m, dm_overwriteExisting m))
          (filter dm_enabled (directMappings settings))
      ++ map (fun m => (om_frontmatterKey m, om_overwriteExisting m))
             (filter om_enabled (operationMappings settings)) in
    length (processFile settings content) <= length enabled
    /\ forall u, In u (processFile settings content) ->
                 upd_value u <> []
                 /\ In (key u, overwriteExisting u) enabled.
Proof.
  intros settings content enabled. subst enabled. unfold processFile.
  destruct (_ && _).
  - split; [simpl; lia | contradiction].
  - unfold collectUpdates. split.
    + rewrite !length_app, !length_map.
      pose proof (flat_map_at_most_one _ _
                    (fun m => processDirectMapping m (parseTasks content))
                    (filter dm_enabled (directMappings settings))
                    (fun m => direct_loop_at_most_one m _)) as H1.
      pose proof (flat_map_at_most_one _ _
                    (fun m => processOperationMapping m (parseTasks content))
                    (filter om_enabled (operationMappings settings))
                    (fun m => operation_at_most_one m _)) as H2.
      lia.
    + intros u Hin. apply in_app_or in Hin as [Hin|Hin];
        apply in_flat_map in Hin as (m & Hm & Hu).
      * apply direct_loop_update in Hu as (Hk & Ho & Hv).
        split; [exact Hv|]. apply in_or_app. left.
        rewrite Hk, Ho.
        exact (in_map (fun m => (dm_frontmatterKey m, dm_overwriteExisting m))
                      _ m Hm).
      * apply operation_update in Hu as (Hk & Ho & Hv).
        split; [exact Hv|]. apply in_or_app. right.
        rewrite Hk, Ho.
        exact (in_map (fun m => (om_frontmatterKey m, om_overwriteExisting m))
                      _ m Hm).
Qed.

Lemma direct_loop_first (m : DirectMapping) (tasks : list ParsedTask) :
  direct_loop m tasks
  = match computeFirst tasks (dm_taskProperty m) with
    | Some v => [{| key := dm_frontmatterKey m; upd_value := v;
                    overwriteExisting := dm_overwriteExisting m |}]
    | None => []
    end.
Proof.
  induction tasks as [|t tasks IH]; simpl; [reflexivity|].
  destruct (getTaskPropertyValue t (dm_taskProperty m)) as [[|x v]|];
    first [exact IH | reflexivity].
Qed.

(** X28: a direct mapping gives the update that an operation mapping with
    the operation [first], the same property, key and overwrite flag, and no
    conditions gives. *)
Theorem direct_mapping_is_first_without_conditions :
  forall (m : DirectMapping) (tasks : list ParsedTask),
    processDirectMapping m tasks
    = processOperationMapping
        {| om_id := dm_id m; om_taskProperty := dm_taskProperty m;
           om_operation := js "first";
           om_frontmatterKey := dm_frontmatterKey m;
           om_overwriteExisting := dm_overwriteExisting m;
           om_enabled := dm_enabled m;
           om_conditions := None; om_conditionLogic := None |}
        tasks.
Proof.
  intros m tasks. unfold processDirectMapping, processOperationMapping.
  cbn [om_conditions om_conditionLogic om_taskProperty om_operation
       om_frontmatterKey om_overwriteExisting filterTasksByConditions].
  rewrite direct_loop_first. unfold executeOperation.
  destruct tasks as [|t ts]; [reflexivity|]. eval_names. cbv iota.
  reflexivity.
Qed.

(** ** Excluded folders *)

(** X21: a path is excluded exactly when it continues one of the excluded
    folders behind a slash: the folder as written when it ends with a slash,
    the folder and a slash when it does not.  A file whose name only starts
    like the folder is not excluded by it. *)
Theorem excluded_iff_under_a_folder :
  forall (folders : list jsstring) (path : jsstring),
    isExcluded folders path = true
    <-> exists f rest,
          In f folders
          /\ ((endsWith f (js "/") = true /\ path = f ++ rest)
              \/ (endsWith f (js "/") = false
                  /\ path = f ++ js "/" ++ rest)).
Proof.
  intros folders path. induction folders as [|f fs IH]; cbn [isExcluded].
  - split; [discriminate | intros (f & rest & [] & _)].
  - destruct (startsWith path (normalizedFolder f)) eqn:E.
    + split; [intros _ | reflexivity].
      apply startsWith_spec in E as (rest & ->).
      exists f, rest. split; [now left|].
      unfold normalizedFolder.
      destruct (endsWith f (js "/")); [left | right]; split;
        try reflexivity.
      now rewrite <- app_assoc.
    + rewrite IH. split.
      * intros (g & rest & Hin & H). exists g, rest. split; [now right|].
        exact H.
      * intros (g & rest & [<-|Hin] & H).
        -- exfalso.
           assert (Hs : startsWith path (normalizedFolder f) = true).
           { apply startsWith_spec. exists rest. unfold normalizedFolder.
             destruct H as [[-> ->]|[-> ->]]; [reflexivity|].
             now rewrite <- app_assoc. }
           congruence.
        -- exists g, rest. split; assumption.
Qed.

Lemma split_lines_app (a : jsstring) :
  forall cur s,
    forallb (fun c => negb (c =? 0x0A)%N) a = true ->
    split_lines cur (a ++ s) = split_lines (rev a ++ cur) s.
Proof.
  induction a as [|x a IH]; intros cur s H; [reflexivity|].
  cbn [forallb] in H. apply andb_true_iff in H as [Hx H].
  apply negb_true_iff in Hx. cbn [app split_lines]. rewrite Hx.
  rewrite (IH (x :: cur) s H). cbn [rev]. now rewrite <- app_assoc.
Qed.

Lemma split_lines_join (fs : list jsstring) :
  fs <> [] ->
  Forall (fun f => forallb (fun c => negb (c =? 0x0A)%N) f = true) fs ->
  split_lines [] (join [0x0A%N] fs) = fs.
Proof.
  intros Hne H. induction H as [|f fs Hf Hfs IH]; [contradiction Hne; auto|].
  destruct fs as [|g gs].
  - cbn [join]. rewrite <- (app_nil_r f) at 1.
    rewrite (split_lines_app f [] [] Hf). cbn [split_lines].
    now rewrite app_nil_r, rev_involutive.
  - rewrite join_cons. rewrite (split_lines_app f [] _ Hf).
    cbn [app split_lines N.eqb Pos.eqb]. rewrite app_nil_r, rev_involutive.
    f_equal. apply IH. discriminate.
Qed.

Lemma forallb_trim (c : cls) (s : jsstring) :
  forallb c s = true -> forallb c (trim s) = true.
Proof.
  intros H. destruct (trim_split s) as (w1 & w2 & Hs & _).
  rewrite Hs, !forallb_app in H.
  apply andb_true_iff in H as [_ H]. now apply andb_true_iff in H as [H _].
Qed.

Lemma filter_all (A : Type) (f : A -> bool) (l : list A) :
  Forall (fun x => f x = true) l -> filter f l = l.
Proof.
  induction 1 as [|x l Hx _ IH]; simpl; [reflexivity|].
  now rewrite Hx, IH.
Qed.

Lemma map_fixed (A : Type) (f : A -> A) (l : list A) :
  Forall (fun x => f x = x) l -> map f l = l.
Proof.
  induction 1 as [|x l Hx _ IH]; simpl; [reflexivity|].
  now rewrite Hx, IH.
Qed.

(** The folders the text area shows are read back as they are when each is
    non-empty, trimmed and free of line feeds. *)
Lemma parse_show_folders (fs : list jsstring) :
  Forall (fun f => f <> [] /\ trim f = f
                   /\ forallb (fun c => negb (c =? 0x0A)%N) f = true) fs ->
  parseExcludedFolders (showExcludedFolders fs) = fs.
Proof.
  intros H. unfold parseExcludedFolders, showExcludedFolders.
  destruct fs as [|f fs]; [reflexivity|].
  rewrite split_lines_join; [|discriminate|].
  - rewrite map_fixed, filter_all; [reflexivity| |].
    + eapply Forall_impl; [|exact H]. intros g (Hg & _).
      destruct g; [contradiction Hg; reflexivity | reflexivity].
    + eapply Forall_impl; [|exact H]. intros g (_ & Hg & _). exact Hg.
  - eapply Forall_impl; [|exact H]. intros g (_ & _ & Hg). exact Hg.
Qed.

Lemma parsed_folders_shape (value : jsstring) :
  Forall (fun f => f <> [] /\ trim f = f
                   /\ forallb (fun c => negb (c =? 0x0A)%N) f = true)
         (parseExcludedFolders value).
Proof.
  unfold parseExcludedFolders. apply Forall_forall. intros f Hin.
  apply filter_In in Hin as [Hin Hlen]. apply in_map_iff in Hin
    as (l & <- & Hl).
  pose proof (split_lines_no_line_feed value [] eq_refl) as Hno.
  rewrite Forall_forall in Hno. split; [|split].
  - intros E. rewrite E in Hlen. discriminate Hlen.
  - apply trim_idem.
  - apply forallb_trim. exact (Hno l Hl).
Qed.

(** X22: the folders read from the text area of the settings tab are
    non-empty and trimmed, and showing them in the text area and reading
    them again gives the same folders. *)
Theorem excluded_folders_settle :
  forall value : jsstring,
    Forall (fun f => f <> [] /\ trim f = f) (parseExcludedFolders value)
    /\ parseExcludedFolders
         (showExcludedFolders (parseExcludedFolders value))
       = parseExcludedFolders value.
Proof.
  intros value. pose proof (parsed_folders_shape value) as H. split.
  - eapply Forall_impl; [|exact H]. intros f (H1 & H2 & _). now split.
  - now apply parse_show_folders.
Qed.

(** ** The frontmatter writer *)

Section Writer.

Variable number : Type.
Variable number_eq : number -> number -> bool.
Variable parseInt10 : jsstring -> number.
Variable parseFloat : jsstring -> number.

Local Abbreviation coerce := (coerceValue parseInt10 parseFloat).
Local Abbreviation step := (apply_update number_eq parseInt10 parseFloat).
Local Abbreviation write :=
  (updateFrontmatterProperties number_eq parseInt10 parseFloat).

Lemma is_digit_offset_true (u : N) :
  (u <= 9)%N -> is_digit (0x30 + u) = true.
Proof.
  intros H. unfold is_digit. apply andb_true_iff.
  split; apply N.leb_le; lia.
Qed.

(** X23: a date is written as the string it is, and the result of a
    counting operation is written as a number. *)
Theorem dates_stay_text_counts_become_numbers :
  forall (d : jsstring) (n : nat),
    date_shaped d ->
    coerce (Text d) = Str d
    /\ coerce (Text (String_of_nat n)) = Num (parseInt10 (String_of_nat n)).
Proof.
  intros d n Hd. split.
  - destruct (date_shaped_inv d Hd)
      as (y1 & y2 & y3 & y4 & m1 & m2 & d1 & d2 & -> & H1 & H2 & H3 & H4 & _).
    unfold coerceValue, is_integer_text, is_decimal_text.
    cbn [forallb takeWhile dropWhile].
    rewrite (is_digit_offset_true y1 H1), (is_digit_offset_true y2 H2),
      (is_digit_offset_true y3 H3), (is_digit_offset_true y4 H4).
    change (is_digit 0x2D) with false. reflexivity.
  - unfold coerceValue, is_integer_text.
    pose proof (String_of_nat_nonempty n) as Hne.
    pose proof (String_of_nat_digits n) as Hdig.
    destruct (String_of_nat n); [contradiction Hne; reflexivity|].
    now rewrite Hdig.
Qed.

Lemma step_keeps (st : frontmatter number * bool)
      (u : FrontmatterUpdate number) (k : jsstring) :
  (fu_key u = k ->
   fu_overwriteExisting u = false /\ has_content (fst st k) = true) ->
  fst (step st u) k = fst st k.
Proof.
  destruct st as [fm b]. cbn [fst]. intros H. unfold apply_update.
  destruct (fu_value u); [|reflexivity].
  destruct (negb (fu_overwriteExisting u) && has_content (fm (fu_key u)))
    eqn:E; [reflexivity|].
  destruct (negb (strict_eq number_eq (fm (fu_key u)) _)); [|reflexivity].
  cbn [fst]. unfold assign.
  destruct (str_eqb (fu_key u) (js "__proto__")); [reflexivity|].
  destruct (str_eqb k (fu_key u)) eqn:Ek; [|reflexivity].
  apply str_eqb_eq in Ek. subst k. destruct (H eq_refl) as [How Hc].
  rewrite How, Hc in E. discriminate E.
Qed.

Lemma fold_keeps (k : jsstring) (us : list (FrontmatterUpdate number)) :
  forall st,
    (forall u, In u us -> fu_key u = k ->
               fu_overwriteExisting u = false
               /\ has_content (fst st k) = true) ->
    fst (fold_left step us st) k = fst st k.
Proof.
  induction us as [|u us IH]; intros st H; [reflexivity|].
  cbn [fold_left].
  assert (Hu : fst (step st u) k = fst st k)
    by (apply step_keeps; apply H; now left).
  rewrite IH; [exact Hu|].
  intros v Hv Hk. destruct (H v (or_intror Hv) Hk) as [H1 H2].
  split; [exact H1|].
  transitivity (has_content (fst st k)); [|exact H2]. f_equal. exact Hu.
Qed.

(** X24: the writer leaves a key as it is when no update names it, and also
    when the key holds a value other than [undefined], [null] and the empty
    string and every update that names it has overwriting switched off. *)
Theorem writer_keeps_protected_keys :
  forall (fm : frontmatter number) (us : list (FrontmatterUpdate number))
         (k : jsstring),
    (forall u, In u us -> fu_key u = k ->
               fu_overwriteExisting u = false /\ has_content (fm k) = true) ->
    fst (write fm us) k = fm k.
Proof.
  intros fm us k H. unfold updateFrontmatterProperties.
  now rewrite fold_keeps.
Qed.

Lemma step_flag (st : frontmatter number * bool)
      (u : FrontmatterUpdate number) :
  (snd st = true -> snd (step st u) = true)
  /\ (snd (step st u) = false -> fst (step st u) = fst st).
Proof.
  destruct st as [fm b]. unfold apply_update. cbn [fst snd].
  destruct (fu_value u); [|auto].
  destruct (negb (fu_overwriteExisting u) && has_content (fm (fu_key u)));
    [auto|].
  destruct (negb (strict_eq number_eq (fm (fu_key u)) _)); cbn [fst snd];
    [|auto].
  split; [reflexivity | discriminate].
Qed.

Lemma fold_flag (us : list (FrontmatterUpdate number)) :
  forall st,
    (snd st = true -> snd (fold_left step us st) = true)
    /\ (snd (fold_left step us st) = false ->
        fst (fold_left step us st) = fst st).
Proof.
  induction us as [|u us IH]; intros st; [auto|].
  cbn [fold_left]. destruct (IH (step st u)) as [Hup Hsame].
  destruct (step_flag st u) as [Hup1 Hsame1].
  split.
  - intros H. apply Hup, Hup1, H.
  - intros H. rewrite (Hsame H). apply Hsame1.
    destruct (snd (step st u)) eqn:E; [|reflexivity].
    rewrite (Hup eq_refl) in H. discriminate H.
Qed.

(** X25: when [updateFrontmatterProperties] reports that nothing was
    updated, the frontmatter is the one it was given. *)
Theorem no_update_reported_nothing_written :
  forall (fm : frontmatter number) (us : list (FrontmatterUpdate number)),
    snd (write fm us) = false -> fst (write fm us) = fm.
Proof.
  intros fm us H. unfold updateFrontmatterProperties in *.
  exact (proj2 (fold_flag us (fm, false)) H).
Qed.

(** X26: [updateFrontmatterProperty] does what
    [updateFrontmatterProperties] does with that one update. *)
Theorem single_update_is_the_batch_of_one :
  forall (fm : frontmatter number) (k : jsstring)
         (v : option (primitive number)) (ow : bool),
    updateFrontmatterProperty number_eq parseInt10 parseFloat fm k v ow
    = write fm [{| fu_key := k; fu_value := v;
                   fu_overwriteExisting := ow |}].
Proof.
  intros fm k v ow.
  unfold updateFrontmatterProperty, updateFrontmatterProperties.
  cbn [fold_left apply_update fu_key fu_value fu_overwriteExisting].
  destruct v as [v|]; [|reflexivity].
  destruct (negb ow && has_content (fm k)); [reflexivity|].
  destruct (negb (strict_eq number_eq (fm k) (coerce v))); reflexivity.
Qed.

(** What an update leaves under its key depends on what the key held. *)
Lemma step_local (st st' : frontmatter number * bool)
      (u : FrontmatterUpdate number) :
  fst st (fu_key u) = fst st' (fu_key u) ->
  fst (step st u) (fu_key u) = fst (step st' u) (fu_key u).
Proof.
  destruct st as [fm b], st' as [fm' b']. cbn [fst]. intros H.
  unfold apply_update. rewrite H.
  destruct (fu_value u); [|exact H].
  destruct (negb (fu_overwriteExisting u) && has_content (fm' (fu_key u)));
    [exact H|].
  destruct (negb (strict_eq number_eq (fm' (fu_key u)) _)); [|exact H].
  cbn [fst]. unfold assign.
  destruct (str_eqb (fu_key u) (js "__proto__")); [exact H|].
  now rewrite str_eqb_refl.
Qed.

Lemma step_other (st : frontmatter number * bool)
      (u : FrontmatterUpdate number) (k : jsstring) :
  fu_key u <> k -> fst (step st u) k = fst st k.
Proof.
  intros H. apply step_keeps. intros E. contradiction (H E).
Qed.

Lemma fold_other (k : jsstring) (us : list (FrontmatterUpdate number)) :
  forall st, ~ In k (map fu_key us) ->
             fst (fold_left step us st) k = fst st k.
Proof.
  intros st H. apply fold_keeps. intros u Hu Hk.
  contradiction H. rewrite <- Hk. now apply in_map.
Qed.

(** With pairwise different keys, what a pass leaves under the key of an
    update is what that update alone leaves there. *)
Lemma fold_at_key (us : list (FrontmatterUpdate number)) :
  NoDup (map fu_key us) ->
  forall st u, In u us ->
               fst (fold_left step us st) (fu_key u)
               = fst (step st u) (fu_key u).
Proof.
  induction us as [|w ws IH]; intros Hnd st u Hin; [contradiction Hin|].
  cbn [map] in Hnd. inversion Hnd as [|? ? Hw Hws]; subst.
  cbn [fold_left]. destruct Hin as [->|Hin].
  - now apply fold_other.
  - assert (Hne : fu_key w <> fu_key u).
    { intros E. apply Hw. rewrite E. now apply in_map. }
    rewrite (IH Hws (step st w) u Hin).
    apply step_local. now apply step_other.
Qed.

(** An update does nothing on a frontmatter that holds under its key what
    the update itself left there. *)
Lemma step_settled (st : frontmatter number * bool)
      (fm1 : frontmatter number) (u : FrontmatterUpdate number) :
  fu_key u <> js "__proto__" ->
  (forall v, fu_value u = Some v ->
             strict_eq number_eq (coerce v) (coerce v) = true) ->
  fm1 (fu_key u) = fst (step st u) (fu_key u) ->
  step (fm1, false) u = (fm1, false).
Proof.
  destruct st as [fm b]. intros Hkey Hrefl. unfold apply_update.
  destruct (fu_value u) as [v|]; [|reflexivity].
  specialize (Hrefl v eq_refl).
  apply str_eqb_neq in Hkey.
  destruct (negb (fu_overwriteExisting u) && has_content (fm (fu_key u)))
    eqn:E.
  - cbn [fst]. intros ->. now rewrite E.
  - destruct (negb (strict_eq number_eq (fm (fu_key u)) (coerce v))) eqn:Es.
    + cbn [fst]. unfold assign. rewrite Hkey, str_eqb_refl. intros ->.
      rewrite Hrefl. cbn [negb].
      destruct (negb (fu_overwriteExisting u) && has_content (coerce v));
        reflexivity.
    + cbn [fst]. intros ->. now rewrite E, Es.
Qed.

Lemma fold_settled (fm1 : frontmatter number)
      (us : list (FrontmatterUpdate number)) :
  (forall u, In u us -> step (fm1, false) u = (fm1, false)) ->
  fold_left step us (fm1, false) = (fm1, false).
Proof.
  induction us as [|u us IH]; intros H; [reflexivity|].
  cbn [fold_left]. rewrite (H u (or_introl eq_refl)).
  apply IH. intros v Hv. apply H. now right.
Qed.

(** X27: a second pass writes nothing.  When the updates have pairwise
    different keys, none of them [__proto__], and no value is a number that
    differs from itself, applying the same updates to the frontmatter they
    produced leaves it as it is and reports no update. *)
Theorem second_pass_writes_nothing :
  forall (fm : frontmatter number) (us : list (FrontmatterUpdate number)),
    NoDup (map fu_key us) ->
    (forall u, In u us -> fu_key u <> js "__proto__") ->
    (forall u v, In u us -> fu_value u = Some v ->
                 strict_eq number_eq (coerce v) (coerce v) = true) ->
    write (fst (write fm us)) us = (fst (write fm us), false).
Proof.
  intros fm us Hnd Hkey Hrefl. unfold updateFrontmatterProperties.
  apply fold_settled. intros u Hu.
  apply (step_settled (fm, false)).
  - exact (Hkey u Hu).
  - intros v Hv. exact (Hrefl u v Hu Hv).
  - exact (fold_at_key us Hnd (fm, false) u Hu).
Qed.

End Writer.

Lemma dates_stay_text_counts_become_numbers_witness :
  coerceValue sample_parse sample_parse (Text (js "2025-06-01"))
  = Str (js "2025-06-01")
  /\ coerceValue sample_parse sample_parse (Text (String_of_nat 12))
     = Num (sample_parse (String_of_nat 12)).
Proof.
  apply (dates_stay_text_counts_become_numbers Z sample_parse sample_parse
           (js "2025-06-01") 12).
  split; vm_compute; reflexivity.
Defined.

Lemma writer_keeps_protected_keys_witness :
  fst (updateFrontmatterProperties Z.eqb sample_parse sample_parse
         sample_frontmatter sample_updates) (js "status")
  = sample_frontmatter (js "status").
Proof.
  apply (writer_keeps_protected_keys Z Z.eqb sample_parse sample_parse
           sample_frontmatter sample_updates (js "status")).
  intros u [<-|[<-|[]]] Hk.
  - split; reflexivity.
  - vm_compute in Hk. discriminate Hk.
Defined.

Lemma no_update_reported_nothing_written_witness :
  fst (updateFrontmatterProperties Z.eqb sample_parse sample_parse
         sample_frontmatter (firstn 1 sample_updates))
  = sample_frontmatter.
Proof.
  apply (no_update_reported_nothing_written Z Z.eqb sample_parse sample_parse
           sample_frontmatter (firstn 1 sample_updates)).
  vm_compute; reflexivity.
Defined.

Lemma second_pass_writes_nothing_witness :
  updateFrontmatterProperties Z.eqb sample_parse sample_parse
    (fst (updateFrontmatterProperties Z.eqb sample_parse sample_parse
            sample_frontmatter sample_updates))
    sample_updates
  = (fst (updateFrontmatterProperties Z.eqb sample_parse sample_parse
            sample_frontmatter sample_updates), false).
Proof.
  apply (second_pass_writes_nothing Z Z.eqb sample_parse sample_parse
           sample_frontmatter sample_updates).
  - repeat constructor; vm_compute; intuition discriminate.
  - intros u [<-|[<-|[]]]; vm_compute; discriminate.
  - intros u v [<-|[<-|[]]] Hv; injection Hv as <-; vm_compute; reflexivity.
Defined.
